(** * The pnpm linking engine: tree builder, peer resolver, layout, linker

    A shallow embedding of [src/link/resolvePeers.ts], [src/link/index.ts]
    and [src/api/uninstall.ts].

    Conventions of the embedding:
    - JavaScript strings are [string]s (sequences of character codes);
      [Array.prototype.join] is [String.concat].
    - Plain objects used as dictionaries ([treeMap], [pkgsMap], the name
      scope, the resolved map) are [gmap string _]; objects whose key order
      is observed ([peerDependencies], through [R.toPairs]) are association
      lists in enumeration order.
    - A read [obj[key]] of the name scope or of a dependencies object, whose
      keys are package names, finds the members every plain object inherits
      from [Object.prototype] when [obj] has no such key of its own
      ([js_get]). Writing a key [__proto__], which would replace the
      prototype instead of adding a key, is not modelled.
    - Mutation of the shared [treeMap] in [createTree] is explicit state
      passing; log lines and filesystem operations are collected in traces.
    - [Promise.all] over an array of tasks runs every task, also after one of
      them was rejected, and is rejected with the first rejection; the tasks
      are run one after the other in the order of the array (the
      interleaving the limiter allows is not modelled).
    - Recursion through the package graph is bounded by a [fuel] argument
      counting call depth; running out of fuel is the distinct outcome
      [OutOfFuel], never confused with an exception ([Thrown]). *)

From stdpp Require Import gmap strings list fin_maps sorting.
From Stdlib Require Import Ascii.

#[local] Set Warnings "-clear-no-such-hyp".


(** ** Outcomes of fallible computations *)

Inductive error :=
  | TypeErrorUndefined (what : string)
  | PromiseRejected
  | ENOENT (file : string).

Inductive outcome (A : Type) :=
  | Ok (a : A)
  | Thrown (e : error)
  | OutOfFuel.
Arguments Ok {A} a.
Arguments Thrown {A} e.
Arguments OutOfFuel {A}.

Global Instance outcome_ret : MRet outcome := λ A a, Ok a.
Global Instance outcome_bind : MBind outcome := λ A B k m,
  match m with
  | Ok a => k a
  | Thrown e => Thrown e
  | OutOfFuel => OutOfFuel
  end.

(** A settled [Promise<A>]. *)
Inductive Promise (A : Type) :=
  | Resolved (a : A)
  | Rejected.
Arguments Resolved {A} a.
Arguments Rejected {A}.

(** ** Data model *)

(** [Dependencies]: a [{name: range}] object, in key enumeration order. *)
Abbreviation Dependencies := (list (string * string)).

(** The manifest type [Package] of [../types]. *)
Record Package := {
  name : string;
  version : string;
  dependencies : option Dependencies;
  devDependencies : option Dependencies;
  optionalDependencies : option Dependencies;
  peerDependencies : option Dependencies;
  bundledDependencies : option (list string);
  bundleDependencies : option (list string);
}.

(** [LinkedPackage] of [src/link/index.ts]. *)
Record LinkedPackage := {
  lp_id : string;
  lp_pkg : Package;
  lp_localLocation : string;
  lp_path : string;
  lp_fetchingFiles : Promise bool;
  lp_dependencies : list string;
}.

(** [DependencyTree] of [resolvePeers.ts]. *)
Record DependencyTree := {
  dt_id : string;
  dt_name : string;
  dt_version : string;
  dt_peerDependencies : Dependencies;
  dt_hasBundledDependencies : bool;
  dt_fetchingFiles : Promise bool;
  dt_localLocation : string;
  dt_path : string;
  dt_keypathId : string;
  dt_children : list string;
  dt_depth : nat;
}.

(** [ResolvedDependencyTree] of [resolvePeers.ts]. *)
Record ResolvedDependencyTree := {
  rt_name : string;
  rt_hasBundledDependencies : bool;
  rt_path : string;
  rt_modules : string;
  rt_peerModules : option string;
  rt_fetchingFiles : Promise bool;
  rt_hardlinkedLocation : string;
  rt_children : list string;
  rt_resolvedPeers : list string;
  rt_depth : nat;
  rt_id : string;
}.

(** ** Ramda and JavaScript helpers *)

(** [R.aperture(2, list)]: the consecutive pairs of [list]. *)
Fixpoint aperture2 (l : list string) : list (string * string) :=
  match l with
  | x :: (y :: _) as tl => (x, y) :: aperture2 tl
  | _ => []
  end.

(** Truthiness of a JavaScript string. *)
Definition truthy (s : string) : bool :=
  match s with
  | EmptyString => false
  | String _ _ => true
  end.

(** [a || b] on a possibly-undefined string [a]. *)
Definition or_else (a : option string) (b : string) : string :=
  match a with
  | Some s => if truthy s then s else b
  | None => b
  end.

(** [s.replace(c, d)] with a one-character string pattern: only the first
    occurrence is replaced. *)
Fixpoint replace_first (c d : ascii) (s : string) : string :=
  match s with
  | EmptyString => EmptyString
  | String a s' =>
      if Ascii.eqb a c then String d s' else String a (replace_first c d s')
  end.

(** The names of the own properties of [Object.prototype]. A plain object
    inherits them: each is a function, an accessor or (for [__proto__]) the
    prototype itself, hence truthy, and none has a property [version] or
    [keypathId]. *)
Definition objectPrototypeMembers : list string :=
  ["constructor"; "__defineGetter__"; "__defineSetter__"; "hasOwnProperty";
   "__lookupGetter__"; "__lookupSetter__"; "isPrototypeOf";
   "propertyIsEnumerable"; "toString"; "valueOf"; "__proto__";
   "toLocaleString"].

(** What [obj[key]] finds on a plain object: an own property, a member
    inherited from [Object.prototype], or [undefined]. *)
Inductive property (V : Type) :=
  | Own (v : V)
  | Inherited
  | Undefined.
Arguments Own {V} v.
Arguments Inherited {V}.
Arguments Undefined {V}.

(** [obj[key]] *)
Definition js_get {V} (obj : gmap string V) (key : string) : property V :=
  match obj !! key with
  | Some v => Own v
  | None =>
      if decide (key ∈ objectPrototypeMembers) then Inherited else Undefined
  end.

(** How a template literal renders a possibly-undefined string. *)
Definition render (s : option string) : string := default "undefined" s.

(** [R.fromPairs]: later pairs override earlier ones. *)
Definition fromPairs {V} (l : list (string * V)) : gmap string V :=
  foldl (λ m kv, <[kv.1 := kv.2]> m) ∅ l.

(** [R.merge(a, b)]: own properties of [b] override those of [a]. *)
Definition R_merge {V} (a b : gmap string V) : gmap string V := b ∪ a.

(** [R.props(keys, obj)] followed by a property access on each element:
    the first key that is missing makes the access throw. *)
Fixpoint props {V} (keys : list string) (obj : gmap string V)
  : outcome (list V) :=
  match keys with
  | [] => Ok []
  | k :: ks =>
      match obj !! k with
      | None => Thrown (TypeErrorUndefined k)
      | Some v => vs ← props ks obj; Ok (v :: vs)
      end
  end.

(** [R.uniqBy(fn, list)]: keeps the first element for every value of [fn]. *)
Fixpoint uniqBy_go {A} (fn : A → string) (seen : list string) (l : list A)
  : list A :=
  match l with
  | [] => []
  | x :: l' =>
      if decide (fn x ∈ seen) then uniqBy_go fn seen l'
      else x :: uniqBy_go fn (fn x :: seen) l'
  end.

Definition uniqBy {A} (fn : A → string) (l : list A) : list A :=
  uniqBy_go fn [] l.

(** ** Tree Builder *)

(** [getNonCircularDependencies] *)
Definition getNonCircularDependencies
    (parentId : string) (dependencyIds : list string) (keypath : list string)
  : list string :=
  let relations := aperture2 keypath in
  filter (λ depId, (parentId, depId) ∉ relations) dependencyIds.

(** The object literal of lines 55 to 67. *)
Definition treeNodeOf (pkg : LinkedPackage) (keypath : list string)
    (keypathId : string) (children : list string) : DependencyTree :=
  {| dt_id := lp_id pkg;
     dt_name := name (lp_pkg pkg);
     dt_version := version (lp_pkg pkg);
     dt_peerDependencies := default [] (peerDependencies (lp_pkg pkg));
     dt_hasBundledDependencies :=
       bool_decide (is_Some (bundledDependencies (lp_pkg pkg)))
       || bool_decide (is_Some (bundleDependencies (lp_pkg pkg)));
     dt_fetchingFiles := lp_fetchingFiles pkg;
     dt_localLocation := lp_localLocation pkg;
     dt_path := lp_path pkg;
     dt_keypathId := keypathId;
     dt_children := children;
     dt_depth := length keypath |}.

(** The callback of [.map] in [createTree], for one package, given the
    recursive call [rec]. *)
Definition createTreeNode
    (rec : list string → list string → gmap string DependencyTree →
           outcome (list string * gmap string DependencyTree))
    (keypath : list string) (pkg : LinkedPackage)
    (treeMap : gmap string DependencyTree)
  : outcome (string * gmap string DependencyTree) :=
  let nonCircularDeps :=
    getNonCircularDependencies (lp_id pkg) (lp_dependencies pkg) keypath in
  let newKeypath := keypath ++ [lp_id pkg] in
  let keypathId := String.concat "/" newKeypath in
  '(children, treeMap1) ← rec nonCircularDeps newKeypath treeMap;
  Ok (keypathId,
      <[keypathId := treeNodeOf pkg keypath keypathId children]> treeMap1).

(** [R.props(pkgIds, pkgsMap).map(...)]: the packages are visited in order,
    each visit mutating [treeMap]. *)
Fixpoint createTreeList
    (rec : list string → list string → gmap string DependencyTree →
           outcome (list string * gmap string DependencyTree))
    (pkgsMap : gmap string LinkedPackage)
    (pkgIds : list string) (keypath : list string)
    (treeMap : gmap string DependencyTree)
  : outcome (list string * gmap string DependencyTree) :=
  match pkgIds with
  | [] => Ok ([], treeMap)
  | pkgId :: rest =>
      match pkgsMap !! pkgId with
      | None => Thrown (TypeErrorUndefined pkgId)
      | Some pkg =>
          '(keypathId, treeMap1) ← createTreeNode rec keypath pkg treeMap;
          '(ids, treeMap2) ← createTreeList rec pkgsMap rest keypath treeMap1;
          Ok (keypathId :: ids, treeMap2)
      end
  end.

(** [createTree]; [fuel] bounds the depth of the recursion. *)
Fixpoint createTree (fuel : nat)
    (pkgsMap : gmap string LinkedPackage)
    (pkgIds : list string) (keypath : list string)
    (treeMap : gmap string DependencyTree)
  : outcome (list string * gmap string DependencyTree) :=
  match fuel with
  | 0 => OutOfFuel
  | S fuel' =>
      createTreeList (createTree fuel' pkgsMap) pkgsMap pkgIds keypath treeMap
  end.

(** ** Peer Resolver and Layout Assignor *)

(** Lines written through [pnpm-logger]. *)
Inductive log_line :=
  | WarnNoPeer (pkgId peerName peerVersionRange : string)
  | WarnVersionMismatch (pkgId peerName peerVersionRange installed : string)
  | InfoRelinking (hardlinkedLocation : string).

(** The text of a log line, as the template literals build it. *)
Definition message (l : log_line) : string :=
  match l with
  | WarnNoPeer pkgId peerName range =>
      pkgId +:+ " requires a peer of " +:+ peerName +:+ "@" +:+ range
        +:+ " but none was installed."
  | WarnVersionMismatch pkgId peerName range installed =>
      pkgId +:+ " requires a peer of " +:+ peerName +:+ "@" +:+ range
        +:+ " but version " +:+ installed +:+ " was installed."
  | InfoRelinking loc => "Relinking " +:+ loc +:+ " from the store"
  end.

Definition is_version_mismatch (l : log_line) : bool :=
  match l with WarnVersionMismatch _ _ _ _ => true | _ => false end.

Definition is_no_peer (l : log_line) : bool :=
  match l with WarnNoPeer _ _ _ => true | _ => false end.

(** [Object.assign({}, ...sources)]: later sources override earlier ones. *)
Definition Object_assign {V} (sources : list (gmap string V)) : gmap string V :=
  foldl (λ target source, source ∪ target) ∅ sources.

(** [toPkgByName] *)
Definition toPkgByName (pkgs : list DependencyTree) : gmap string DependencyTree :=
  let toNameAndPkg := map (λ pkg : DependencyTree, (dt_name pkg, pkg)) in
  fromPairs (toNameAndPkg pkgs).

(** [.filter(Boolean)] on an array of strings and [null]s. *)
Definition filterBoolean (l : list (option string)) : list string :=
  omap (λ x, match x with
             | Some s => if truthy s then Some s else None
             | None => None
             end) l.

(** The token of one peer in [createPeersFolderName]. *)
Definition peerToken (peer : DependencyTree) : string :=
  replace_first "/" "!" (dt_name peer) +:+ "@" +:+ dt_version peer.

(** [createPeersFolderName]. [Array.prototype.sort] without a comparator
    orders strings by their character codes; the order being total and
    antisymmetric, the sorted array does not depend on the algorithm. *)
Definition createPeersFolderName (peers : list DependencyTree) : string :=
  String.concat "+" (merge_sort String.le (map peerToken peers)).

Section Resolver.

(** [semver.satisfies(version, range)]; the version is [None] where the code
    passes [undefined]. *)
Variable satisfies : option string → string → bool.
(** [path.join(...segments)] *)
Variable path_join : list string → string.

(** The version warning of [resolvePeers], for the [version] property read
    from what the scope yields. *)
Definition versionWarning (pkgId peerName peerVersionRange : string)
    (version : option string) : list log_line :=
  if satisfies version peerVersionRange then []
  else [WarnVersionMismatch pkgId peerName peerVersionRange (render version)].

(** The callback of [.map] in [resolvePeers]: the value it returns and the
    warnings it logs. A member inherited by the scope is truthy, so it
    passes the test [!resolved]; its [version] and its [keypathId] are
    [undefined]. *)
Definition resolvePeer (pkgId : string)
    (parentPkgs : gmap string DependencyTree) (peer : string * string)
  : option string * list log_line :=
  let '(peerName, peerVersionRange) := peer in
  match js_get parentPkgs peerName with
  | Undefined => (None, [WarnNoPeer pkgId peerName peerVersionRange])
  | Own resolved =>
      (Some (dt_keypathId resolved),
       versionWarning pkgId peerName peerVersionRange
         (Some (dt_version resolved)))
  | Inherited =>
      (None, versionWarning pkgId peerName peerVersionRange None)
  end.

(** [resolvePeers]: the resolved keypath ids and the warnings logged. *)
Definition resolvePeers (peerDependencies : Dependencies) (pkgId : string)
    (parentPkgs : gmap string DependencyTree)
  : list string * list log_line :=
  let results := map (resolvePeer pkgId parentPkgs) peerDependencies in
  (filterBoolean (map fst results), concat (map snd results)).

(** The scope [newParentPkgs] of [resolvePeersOfNode]. *)
Definition newParentPkgs (parentPkgs : gmap string DependencyTree)
    (pkgNode : DependencyTree) (children : list DependencyTree)
  : gmap string DependencyTree :=
  Object_assign [parentPkgs; {[dt_name pkgNode := pkgNode]};
                 toPkgByName children].

(** Lines 95 to 100: the layout of a node. *)
Definition modulesOf (pkgNode : DependencyTree) : string :=
  path_join [dt_localLocation pkgNode; "node_modules"].

Definition peerModulesOf (pkgNode : DependencyTree)
    (resolvedPeers : list string) (treeMap : gmap string DependencyTree)
  : outcome (option string) :=
  match dt_peerDependencies pkgNode with
  | [] => Ok None
  | _ :: _ =>
      peers ← props resolvedPeers treeMap;
      Ok (Some (path_join [dt_localLocation pkgNode;
                           createPeersFolderName peers;
                           "node_modules"]))
  end.

Definition hardlinkedLocationOf (pkgNode : DependencyTree)
    (peerModules : option string) (modules : string) : string :=
  path_join [or_else peerModules modules; dt_name pkgNode].

(** The object literal of lines 102 to 114. *)
Definition resolvedNode (pkgNode : DependencyTree) (modules : string)
    (peerModules : option string) (hardlinkedLocation : string)
    (resolvedPeers : list string) : ResolvedDependencyTree :=
  {| rt_name := dt_name pkgNode;
     rt_hasBundledDependencies := dt_hasBundledDependencies pkgNode;
     rt_path := dt_path pkgNode;
     rt_modules := modules;
     rt_peerModules := peerModules;
     rt_fetchingFiles := dt_fetchingFiles pkgNode;
     rt_hardlinkedLocation := hardlinkedLocation;
     rt_children := dt_children pkgNode;
     rt_resolvedPeers := resolvedPeers;
     rt_depth := dt_depth pkgNode;
     rt_id := dt_id pkgNode |}.

(** [pkgNode.children.map(child => resolvePeersOfNode(child, ...))] *)
Fixpoint resolveChildren
    (rec : string → outcome (gmap string ResolvedDependencyTree * list log_line))
    (children : list string)
  : outcome (list (gmap string ResolvedDependencyTree) * list log_line) :=
  match children with
  | [] => Ok ([], [])
  | child :: rest =>
      '(m, log) ← rec child;
      '(ms, logs) ← resolveChildren rec rest;
      Ok (m :: ms, log ++ logs)
  end.

(** [resolvePeersOfNode]; [fuel] bounds the depth of the recursion. The
    result is the resolved map together with the lines logged. *)
Fixpoint resolvePeersOfNode (fuel : nat) (keypathId : string)
    (parentPkgs : gmap string DependencyTree)
    (treeMap : gmap string DependencyTree)
  : outcome (gmap string ResolvedDependencyTree * list log_line) :=
  match fuel with
  | 0 => OutOfFuel
  | S fuel' =>
      match treeMap !! keypathId with
      | None => Thrown (TypeErrorUndefined keypathId)
      | Some pkgNode =>
          childNodes ← props (dt_children pkgNode) treeMap;
          let newParentPkgs := newParentPkgs parentPkgs pkgNode childNodes in
          let resolved :=
            resolvePeers (dt_peerDependencies pkgNode) (dt_id pkgNode)
              newParentPkgs in
          let resolvedPeers := resolved.1 in
          let warnings := resolved.2 in
          let modules := modulesOf pkgNode in
          peerModules ← peerModulesOf pkgNode resolvedPeers treeMap;
          let hardlinkedLocation :=
            hardlinkedLocationOf pkgNode peerModules modules in
          '(results, logs) ←
            resolveChildren
              (λ child, resolvePeersOfNode fuel' child newParentPkgs treeMap)
              (dt_children pkgNode);
          Ok (foldl R_merge
                {[keypathId :=
                    resolvedNode pkgNode modules peerModules
                      hardlinkedLocation resolvedPeers]}
                results,
              warnings ++ logs)
      end
  end.

(** The default export of [resolvePeers.ts]. *)
Definition resolvePeers_default (fuel : nat)
    (pkgsMap : gmap string LinkedPackage) (topPkgIds : list string)
  : outcome (gmap string ResolvedDependencyTree * list log_line) :=
  '(rootNodeIds, treeMap) ← createTree fuel pkgsMap topPkgIds [] ∅;
  rootNodes ← props rootNodeIds treeMap;
  let pkgsByName := toPkgByName rootNodes in
  '(results, logs) ←
    resolveChildren
      (λ rootNodeId, resolvePeersOfNode fuel rootNodeId pkgsByName treeMap)
      rootNodeIds;
  Ok (foldl R_merge ∅ results, logs).

End Resolver.

(** ** Filesystem Linker: the hardlink phase *)

(** What the linker does to the outside world, in order. *)
Inductive fs_event :=
  | Logged (l : log_line)
  | LinkDir (src dest : string).

Definition is_LinkDir (e : fs_event) : bool :=
  match e with LinkDir _ _ => true | Logged _ => false end.

Definition is_LinkDir_to (dest : string) (e : fs_event) : bool :=
  match e with
  | LinkDir _ d => bool_decide (d = dest)
  | Logged _ => false
  end.

(** The file system, as far as the hardlink phase uses it. *)
Class FileSystem (World : Type) := {
  (** [path-exists]: whether a path can be accessed. *)
  pathExists : World → string → bool;
  (** [(await fs.stat(file)).ino]; [None] when [fs.stat] rejects. *)
  stat_ino : World → string → option nat;
  (** [link-dir]: hardlinks the content of [src] into [dest]. *)
  linkDir : string → string → World → outcome World;
}.

(** The file system a task of a batch leaves to the tasks after it. A
    rejected request does not tell what it left behind: the tasks that
    follow are run on the file system the rejected task started from. *)
Definition worldAfter {World} (r : outcome World) (w : World) : World :=
  match r with
  | Ok w1 => w1
  | Thrown _ | OutOfFuel => w
  end.

(** The outcome of [Promise.all] over a task settled as [r] and the tasks
    after it, settled as [rest]: the first rejection. *)
Definition firstRejection {A} (r rest : outcome A) : outcome A :=
  match r with
  | Ok _ => rest
  | Thrown e => Thrown e
  | OutOfFuel => OutOfFuel
  end.

Section Linker.

(** [path.join(...segments)] *)
Variable path_join : list string → string.
(** The state of the file system. *)
Context {World : Type} `{!FileSystem World}.

(** [isSameFile] *)
Definition isSameFile (w : World) (file1 file2 : string) : outcome bool :=
  match stat_ino w file1, stat_ino w file2 with
  | Some ino1, Some ino2 => Ok (bool_decide (ino1 = ino2))
  | None, _ => Thrown (ENOENT file1)
  | Some _, None => Thrown (ENOENT file2)
  end.

(** [pkgLinkedToStore]: its result and what it logs. *)
Definition pkgLinkedToStore (w : World) (pkgJsonPath : string)
    (dependency : ResolvedDependencyTree) : outcome bool * list fs_event :=
  let pkgJsonPathInStore := path_join [rt_path dependency; "package.json"] in
  match isSameFile w pkgJsonPath pkgJsonPathInStore with
  | Ok true => (Ok true, [])
  | Ok false =>
      (Ok false, [Logged (InfoRelinking (rt_hardlinkedLocation dependency))])
  | Thrown e => (Thrown e, [])
  | OutOfFuel => (OutOfFuel, [])
  end.

(** The condition of the [if] in [linkPkg], evaluated left to right with
    short-circuiting. *)
Definition needsLinking (w : World) (newlyFetched force : bool)
    (pkgJsonPath : string) (dependency : ResolvedDependencyTree)
  : outcome bool * list fs_event :=
  if newlyFetched then (Ok true, [])
  else if force then (Ok true, [])
  else if negb (pathExists w pkgJsonPath) then (Ok true, [])
  else
    match pkgLinkedToStore w pkgJsonPath dependency with
    | (Ok linked, tr) => (Ok (negb linked), tr)
    | (Thrown e, tr) => (Thrown e, tr)
    | (OutOfFuel, tr) => (OutOfFuel, tr)
    end.

(** [linkPkg]: the resulting file system and the trace of what was done. *)
Definition linkPkg (dependency : ResolvedDependencyTree) (force : bool)
    (w : World) : outcome World * list fs_event :=
  match rt_fetchingFiles dependency with
  | Rejected => (Thrown PromiseRejected, [])
  | Resolved newlyFetched =>
      let pkgJsonPath :=
        path_join [rt_hardlinkedLocation dependency; "package.json"] in
      match needsLinking w newlyFetched force pkgJsonPath dependency with
      | (Ok true, tr) =>
          (linkDir (rt_path dependency) (rt_hardlinkedLocation dependency) w,
           tr ++ [LinkDir (rt_path dependency)
                    (rt_hardlinkedLocation dependency)])
      | (Ok false, tr) => (Ok w, tr)
      | (Thrown e, tr) => (Thrown e, tr)
      | (OutOfFuel, tr) => (OutOfFuel, tr)
      end
  end.

(** [linkAllPkgs]: [Promise.all] over one [linkPkg] per element of
    [alldeps], started in the order of the array. Every call is made, also
    after another one was rejected. *)
Fixpoint linkAllPkgs (alldeps : list ResolvedDependencyTree) (force : bool)
    (w : World) : outcome World * list fs_event :=
  match alldeps with
  | [] => (Ok w, [])
  | pkg :: rest =>
      let here := linkPkg pkg force w in
      let there := linkAllPkgs rest force (worldAfter here.1 w) in
      (firstRejection here.1 there.1, here.2 ++ there.2)
  end.

(** Lines 53 to 55 of the default export of [index.ts]: the nodes are
    deduplicated by [hardlinkedLocation] and then linked.
    [flatResolvedDeps] is [R.values(pkgsToLink)] sorted by depth. *)
Definition hardlinkPhase (flatResolvedDeps : list ResolvedDependencyTree)
    (force : bool) (w : World) : outcome World * list fs_event :=
  let deps := uniqBy rt_hardlinkedLocation flatResolvedDeps in
  linkAllPkgs deps force w.

End Linker.

(** ** Uninstall *)

(** What [uninstallInContext] asks of its collaborators, in order. *)
Inductive uninstall_event :=
  | RemoveDeps (pkgJsonPath : string) (pkgs : list string) (saveType : string)
  | DeleteShrinkwrapDependency (depSpecRaw : string)
  | PruneShrinkwrap
  | RemoveOrphanPkgs (root storePath : string)
  | SaveShrinkwrap (root : string).

(** [isDependentOn]: [pkg[deptype] && pkg[deptype][depName]] is truthy for one
    of the three dependency types. A member the dependencies object inherits
    is truthy. *)
Definition hasDependency (deps : option Dependencies) (depName : string) : bool :=
  match deps with
  | None => false
  | Some d =>
      match js_get (fromPairs d) depName with
      | Own range => truthy range
      | Inherited => true
      | Undefined => false
      end
  end.

Definition isDependentOn (pkg : Package) (depName : string) : bool :=
  existsb (λ deptype, hasDependency (deptype pkg) depName)
    [dependencies; devDependencies; optionalDependencies].

(** [PnpmContext] *)
Record PnpmContext (Shrinkwrap : Type) := {
  ctx_root : string;
  ctx_storePath : string;
  ctx_shrinkwrap : Shrinkwrap;
  ctx_privateShrinkwrap : Shrinkwrap;
}.
Arguments ctx_root {Shrinkwrap} _.
Arguments ctx_storePath {Shrinkwrap} _.
Arguments ctx_shrinkwrap {Shrinkwrap} _.
Arguments ctx_privateShrinkwrap {Shrinkwrap} _.

(** The state [uninstallInContext] can change: the outside world, the
    shrinkwrap object held by the context (mutated in place), and the
    trace of the requests made so far. *)
Record uninstall_state (Shrinkwrap World : Type) := {
  us_world : World;
  us_shrinkwrap : Shrinkwrap;
  us_trace : list uninstall_event;
}.
Arguments us_world {Shrinkwrap World} _.
Arguments us_shrinkwrap {Shrinkwrap World} _.
Arguments us_trace {Shrinkwrap World} _.

(** The modules [uninstallInContext] calls, over the options
    ([StrictPnpmOptions]), the shrinkwrap file and the outside world. *)
Class Collaborators (Opts Shrinkwrap World : Type) := {
  (** [shrinkwrap.dependencies], in key enumeration order, and its update. *)
  shr_dependencies : Shrinkwrap → list (string * string);
  shr_set_dependencies : list (string * string) → Shrinkwrap → Shrinkwrap;
  (** [getSaveType(opts)]: a dependency type or [undefined]. *)
  getSaveType : Opts → option string;
  (** [removeDeps(pkgJsonPath, pkgsToUninstall, saveType)] *)
  removeDeps : string → list string → string → World → outcome Package * World;
  (** [npa(depSpecRaw).name] *)
  npa_name : string → outcome string;
  (** [pruneShrinkwrap(shrinkwrap)] *)
  pruneShrinkwrap : Shrinkwrap → World → outcome Shrinkwrap * World;
  (** [removeOrphanPkgs(privateShrinkwrap, newShr, root, storePath)] *)
  removeOrphanPkgs :
    Shrinkwrap → Shrinkwrap → string → string → World → outcome unit * World;
  (** [saveShrinkwrap(root, newShr)] *)
  saveShrinkwrap : string → Shrinkwrap → World → outcome unit * World;
}.

Section Uninstall.

(** [path.join(...segments)] *)
Variable path_join : list string → string.
Context {Opts Shrinkwrap World : Type} `{!Collaborators Opts Shrinkwrap World}.

(** Computations over that state that may throw; the state reached is kept
    when they do. *)
Definition U (A : Type) : Type :=
  uninstall_state Shrinkwrap World →
  outcome A * uninstall_state Shrinkwrap World.

Definition uret {A} (a : A) : U A := λ st, (Ok a, st).

Definition ubind {A B} (m : U A) (k : A → U B) : U B := λ st,
  match m st with
  | (Ok a, st') => k a st'
  | (Thrown e, st') => (Thrown e, st')
  | (OutOfFuel, st') => (OutOfFuel, st')
  end.

Notation "x <~ m ; k" := (ubind m (λ x, k))
  (at level 20, m at level 100, k at level 200, only parsing).

(** An external operation on the world, recorded in the trace. *)
Definition request {A} (ev : uninstall_event)
    (op : World → outcome A * World) : U A := λ st,
  let '(r, w) := op (us_world st) in
  (r, {| us_world := w; us_shrinkwrap := us_shrinkwrap st;
         us_trace := us_trace st ++ [ev] |}).

(** [delete ctx.shrinkwrap.dependencies[depSpecRaw]] *)
Definition deleteDependency (depSpecRaw : string) : U unit := λ st,
  let shr := us_shrinkwrap st in
  (Ok (),
   {| us_world := us_world st;
      us_shrinkwrap :=
        shr_set_dependencies
          (filter (λ kv, kv.1 ≠ depSpecRaw) (shr_dependencies shr)) shr;
      us_trace := us_trace st ++ [DeleteShrinkwrapDependency depSpecRaw] |}).

Definition liftOutcome {A} (o : outcome A) : U A := λ st, (o, st).

Definition getShrinkwrap : U Shrinkwrap := λ st, (Ok (us_shrinkwrap st), st).

(** Truthiness of [saveType]. *)
Definition truthySaveType (saveType : option string) : option string :=
  match saveType with
  | Some s => if truthy s then Some s else None
  | None => None
  end.

(** The [for ... in] loop over the keys of [ctx.shrinkwrap.dependencies]. *)
Fixpoint pruneLoop (pkg : Package) (keys : list string) : U unit :=
  match keys with
  | [] => uret ()
  | depSpecRaw :: rest =>
      depName <~ liftOutcome (npa_name depSpecRaw);
      _ <~ (if isDependentOn pkg depName then uret ()
               else deleteDependency depSpecRaw);
      pruneLoop pkg rest
  end.

(** [uninstallInContext] *)
Definition uninstallInContext (pkgsToUninstall : list string) (pkg : Package)
    (ctx : PnpmContext Shrinkwrap) (opts : Opts) : U unit :=
  let saveType := getSaveType opts in
  match truthySaveType saveType with
  | Some saveType =>
      let pkgJsonPath := path_join [ctx_root ctx; "package.json"] in
      pkg <~ request (RemoveDeps pkgJsonPath pkgsToUninstall saveType)
                  (removeDeps pkgJsonPath pkgsToUninstall saveType);
      shr <~ getShrinkwrap;
      _ <~ pruneLoop pkg (map fst (shr_dependencies shr));
      shr <~ getShrinkwrap;
      newShr <~ request PruneShrinkwrap (pruneShrinkwrap shr);
      _ <~ request (RemoveOrphanPkgs (ctx_root ctx) (ctx_storePath ctx))
                (removeOrphanPkgs (ctx_privateShrinkwrap ctx) newShr
                   (ctx_root ctx) (ctx_storePath ctx));
      request (SaveShrinkwrap (ctx_root ctx))
        (saveShrinkwrap (ctx_root ctx) newShr)
  | None => uret ()
  end.

(** The state in which [uninstallInContext] starts for a context. *)
Definition initial_state (ctx : PnpmContext Shrinkwrap) (w : World)
  : uninstall_state Shrinkwrap World :=
  {| us_world := w; us_shrinkwrap := ctx_shrinkwrap ctx; us_trace := [] |}.

End Uninstall.

(** ** Filesystem Linker: the default export of [index.ts] and the symlink
       phases *)

(** [InstalledPackage] of [../install/installMultiple], as far as
    [index.ts] reads it. *)
Record InstalledPackage := {
  ip_id : string;
  ip_pkg : Package;
  ip_path : string;
  ip_fetchingFiles : Promise bool;
  ip_dependencies : list string;
  ip_isInstallable : bool;
}.

(** What the linker asks of the outside world, in order: the events of the
    hardlink phase and the lines logged, the symlinks, the bin links. *)
Inductive link_event :=
  | Fs (e : fs_event)
  | SymlinkDir (src dest : string)
  | LinkBins (modules binPath : string) (exceptPkgName : option string).

Definition is_SymlinkDir (e : link_event) : bool :=
  match e with SymlinkDir _ _ => true | _ => false end.

(** The modules the symlink phases call. *)
Class LinkTools (World : Type) := {
  (** [symlink-dir]: makes [dest] a symlink to the directory [src]. *)
  symlinkDir : string → string → World → outcome World;
  (** [linkBins(modules, binPath, exceptPkgName?)] *)
  linkBins : string → string → option string → World → outcome World;
  (** [globalBinPath()] *)
  globalBinPath : World → string;
}.

(** The comparator [(a, b) => a.depth - b.depth] of line 51 as an order. *)
Definition depth_le (a b : ResolvedDependencyTree) : Prop :=
  rt_depth a ≤ rt_depth b.

Global Instance depth_le_dec a b : Decision (depth_le a b) :=
  decide (rt_depth a ≤ rt_depth b).

(** [array.sort((a, b) => a.depth - b.depth)] *)
Definition sortByDepth (l : list ResolvedDependencyTree)
  : list ResolvedDependencyTree :=
  merge_sort depth_le l.

Section Link.

(** [semver.satisfies(version, range)]; the version is [None] where the code
    passes [undefined]. *)
Variable satisfies : option string → string → bool.
(** [path.join(...segments)] *)
Variable path_join : list string → string.
(** [R.values(obj)]: the values of an object in the enumeration order of its
    keys. *)
Variable R_values : ∀ V, gmap string V → list V.
(** The state of the file system. *)
Context {World : Type} `{!FileSystem World} `{!LinkTools World}.

(** The object literal of lines 40 to 47. *)
Definition toLinkedPackage (baseNodeModules : string)
    (installedPkg : InstalledPackage) : LinkedPackage :=
  {| lp_id := ip_id installedPkg;
     lp_pkg := ip_pkg installedPkg;
     lp_localLocation :=
       path_join [baseNodeModules; "." +:+ ip_id installedPkg];
     lp_path := ip_path installedPkg;
     lp_fetchingFiles := ip_fetchingFiles installedPkg;
     lp_dependencies := ip_dependencies installedPkg |}.

(** The [.reduce] of lines 38 to 49: the package map handed to the
    resolver. *)
Definition pkgsToLinkOf (baseNodeModules : string)
    (installed : list InstalledPackage) : gmap string LinkedPackage :=
  foldl (λ pkgsToLink installedPkg,
           <[ip_id installedPkg :=
               toLinkedPackage baseNodeModules installedPkg]> pkgsToLink)
    ∅ installed.

(** [topPkgs.filter(pkg => pkg.isInstallable).map(pkg => pkg.id)] *)
Definition topPkgIdsOf (topPkgs : list InstalledPackage) : list string :=
  map ip_id (filter (λ pkg, ip_isInstallable pkg) topPkgs).

(** A sequence of requests to the outside world: the file system it leaves
    and the trace of what was asked. *)
Definition step : Type := World → outcome World * list link_event.

Definition skip : step := λ w, (Ok w, []).

(** [await m; k]: a rejection of [m] leaves [k] undone. *)
Definition andThen (m k : step) : step := λ w,
  match m w with
  | (Ok w1, tr) => let '(r, tr') := k w1 in (r, tr ++ tr')
  | (Thrown e, tr) => (Thrown e, tr)
  | (OutOfFuel, tr) => (OutOfFuel, tr)
  end.

(** [for (x of xs) await f(x)]: one request after the other; a rejection
    leaves the rest undone. *)
Fixpoint forEach {A} (f : A → step) (l : list A) : step :=
  match l with
  | [] => skip
  | x :: l' => andThen (f x) (forEach f l')
  end.

(** [Promise.all(xs.map(x => f(x)))] for an asynchronous [f]: every task is
    run, in the order of the array, also after another one was rejected. *)
Fixpoint allOf {A} (f : A → step) (l : list A) : step := λ w,
  match l with
  | [] => (Ok w, [])
  | x :: l' =>
      let here := f x w in
      let there := allOf f l' (worldAfter here.1 w) in
      (firstRejection here.1 there.1, here.2 ++ there.2)
  end.

(** [R.props(keys, pkgMap).map(f)] where [f] reads a property of its
    argument, may throw, and otherwise starts a request: the requests started
    before the first throw, and the error thrown, if any. [R.props] yields
    [undefined] for a missing key, on which [f] throws. *)
Fixpoint mapProps (f : ResolvedDependencyTree → error + step)
    (keys : list string) (pkgMap : gmap string ResolvedDependencyTree)
  : list step * option error :=
  match keys with
  | [] => ([], None)
  | k :: ks =>
      match pkgMap !! k with
      | None => ([], Some (TypeErrorUndefined k))
      | Some v =>
          match f v with
          | inl e => ([], Some e)
          | inr request =>
              let rest := mapProps f ks pkgMap in (request :: rest.1, rest.2)
          end
      end
  end.

(** [await Promise.all(R.props(keys, pkgMap).map(f))] inside an [async]
    function: a throw of [f] rejects the function at once, the requests
    started before it are still served; without a throw the outcome is that
    of [Promise.all]. *)
Definition allProps (f : ResolvedDependencyTree → error + step)
    (keys : list string) (pkgMap : gmap string ResolvedDependencyTree) : step :=
  λ w,
  let started := mapProps f keys pkgMap in
  let served := allOf id started.1 w in
  (match started.2 with
   | Some e => Thrown e
   | None => served.1
   end, served.2).

(** [symlinkDependencyTo] *)
Definition symlinkDependencyTo (dependency : ResolvedDependencyTree)
    (dest : string) : step := λ w,
  let dest := path_join [dest; rt_name dependency] in
  (symlinkDir (rt_hardlinkedLocation dependency) dest w,
   [SymlinkDir (rt_hardlinkedLocation dependency) dest]).

(** [linkIndependentModules] *)
Definition linkIndependentModules (pkg : ResolvedDependencyTree)
    (pkgMap : gmap string ResolvedDependencyTree) : step :=
  allProps (λ child, inr (symlinkDependencyTo child (rt_modules pkg)))
    (rt_children pkg) pkgMap.

(** [linkAllIndependentModules] *)
Definition linkAllIndependentModules (pkgs : list ResolvedDependencyTree)
    (pkgMap : gmap string ResolvedDependencyTree) : step :=
  allOf (λ pkg, linkIndependentModules pkg pkgMap) pkgs.

(** [symlinkDependencyTo(peer, <string>dependency.peerModules)]: with
    [peerModules] undefined, [path.join] throws a [TypeError]. *)
Definition symlinkPeer (dependency peer : ResolvedDependencyTree)
  : error + step :=
  match rt_peerModules dependency with
  | Some peerModules => inr (symlinkDependencyTo peer peerModules)
  | None => inl (TypeErrorUndefined "peerModules")
  end.

(** A call of [linkBins]. *)
Definition linkBinsOf (modules binPath : string)
    (exceptPkgName : option string) : step := λ w,
  (linkBins modules binPath exceptPkgName w,
   [LinkBins modules binPath exceptPkgName]).

(** [linkModules] *)
Definition linkModules (dependency : ResolvedDependencyTree)
    (pkgMap : gmap string ResolvedDependencyTree) : step :=
  andThen
    (allProps (symlinkPeer dependency) (rt_resolvedPeers dependency) pkgMap)
    (let binPath :=
       path_join [rt_hardlinkedLocation dependency; "node_modules"; ".bin"] in
     andThen
       (linkBinsOf (rt_modules dependency) binPath (Some (rt_name dependency)))
       (andThen
          (match rt_peerModules dependency with
           | Some peerModules =>
               if truthy peerModules
               then linkBinsOf peerModules binPath (Some (rt_name dependency))
               else skip
           | None => skip
           end)
          (if rt_hasBundledDependencies dependency
           then
             let bundledModules :=
               path_join [rt_hardlinkedLocation dependency; "node_modules"] in
             linkBinsOf bundledModules binPath None
           else skip))).

(** [linkAllModules] *)
Definition linkAllModules (pkgs : list ResolvedDependencyTree)
    (pkgMap : gmap string ResolvedDependencyTree) : step :=
  allOf (λ pkg, linkModules pkg pkgMap) pkgs.

(** The hardlink phase as a step. *)
Definition linkAllPkgsStep (alldeps : list ResolvedDependencyTree)
    (force : bool) : step := λ w,
  let '(r, tr) := linkAllPkgs path_join alldeps force w in (r, Fs <$> tr).

(** Lines 51 to 67 of the default export: everything done once the peers
    are resolved. *)
Definition linkResolved (pkgsToLink : gmap string ResolvedDependencyTree)
    (force global : bool) (baseNodeModules : string) : step :=
  let flatResolvedDeps := sortByDepth (R_values _ pkgsToLink) in
  let deps := uniqBy rt_hardlinkedLocation flatResolvedDeps in
  andThen (linkAllPkgsStep deps force)
    (let depsByModules := uniqBy rt_modules flatResolvedDeps in
     andThen (linkAllIndependentModules depsByModules pkgsToLink)
       (andThen (linkAllModules deps pkgsToLink)
          (andThen
             (forEach (λ pkg, symlinkDependencyTo pkg baseNodeModules)
                (filter (λ pkg, rt_depth pkg = 0) flatResolvedDeps))
             (λ w,
                let binPath :=
                  if global then globalBinPath w
                  else path_join [baseNodeModules; ".bin"] in
                linkBinsOf baseNodeModules binPath None w)))).

(** The default export of [index.ts]: the resolved map it returns, the file
    system it leaves, and the trace of what it asked. The lines the
    resolver logged come first. *)
Definition link (fuel : nat) (topPkgs : list InstalledPackage)
    (installedPkgs : gmap string InstalledPackage)
    (force global : bool) (baseNodeModules : string) (w : World)
  : outcome (gmap string ResolvedDependencyTree * World) * list link_event :=
  let pkgsMap := pkgsToLinkOf baseNodeModules (R_values _ installedPkgs) in
  match resolvePeers_default satisfies path_join fuel pkgsMap
          (topPkgIdsOf topPkgs) with
  | Ok (pkgsToLink, log) =>
      let '(r, tr) :=
        linkResolved pkgsToLink force global baseNodeModules w in
      (w' ← r; Ok (pkgsToLink, w'), (Fs ∘ Logged <$> log) ++ tr)
  | Thrown e => (Thrown e, [])
  | OutOfFuel => (OutOfFuel, [])
  end.

End Link.

(** ** Vocabulary of the properties *)

(** The spec's wording of the substitution in a peer token: every occurrence
    of the character is replaced. To be compared with [replace_first]. *)
Fixpoint replace_all (c d : ascii) (s : string) : string :=
  match s with
  | EmptyString => EmptyString
  | String a s' =>
      String (if Ascii.eqb a c then d else a) (replace_all c d s')
  end.

Fixpoint occurrences (c : ascii) (s : string) : nat :=
  match s with
  | EmptyString => 0
  | String a s' => (if Ascii.eqb a c then 1 else 0) + occurrences c s'
  end.

(** The warnings about one peer name. *)
Definition mismatch_about (peerName : string) (l : log_line) : bool :=
  match l with
  | WarnVersionMismatch _ p _ _ => bool_decide (p = peerName)
  | _ => false
  end.

Definition no_peer_about (peerName : string) (l : log_line) : bool :=
  match l with
  | WarnNoPeer _ p _ => bool_decide (p = peerName)
  | _ => false
  end.

(** The declared peers named [peerName] for which the scope yields
    something whose version is outside their range, and those for which it
    yields nothing. *)
Definition declared_mismatch (satisfies : option string → string → bool)
    (parentPkgs : gmap string DependencyTree) (peerName : string)
    (peer : string * string) : bool :=
  bool_decide (peer.1 = peerName) &&
  match js_get parentPkgs peer.1 with
  | Own node => negb (satisfies (Some (dt_version node)) peer.2)
  | Inherited => negb (satisfies None peer.2)
  | Undefined => false
  end.

Definition declared_absent (parentPkgs : gmap string DependencyTree)
    (peerName : string) (peer : string * string) : bool :=
  bool_decide (peer.1 = peerName) &&
  match js_get parentPkgs peer.1 with
  | Undefined => true
  | _ => false
  end.

(** Every node of the scope has a non-empty keypath id, as every node the
    Tree Builder creates from non-empty package ids has. *)
Definition scope_ids_nonempty (parentPkgs : gmap string DependencyTree) : Prop :=
  ∀ n node, parentPkgs !! n = Some node → dt_keypathId node ≠ "".

(** The two documented properties of [path.join] that the layout relies on. *)
Definition never_empty (path_join : list string → string) : Prop :=
  ∀ segments, path_join segments ≠ "".

Definition ignores_empty_segments (path_join : list string → string) : Prop :=
  ∀ segments, path_join segments = path_join (filter (λ s, s ≠ "") segments).

(** What the Layout Assignor computes for the node stored under [k]: the
    entry [r] was built from that node by lines 95 to 114. *)
Definition entry_built_from (path_join : list string → string)
    (treeMap : gmap string DependencyTree) (k : string)
    (r : ResolvedDependencyTree) : Prop :=
  ∃ pkgNode,
    treeMap !! k = Some pkgNode ∧
    peerModulesOf path_join pkgNode (rt_resolvedPeers r) treeMap
      = Ok (rt_peerModules r) ∧
    r = resolvedNode pkgNode (modulesOf path_join pkgNode) (rt_peerModules r)
          (hardlinkedLocationOf path_join pkgNode (rt_peerModules r)
             (modulesOf path_join pkgNode))
          (rt_resolvedPeers r).

(** The condition under which [linkPkg] links: the content is new, or
    [force] is set, or the target has no manifest, or the manifests of the
    target and of the store are not the same file. *)
Definition stale `{FileSystem World} (w : World)
    (newlyFetched force : bool) (target store : string) : Prop :=
  newlyFetched = true ∨ force = true ∨ pathExists w target = false ∨
  stat_ino w target ≠ stat_ino w store.

(** A package map as [src/link/index.ts] builds it: every package is stored
    under its own id. *)
Definition ids_are_keys (pkgsMap : gmap string LinkedPackage) : Prop :=
  ∀ k pkg, pkgsMap !! k = Some pkg → lp_id pkg = k.

(** No package depends on a package that is not in the map. *)
Definition dependencies_closed (pkgsMap : gmap string LinkedPackage) : Prop :=
  ∀ k pkg, pkgsMap !! k = Some pkg →
    Forall (λ depId, is_Some (pkgsMap !! depId)) (lp_dependencies pkg).

(** The dependency edges of a package map, and how many of them do not yet
    occur as adjacent pairs of a keypath. *)
Definition edges (pkgsMap : gmap string LinkedPackage) : gset (string * string) :=
  list_to_set
    (kp ← map_to_list pkgsMap;
     (λ depId, (lp_id kp.2, depId)) <$> lp_dependencies kp.2).

Definition uncut (pkgsMap : gmap string LinkedPackage) (keypath : list string)
  : nat :=
  size (edges pkgsMap ∖ list_to_set (aperture2 keypath)).


(** The tree of a direct cycle A→B→A: the root [A], [B] under it, and [A]
    once more under [B], without children. *)
Definition cycleTree (A B : string) (pa pb : LinkedPackage)
  : gmap string DependencyTree :=
  let keyA := String.concat "/" [A] in
  let keyAB := String.concat "/" [A; B] in
  let keyABA := String.concat "/" [A; B; A] in
  <[keyA := treeNodeOf pa [] keyA [keyAB]]>
    (<[keyAB := treeNodeOf pb [A] keyAB [keyABA]]>
       (<[keyABA := treeNodeOf pa [A; B] keyABA []]> ∅)).

(** No package lists the same dependency twice. *)
Definition no_repeated_dependency (pkgsMap : gmap string LinkedPackage) : Prop :=
  ∀ k pkg, pkgsMap !! k = Some pkg → NoDup (lp_dependencies pkg).

(** Joining with [/] is unambiguous on the ids of the map: two non-empty
    sequences of package ids with the same keypath id are the same. *)
Definition unambiguous_keypaths (pkgsMap : gmap string LinkedPackage) : Prop :=
  ∀ kp1 kp2 : list string,
    kp1 ≠ [] → kp2 ≠ [] →
    Forall (λ i, is_Some (pkgsMap !! i)) kp1 →
    Forall (λ i, is_Some (pkgsMap !! i)) kp2 →
    String.concat "/" kp1 = String.concat "/" kp2 → kp1 = kp2.

(** The tree node [createTree] writes for [pkg] below the ancestors
    [keypath]. *)
Definition nodeAt (keypath : list string) (pkg : LinkedPackage) : DependencyTree :=
  treeNodeOf pkg keypath (String.concat "/" (keypath ++ [lp_id pkg]))
    ((λ depId, String.concat "/" (keypath ++ [lp_id pkg; depId])) <$>
       getNonCircularDependencies (lp_id pkg) (lp_dependencies pkg) keypath).

(** The nodes [createTree] creates, each with its keypath, parents before
    children. *)
Fixpoint treeEntries (fuel : nat) (pkgsMap : gmap string LinkedPackage)
    (pkgIds : list string) (keypath : list string)
  : list (list string * DependencyTree) :=
  match fuel with
  | 0 => []
  | S fuel' =>
      pkgId ← pkgIds;
      match pkgsMap !! pkgId with
      | None => []
      | Some pkg =>
          (keypath ++ [lp_id pkg], nodeAt keypath pkg)
          :: treeEntries fuel' pkgsMap
               (getNonCircularDependencies (lp_id pkg) (lp_dependencies pkg)
                  keypath)
               (keypath ++ [lp_id pkg])
      end
  end.

(** [fuel] is enough to build the whole tree below [pkgIds], and no package
    is missing. *)
Fixpoint treeComplete (fuel : nat) (pkgsMap : gmap string LinkedPackage)
    (pkgIds : list string) (keypath : list string) : Prop :=
  match fuel with
  | 0 => False
  | S fuel' =>
      Forall (λ pkgId,
        ∃ pkg, pkgsMap !! pkgId = Some pkg ∧
               treeComplete fuel' pkgsMap
                 (getNonCircularDependencies (lp_id pkg) (lp_dependencies pkg)
                    keypath)
                 (keypath ++ [lp_id pkg])) pkgIds
  end.

(** The keypath ids for which [resolvePeersOfNode] builds an entry, in the
    order of the traversal: the node, then what each child visits. *)
Fixpoint visits (fuel : nat) (treeMap : gmap string DependencyTree)
    (keypathId : string) : list string :=
  match fuel with
  | 0 => []
  | S fuel' =>
      keypathId ::
      match treeMap !! keypathId with
      | Some pkgNode => child ← dt_children pkgNode; visits fuel' treeMap child
      | None => []
      end
  end.

(** What a forced [linkPkg] requests for a node: the hardlink of its store
    path into its target when its content was fetched, nothing when fetching
    failed. *)
Definition forcedLink (dependency : ResolvedDependencyTree) : list fs_event :=
  match rt_fetchingFiles dependency with
  | Resolved _ =>
      [LinkDir (rt_path dependency) (rt_hardlinkedLocation dependency)]
  | Rejected => []
  end.

(** Every node of the scope is a node of the tree, stored under its keypath
    id. *)
Definition scope_in (treeMap parentPkgs : gmap string DependencyTree) : Prop :=
  ∀ n node, parentPkgs !! n = Some node →
    treeMap !! dt_keypathId node = Some node.

(** The statement that the resolved map has the keys of the tree and that
    no keypath id is visited twice. *)
Definition resolved_map_complete (satisfies : option string → string → bool)
    (path_join : list string → string)
    (pkgsMap : gmap string LinkedPackage) (topPkgIds : list string) : Prop :=
  ∀ fuel rootNodeIds treeMap result log,
    createTree fuel pkgsMap topPkgIds [] ∅ = Ok (rootNodeIds, treeMap) →
    resolvePeers_default satisfies path_join fuel pkgsMap topPkgIds
      = Ok (result, log) →
    dom result = dom treeMap ∧
    NoDup (rootNodeId ← rootNodeIds; visits fuel treeMap rootNodeId).

(** ** Concrete inputs used in the examples *)

Definition manifest (n v : string) (peers : option Dependencies) : Package :=
  {| name := n; version := v; dependencies := None; devDependencies := None;
     optionalDependencies := None; peerDependencies := peers;
     bundledDependencies := None; bundleDependencies := None |}.

Definition linkedPackage (i : string) (peers : option Dependencies)
    (deps : list string) : LinkedPackage :=
  {| lp_id := i; lp_pkg := manifest i "1.0.0" peers;
     lp_localLocation := "node_modules/." +:+ i;
     lp_path := "store/" +:+ i;
     lp_fetchingFiles := Resolved false;
     lp_dependencies := deps |}.

Definition treeNode (key n v : string) (peers : Dependencies)
    (children : list string) (depth : nat) : DependencyTree :=
  {| dt_id := n; dt_name := n; dt_version := v; dt_peerDependencies := peers;
     dt_hasBundledDependencies := false; dt_fetchingFiles := Resolved false;
     dt_localLocation := "node_modules/." +:+ n; dt_path := "store/" +:+ n;
     dt_keypathId := key; dt_children := children; dt_depth := depth |}.

(** A join that has the two properties of [path.join] the proofs rely on:
    zero-length segments are ignored and the result is never empty. It joins
    the remaining segments with a slash, without normalising them. *)
Definition join_segments (segments : list string) : string :=
  match filter (λ s, s ≠ "") segments with
  | [] => "."
  | l => String.concat "/" l
  end.

(** Exact-match version ranges; an undefined version matches none. *)
Definition exact_version (v : option string) (range : string) : bool :=
  bool_decide (v = Some range).

(** The direct cycle A→B→A. *)
Definition cycleAB : gmap string LinkedPackage :=
  <["A" := linkedPackage "A" None ["B"]]>
    (<["B" := linkedPackage "B" None ["A"]]> ∅).

(** The peers of the shadow-folder example. *)
Definition peer_ab : DependencyTree := treeNode "r/ab" "a/b" "1.0.0" [] [] 1.
Definition peer_c : DependencyTree := treeNode "r/c" "c" "2.0.0" [] [] 1.

(** A scope holding [react] 15.0.0 at the root. *)
Definition scope_react : gmap string DependencyTree :=
  {[ "react" := treeNode "react@15" "react" "15.0.0" [] [] 0 ]}.

(** An application with [react] and a plugin that declares [react] and an
    uninstalled [redux] as peers, and a tool whose only peer is missing. *)
Definition fixturePkgs : gmap string LinkedPackage :=
  <["app" := linkedPackage "app" None ["react"; "plugin"; "tool"]]>
  (<["react" := linkedPackage "react" None []]>
  (<["plugin" := linkedPackage "plugin"
                   (Some [("react", "1.0.0"); ("redux", "3.0.0")]) []]>
  (<["tool" := linkedPackage "tool" (Some [("grunt", "1.0.0")]) []]> ∅))).

Definition fixtureTree : gmap string DependencyTree :=
  match createTree 5 fixturePkgs ["app"] [] ∅ with
  | Ok (_, treeMap) => treeMap
  | _ => ∅
  end.

Definition fixtureResolved : gmap string ResolvedDependencyTree * list log_line :=
  match resolvePeersOfNode exact_version join_segments 5 "app" ∅ fixtureTree with
  | Ok r => r
  | _ => (∅, [])
  end.

(** A file system reduced to the inode of every file, with a [link-dir] that
    gives the target manifest the inode of the store's manifest. *)
Definition inode_exists (w : gmap string nat) (file : string) : bool :=
  bool_decide (is_Some (w !! file)).

Definition inode_stat (w : gmap string nat) (file : string) : option nat :=
  w !! file.

Definition inode_linkDir (src dest : string) (w : gmap string nat)
  : outcome (gmap string nat) :=
  match w !! join_segments [src; "package.json"] with
  | Some ino => Ok (<[join_segments [dest; "package.json"] := ino]> w)
  | None => Thrown (ENOENT src)
  end.

Global Instance inode_fs : FileSystem (gmap string nat) :=
  {| pathExists := inode_exists; stat_ino := inode_stat;
     linkDir := inode_linkDir |}.

(** The store holds [react]; the project has it linked already. *)
Definition linked_world : gmap string nat :=
  {[ "store/react/package.json" := 7;
     "node_modules/.react/node_modules/react/package.json" := 7 ]}.

Definition resolved_react : ResolvedDependencyTree :=
  resolvedNode (treeNode "app/react" "react" "1.0.0" [] [] 1)
    "node_modules/.react/node_modules" None
    "node_modules/.react/node_modules/react" [].

(** Collaborators of [uninstallInContext] over a world that counts the
    requests it served. *)
Definition counting_removeDeps (pkgJsonPath : string) (pkgs : list string)
    (saveType : string) (w : nat) : outcome Package * nat :=
  (Ok (manifest "app" "1.0.0" None), S w).

Definition counting_prune (shr : list (string * string)) (w : nat)
  : outcome (list (string * string)) * nat := (Ok shr, S w).

Definition counting_removeOrphans (old new : list (string * string))
    (root storePath : string) (w : nat) : outcome unit * nat := (Ok (), S w).

Definition counting_save (root : string) (shr : list (string * string))
    (w : nat) : outcome unit * nat := (Ok (), S w).

Global Instance counting_collaborators
  : Collaborators (option string) (list (string * string)) nat :=
  {| shr_dependencies := id;
     shr_set_dependencies := λ deps _, deps;
     getSaveType := id;
     removeDeps := counting_removeDeps;
     npa_name := Ok;
     pruneShrinkwrap := counting_prune;
     removeOrphanPkgs := counting_removeOrphans;
     saveShrinkwrap := counting_save |}.

Definition sample_ctx : PnpmContext (list (string * string)) :=
  {| ctx_root := "project"; ctx_storePath := "store";
     ctx_shrinkwrap := [("react@1.0.0", "registry/react/1.0.0")];
     ctx_privateShrinkwrap := [("react@1.0.0", "registry/react/1.0.0")] |}.

(** Package ids whose keypath ids collide: [A/x/y] is both the package [x/y]
    under [A] and the package [y] under [x] under [A]. *)
Definition collidingPkgs : gmap string LinkedPackage :=
  <["A" := linkedPackage "A" None ["x/y"; "x"]]>
  (<["x/y" := linkedPackage "x/y" None ["c"]]>
  (<["x" := linkedPackage "x" None ["y"]]>
  (<["y" := linkedPackage "y" None []]>
  (<["c" := linkedPackage "c" None []]> ∅)))).

Definition collidingTree : gmap string DependencyTree :=
  match createTree 5 collidingPkgs ["A"] [] ∅ with
  | Ok (_, treeMap) => treeMap
  | _ => ∅
  end.

Definition collidingResolved : gmap string ResolvedDependencyTree * list log_line :=
  match resolvePeers_default exact_version join_segments 5 collidingPkgs ["A"] with
  | Ok r => r
  | _ => (∅, [])
  end.

(** A package that lists the same dependency twice. *)
Definition repeatingPkgs : gmap string LinkedPackage :=
  <["A" := linkedPackage "A" None ["B"; "B"]]>
  (<["B" := linkedPackage "B" None []]> ∅).

Definition repeatingTree : gmap string DependencyTree :=
  match createTree 3 repeatingPkgs ["A"] [] ∅ with
  | Ok (_, treeMap) => treeMap
  | _ => ∅
  end.

Definition repeatingResolved : gmap string ResolvedDependencyTree * list log_line :=
  match resolvePeers_default exact_version join_segments 3 repeatingPkgs ["A"] with
  | Ok r => r
  | _ => (∅, [])
  end.

(** The resolved map of the cycle, and a store that holds its packages. *)
Definition cycleResolved : gmap string ResolvedDependencyTree * list log_line :=
  match resolvePeers_default exact_version join_segments 4 cycleAB ["A"] with
  | Ok r => r
  | _ => (∅, [])
  end.

Definition cycle_store : gmap string nat :=
  {[ "store/A/package.json" := 1; "store/B/package.json" := 2 ]}.

(** Three levels: the application has [react] 15 and a library; the library
    has its own [react] 16 and a plugin whose peer is [react]. *)
Definition namedPackage (i n v : string) (peers : option Dependencies)
    (deps : list string) : LinkedPackage :=
  {| lp_id := i; lp_pkg := manifest n v peers;
     lp_localLocation := "node_modules/." +:+ i;
     lp_path := "store/" +:+ i;
     lp_fetchingFiles := Resolved false;
     lp_dependencies := deps |}.

Definition shadowingPkgs : gmap string LinkedPackage :=
  <["app" := namedPackage "app" "app" "1.0.0" None ["react15"; "lib"]]>
  (<["react15" := namedPackage "react15" "react" "15.0.0" None []]>
  (<["lib" := namedPackage "lib" "lib" "1.0.0" None ["react16"; "plugin"]]>
  (<["react16" := namedPackage "react16" "react" "16.0.0" None []]>
  (<["plugin" := namedPackage "plugin" "plugin" "1.0.0"
                   (Some [("react", "16.0.0")]) []]> ∅)))).

Definition shadowingResolved : gmap string ResolvedDependencyTree * list log_line :=
  match resolvePeers_default exact_version join_segments 4 shadowingPkgs ["app"] with
  | Ok r => r
  | _ => (∅, [])
  end.

(** The plugin comes before the [react] its peer asks for. *)
Definition laterSiblingPkgs : gmap string LinkedPackage :=
  <["app" := namedPackage "app" "app" "1.0.0" None ["plugin"; "react16"]]>
  (<["react16" := namedPackage "react16" "react" "16.0.0" None []]>
  (<["plugin" := namedPackage "plugin" "plugin" "1.0.0"
                   (Some [("react", "16.0.0")]) []]> ∅)).

Definition laterSiblingResolved
  : gmap string ResolvedDependencyTree * list log_line :=
  match resolvePeers_default exact_version join_segments 3 laterSiblingPkgs
          ["app"] with
  | Ok r => r
  | _ => (∅, [])
  end.

Definition shadowingTree : gmap string DependencyTree :=
  match createTree 4 shadowingPkgs ["app"] [] ∅ with
  | Ok (_, treeMap) => treeMap
  | _ => ∅
  end.

Definition laterSiblingTree : gmap string DependencyTree :=
  match createTree 3 laterSiblingPkgs ["app"] [] ∅ with
  | Ok (_, treeMap) => treeMap
  | _ => ∅
  end.

(** ** The scope along a path of the tree *)

(** [chain] is a path of [treeMap]: every key after the first is a child of
    the node stored under the key before it. *)
Fixpoint tree_path (treeMap : gmap string DependencyTree)
    (chain : list string) : Prop :=
  match chain with
  | k :: (c :: _) as rest =>
      (∃ pkgNode, treeMap !! k = Some pkgNode ∧ c ∈ dt_children pkgNode) ∧
      tree_path treeMap rest
  | _ => True
  end.

(** The scope accumulated along a path, starting from [parentPkgs]: every
    node of the path overlays itself and all its children, as
    [resolvePeersOfNode] does with [newParentPkgs] before it visits a
    child. *)
Fixpoint scopeAlong (treeMap parentPkgs : gmap string DependencyTree)
    (chain : list string) : option (gmap string DependencyTree) :=
  match chain with
  | [] => Some parentPkgs
  | k :: rest =>
      match treeMap !! k with
      | None => None
      | Some pkgNode =>
          match props (dt_children pkgNode) treeMap with
          | Ok childNodes =>
              scopeAlong treeMap (newParentPkgs parentPkgs pkgNode childNodes)
                rest
          | _ => None
          end
      end
  end.

(** The spec's wording of what the scope of a node holds: the ancestors of
    the node and their already-visited siblings, the node itself and its
    direct children. A peer resolved in such a scope is the node, one of
    its children, or a node that was visited before it, in the order in
    which the resolver visits the tree. To be compared with [scopeAlong]. *)
Definition peers_resolved_among_visited
    (satisfies : option string → string → bool)
    (path_join : list string → string)
    (pkgsMap : gmap string LinkedPackage) (topPkgIds : list string) : Prop :=
  ∀ fuel rootNodeIds treeMap result log,
    createTree fuel pkgsMap topPkgIds [] ∅ = Ok (rootNodeIds, treeMap) →
    resolvePeers_default satisfies path_join fuel pkgsMap topPkgIds
      = Ok (result, log) →
    let order := rootNodeId ← rootNodeIds; visits fuel treeMap rootNodeId in
    ∀ k entry p,
      result !! k = Some entry → p ∈ rt_resolvedPeers entry →
      p = k ∨ p ∈ rt_children entry ∨
      ∃ i j, order !! i = Some p ∧ order !! j = Some k ∧ i < j.

(** ** Vocabulary of the further properties *)

(** Every node is stored under its own keypath id, and every child of a
    node is a key of the map that is longer than the key of the node. *)
Definition tree_closed (treeMap : gmap string DependencyTree) : Prop :=
  ∀ k node, treeMap !! k = Some node →
    dt_keypathId node = k ∧
    ∀ c, c ∈ dt_children node →
      is_Some (treeMap !! c) ∧ String.length k < String.length c.

(** ** Further concrete inputs *)

(** The entry of the library in the resolved map of [shadowingPkgs]. *)
Definition shadowing_lib : ResolvedDependencyTree :=
  default resolved_react (shadowingResolved.1 !! "app/lib").

(** An application that lists a dependency that was not installed. *)
Definition danglingPkgs : gmap string LinkedPackage :=
  <["app" := linkedPackage "app" None ["react"; "redux"]]>
  (<["react" := linkedPackage "react" None []]> ∅).

(** [react] once more, two levels down, with the layout of
    [resolved_react]. *)
Definition deep_react : ResolvedDependencyTree :=
  resolvedNode (treeNode "app/lib/react" "react" "1.0.0" [] [] 2)
    "node_modules/.react/node_modules" None
    "node_modules/.react/node_modules/react" [].

(** [link-dir] leaves the manifest of the target in place, as the same file
    as the manifest of the store. *)
Definition linkDir_links_manifest `{FileSystem World}
    (path_join : list string → string) : Prop :=
  ∀ src dest w w', linkDir src dest w = Ok w' →
    pathExists w' (path_join [dest; "package.json"]) = true ∧
    ∃ ino,
      stat_ino w' (path_join [dest; "package.json"]) = Some ino ∧
      stat_ino w' (path_join [src; "package.json"]) = Some ino.

(** The same node in a later run, when its content is in the store
    already: [fetchingFiles] resolves to [false]. *)
Definition alreadyFetched (dependency : ResolvedDependencyTree)
  : ResolvedDependencyTree :=
  {| rt_name := rt_name dependency;
     rt_hasBundledDependencies := rt_hasBundledDependencies dependency;
     rt_path := rt_path dependency;
     rt_modules := rt_modules dependency;
     rt_peerModules := rt_peerModules dependency;
     rt_fetchingFiles := Resolved false;
     rt_hardlinkedLocation := rt_hardlinkedLocation dependency;
     rt_children := rt_children dependency;
     rt_resolvedPeers := rt_resolvedPeers dependency;
     rt_depth := rt_depth dependency;
     rt_id := rt_id dependency |}.

(** The store holds [react]; the project has nothing linked yet. *)
Definition unlinked_world : gmap string nat :=
  {[ "store/react/package.json" := 7 ]}.

(** The project has a manifest of [react] in place, the store has none. *)
Definition unstored_world : gmap string nat :=
  {[ "node_modules/.react/node_modules/react/package.json" := 7 ]}.

(** [R.values] yields every value of the object once, in some order. *)
Definition enumerates_values (R_values : ∀ V, gmap string V → list V) : Prop :=
  ∀ V (m : gmap string V), R_values V m ≡ₚ (map_to_list m).*2.

(** An enumeration of the values. *)
Definition values_by_key (V : Type) (m : gmap string V) : list V :=
  (map_to_list m).*2.

(** [symlink-dir] and [linkBins] do not fail. *)
Definition tools_succeed `{LinkTools World} : Prop :=
  (∀ src dest w, ∃ w', symlinkDir src dest w = Ok w') ∧
  (∀ modules binPath exceptPkgName w,
     ∃ w', linkBins modules binPath exceptPkgName w = Ok w').

(** On the file system of inodes, a symlink makes the manifest of the
    target the manifest of the source; bins are not recorded. *)
Definition inode_symlinkDir (src dest : string) (w : gmap string nat)
  : outcome (gmap string nat) :=
  Ok match w !! join_segments [src; "package.json"] with
     | Some ino => <[join_segments [dest; "package.json"] := ino]> w
     | None => w
     end.

Global Instance inode_tools : LinkTools (gmap string nat) :=
  {| symlinkDir := inode_symlinkDir;
     linkBins := λ _ _ _ w, Ok w;
     globalBinPath := λ _, "/usr/local/bin" |}.

(** [link-dir] does not fail. *)
Definition linkDir_succeeds `{FileSystem World} : Prop :=
  ∀ src dest w, ∃ w', linkDir src dest w = Ok w'.

(** A world that only counts the requests it served: nothing exists in it
    and nothing fails. *)
Global Instance counting_fs : FileSystem nat :=
  {| pathExists := λ _ _, false;
     stat_ino := λ _ _, None;
     linkDir := λ _ _ w, Ok (S w) |}.

Global Instance counting_tools : LinkTools nat :=
  {| symlinkDir := λ _ _ w, Ok (S w);
     linkBins := λ _ _ _ w, Ok (S w);
     globalBinPath := λ _, "/usr/local/bin" |}.

(** What the installer hands to the linker for the direct cycle. *)
Definition installedPackage (i : string) (deps : list string)
  : InstalledPackage :=
  {| ip_id := i; ip_pkg := manifest i "1.0.0" None;
     ip_path := "store/" +:+ i; ip_fetchingFiles := Resolved true;
     ip_dependencies := deps; ip_isInstallable := true |}.

Definition cycleInstalled : gmap string InstalledPackage :=
  <["A" := installedPackage "A" ["B"]]>
    (<["B" := installedPackage "B" ["A"]]> ∅).

(** Reading the dependencies of a shrinkwrap after setting them yields what
    was set. *)
Definition shrinkwrap_lens `{Collaborators Opts Shrinkwrap World} : Prop :=
  ∀ deps (shr : Shrinkwrap),
    shr_dependencies (shr_set_dependencies deps shr) = deps.

(** The test of the loop of [uninstallInContext] on one key of
    [shrinkwrap.dependencies]: the name [npa] reads from the key is a
    dependency of the package. *)
Definition stillDependent `{Collaborators Opts Shrinkwrap World}
    (pkg : Package) (depSpecRaw : string) : bool :=
  match npa_name depSpecRaw with
  | Ok depName => isDependentOn pkg depName
  | _ => false
  end.

(** A manifest that depends on [react], and a state whose shrinkwrap pins
    [react] and [redux]. *)
Definition react_app : Package :=
  {| name := "app"; version := "1.0.0";
     dependencies := Some [("react", "^1.0.0")]; devDependencies := None;
     optionalDependencies := None; peerDependencies := None;
     bundledDependencies := None; bundleDependencies := None |}.

Definition two_pins : uninstall_state (list (string * string)) nat :=
  {| us_world := 0;
     us_shrinkwrap := [("react", "registry/react/1.0.0");
                       ("redux", "registry/redux/3.0.0")];
     us_trace := [] |}.

(** A warning of the resolver about a peer the node declares: it carries
    the id of the node and a declared peer, and, for a version mismatch,
    the rendering of a version, possibly undefined, that does not satisfy
    the declared range. *)
Definition warning_of (satisfies : option string → string → bool)
    (pkgNode : DependencyTree) (l : log_line) : Prop :=
  match l with
  | WarnNoPeer pkgId peerName peerVersionRange =>
      pkgId = dt_id pkgNode ∧
      (peerName, peerVersionRange) ∈ dt_peerDependencies pkgNode
  | WarnVersionMismatch pkgId peerName peerVersionRange installed =>
      pkgId = dt_id pkgNode ∧
      (peerName, peerVersionRange) ∈ dt_peerDependencies pkgNode ∧
      ∃ version, installed = render version ∧
        satisfies version peerVersionRange = false
  | InfoRelinking _ => False
  end.

(** [descends treeMap a k]: the node [k] is the node [a] or is reached from
    it through child lists of the tree map. *)
Inductive descends (treeMap : gmap string DependencyTree)
  : string → string → Prop :=
  | descends_refl k : descends treeMap k k
  | descends_child a pkgNode c k :
      treeMap !! a = Some pkgNode → c ∈ dt_children pkgNode →
      descends treeMap c k → descends treeMap a k.

(** The entry of the plugin in the resolved map of [shadowingPkgs]. *)
Definition shadowing_plugin : ResolvedDependencyTree :=
  default resolved_react (shadowingResolved.1 !! "app/lib/plugin").

(** * Properties *)

(** ** Shadow-folder naming *)

Lemma replace_all_none c d s :
  occurrences c s = 0 → replace_all c d s = s.
Proof.
  induction s as [|a s IH]; simpl; [done|].
  destruct (Ascii.eqb a c); [done|]. intros H. by rewrite IH.
Qed.

Lemma replace_first_all c d s :
  occurrences c s ≤ 1 → replace_first c d s = replace_all c d s.
Proof.
  induction s as [|a s IH]; simpl; [done|].
  destruct (Ascii.eqb a c); simpl; intros H.
  - rewrite replace_all_none; [done | lia].
  - by rewrite IH.
Qed.

Lemma createPeersFolderName_sorted peers :
  Sorted String.le (merge_sort String.le (map peerToken peers)).
Proof. apply (Sorted_merge_sort String.le). Qed.

Lemma createPeersFolderName_Permutation peers1 peers2 :
  peers1 ≡ₚ peers2 → createPeersFolderName peers1 = createPeersFolderName peers2.
Proof.
  intros Hp. unfold createPeersFolderName. f_equal.
  apply (Sorted_unique String.le); try apply createPeersFolderName_sorted.
  rewrite !merge_sort_Permutation. by apply Permutation_map.
Qed.

(** C4. The shadow-folder name is the [+]-join of the sorted tokens
    [name@version] of the peers, the first [/] of each name replaced by [!]
    (every [/] when the name has at most one, as package names do); the peers
    [a/b@1.0.0] and [c@2.0.0] give [a!b@1.0.0+c@2.0.0] in either order, and
    two peer lists with the same members give the same name. *)
Theorem createPeersFolderName_spec :
  (∀ peers, ∃ tokens,
      tokens ≡ₚ map peerToken peers ∧ Sorted String.le tokens ∧
      createPeersFolderName peers = String.concat "+" tokens) ∧
  (∀ peer, occurrences "/" (dt_name peer) ≤ 1 →
      peerToken peer =
        replace_all "/" "!" (dt_name peer) +:+ "@" +:+ dt_version peer) ∧
  createPeersFolderName [peer_ab; peer_c] = "a!b@1.0.0+c@2.0.0" ∧
  createPeersFolderName [peer_c; peer_ab] = "a!b@1.0.0+c@2.0.0" ∧
  (∀ peers1 peers2, peers1 ≡ₚ peers2 →
      createPeersFolderName peers1 = createPeersFolderName peers2).
Proof.
  split_and!.
  - intros peers. exists (merge_sort String.le (map peerToken peers)).
    split_and!; [apply merge_sort_Permutation | apply createPeersFolderName_sorted | done].
  - intros peer H. unfold peerToken. by rewrite replace_first_all.
  - by vm_compute.
  - by vm_compute.
  - apply createPeersFolderName_Permutation.
Qed.

(** ** The scope of peer resolution *)

Lemma fromPairs_snoc {V} (l : list (string * V)) k v :
  fromPairs (l ++ [(k, v)]) = <[k := v]> (fromPairs l).
Proof. unfold fromPairs. by rewrite foldl_app. Qed.

Lemma toPkgByName_snoc pkgs pkg :
  toPkgByName (pkgs ++ [pkg]) = <[dt_name pkg := pkg]> (toPkgByName pkgs).
Proof.
  unfold toPkgByName. cbv zeta. rewrite map_app. simpl.
  by rewrite fromPairs_snoc.
Qed.

(** Among the packages of one name, [toPkgByName] keeps the last. *)
Lemma toPkgByName_lookup pkgs n :
  toPkgByName pkgs !! n = last (filter (λ pkg, dt_name pkg = n) pkgs).
Proof.
  induction pkgs as [|pkg pkgs IH] using rev_ind; [done|].
  rewrite toPkgByName_snoc, filter_app, lookup_insert.
  rewrite filter_cons, filter_nil. case_decide as Hn.
  - by rewrite last_snoc.
  - by rewrite app_nil_r.
Qed.

Lemma toPkgByName_lookup_Some pkgs n pkg :
  toPkgByName pkgs !! n = Some pkg → pkg ∈ pkgs ∧ dt_name pkg = n.
Proof.
  rewrite toPkgByName_lookup. intros H%last_Some_elem_of.
  by apply list_elem_of_filter in H as [??].
Qed.

Lemma Object_assign_3 {V} (a b c : gmap string V) :
  Object_assign [a; b; c] = c ∪ (b ∪ a).
Proof. unfold Object_assign. simpl. by rewrite (right_id_L ∅ (∪)). Qed.

Section ScopeFacts.
Variable satisfies : option string → string → bool.
Variable path_join : list string → string.

Lemma newParentPkgs_lookup parentPkgs pkgNode children n :
  newParentPkgs parentPkgs pkgNode children !! n =
    match toPkgByName children !! n with
    | Some child => Some child
    | None =>
        if decide (n = dt_name pkgNode) then Some pkgNode
        else parentPkgs !! n
    end.
Proof.
  unfold newParentPkgs. rewrite Object_assign_3.
  destruct (toPkgByName children !! n) as [child|] eqn:Hc.
  - by erewrite lookup_union_Some_l.
  - rewrite lookup_union_r by done. case_decide as Hn.
    + subst n. erewrite lookup_union_Some_l; [done|].
      by rewrite lookup_singleton_eq.
    + rewrite lookup_union_r; [done|]. by rewrite lookup_singleton_ne.
Qed.

Lemma resolvePeersOfNode_unfold fuel keypathId parentPkgs treeMap
    pkgNode childNodes :
  treeMap !! keypathId = Some pkgNode →
  props (dt_children pkgNode) treeMap = Ok childNodes →
  let scope := newParentPkgs parentPkgs pkgNode childNodes in
  let resolved :=
    resolvePeers satisfies (dt_peerDependencies pkgNode) (dt_id pkgNode)
      scope in
  resolvePeersOfNode satisfies path_join (S fuel) keypathId parentPkgs treeMap =
    (peerModules ← peerModulesOf path_join pkgNode resolved.1 treeMap;
     '(results, logs) ←
       resolveChildren
         (λ child,
            resolvePeersOfNode satisfies path_join fuel child scope treeMap)
         (dt_children pkgNode);
     Ok (foldl R_merge
           {[keypathId :=
               resolvedNode pkgNode (modulesOf path_join pkgNode) peerModules
                 (hardlinkedLocationOf path_join pkgNode peerModules
                    (modulesOf path_join pkgNode))
                 resolved.1]}
           results,
         resolved.2 ++ logs)).
Proof.
  intros Hnode Hch scope resolved. simpl. by rewrite Hnode, Hch.
Qed.

End ScopeFacts.

(** The plugin's peer [react] resolves to the library's [react] 16, the
    nearer one, not to the application's [react] 15; nothing is logged. *)
Example peer_shadowing_nearest :
  rt_resolvedPeers <$> shadowingResolved.1 !! "app/lib/plugin"
    = Some ["app/lib/react16"] ∧
  rt_hardlinkedLocation <$> shadowingResolved.1 !! "app/lib/plugin"
    = Some "node_modules/.plugin/react@16.0.0/node_modules/plugin" ∧
  shadowingResolved.2 = [].
Proof. by vm_compute. Qed.

(** The scope of a node holds all the children of its parent, also those
    that are visited after it: the plugin's peer resolves to the sibling
    that follows it. *)
Example peer_resolved_by_later_sibling :
  rt_children <$> laterSiblingResolved.1 !! "app"
    = Some ["app/plugin"; "app/react16"] ∧
  rt_resolvedPeers <$> laterSiblingResolved.1 !! "app/plugin"
    = Some ["app/react16"] ∧
  laterSiblingResolved.2 = [].
Proof. by vm_compute. Qed.

(** ** Peer resolution *)

Section PeerFacts.
Variable satisfies : option string → string → bool.


Lemma resolvePeers_cons peer peerDependencies pkgId parentPkgs :
  resolvePeers satisfies (peer :: peerDependencies) pkgId parentPkgs =
    (filterBoolean [(resolvePeer satisfies pkgId parentPkgs peer).1]
       ++ (resolvePeers satisfies peerDependencies pkgId parentPkgs).1,
     (resolvePeer satisfies pkgId parentPkgs peer).2
       ++ (resolvePeers satisfies peerDependencies pkgId parentPkgs).2).
Proof.
  unfold resolvePeers, filterBoolean. simpl.
  by destruct (resolvePeer satisfies pkgId parentPkgs peer) as [[[|]|] ?].
Qed.

Lemma resolvePeers_ids peerDependencies pkgId parentPkgs :
  scope_ids_nonempty parentPkgs →
  (resolvePeers satisfies peerDependencies pkgId parentPkgs).1 =
    omap (λ peer, dt_keypathId <$> parentPkgs !! peer.1) peerDependencies.
Proof.
  intros Hwf. induction peerDependencies as [|[peerName range] l IH].
  { done. }
  rewrite resolvePeers_cons. cbn [fst omap]. rewrite IH. simpl.
  unfold js_get.
  destruct (parentPkgs !! peerName) as [node|] eqn:Hn; simpl.
  - specialize (Hwf _ _ Hn). by destruct (dt_keypathId node).
  - by case_decide.
Qed.

Lemma length_filter_cons_bool {A} (b : A → bool) x l :
  length (filter b (x :: l)) = (if b x then 1 else 0) + length (filter b l).
Proof. rewrite filter_cons. by destruct (b x). Qed.

Lemma resolvePeers_mismatch_count peerDependencies pkgId parentPkgs peerName :
  length (filter (mismatch_about peerName)
            (resolvePeers satisfies peerDependencies pkgId parentPkgs).2) =
  length (filter (declared_mismatch satisfies parentPkgs peerName)
            peerDependencies).
Proof.
  induction peerDependencies as [|[p range] l IH]; [done|].
  rewrite resolvePeers_cons. cbn [snd].
  rewrite filter_app, length_app, IH, length_filter_cons_bool. f_equal.
  unfold declared_mismatch. simpl. unfold versionWarning.
  destruct (js_get parentPkgs p) as [node| |]; simpl.
  - destruct (satisfies (Some (dt_version node)) range) eqn:Hs; simpl.
    + by rewrite andb_false_r.
    + rewrite andb_true_r, length_filter_cons_bool. simpl.
      by destruct (bool_decide (p = peerName)).
  - destruct (satisfies None range) eqn:Hs; simpl.
    + by rewrite andb_false_r.
    + rewrite andb_true_r, length_filter_cons_bool. simpl.
      by destruct (bool_decide (p = peerName)).
  - by rewrite andb_false_r.
Qed.

Lemma resolvePeers_no_peer_count peerDependencies pkgId parentPkgs peerName :
  length (filter (no_peer_about peerName)
            (resolvePeers satisfies peerDependencies pkgId parentPkgs).2) =
  length (filter (declared_absent parentPkgs peerName) peerDependencies).
Proof.
  induction peerDependencies as [|[p range] l IH]; [done|].
  rewrite resolvePeers_cons. cbn [snd].
  rewrite filter_app, length_app, IH, length_filter_cons_bool. f_equal.
  unfold declared_absent. simpl. unfold versionWarning.
  destruct (js_get parentPkgs p) as [node| |]; simpl.
  - rewrite andb_false_r.
    by destruct (satisfies (Some (dt_version node)) range).
  - rewrite andb_false_r. by destruct (satisfies None range).
  - rewrite andb_true_r, length_filter_cons_bool. simpl.
    by destruct (bool_decide (p = peerName)).
Qed.

Lemma filter_key_none {A} (P : A → Prop) `{∀ x, Decision (P x)} (l : list A) :
  (∀ x, x ∈ l → ¬ P x) → length (filter P l) = 0.
Proof.
  induction l as [|x l IH]; intros HP; [done|].
  rewrite filter_cons_False by (apply HP; left).
  apply IH. intros y Hy. apply HP. by right.
Qed.

(** In an association list with distinct keys, one key has one value and
    selects at most one entry. *)
Lemma assoc_functional (l : list (string * string)) k v1 v2 :
  NoDup l.*1 → (k, v1) ∈ l → (k, v2) ∈ l → v1 = v2.
Proof.
  induction l as [|[k' v'] l IH]; intros Hnd H1 H2; [by inversion H1|].
  apply NoDup_cons in Hnd as [Hk' Hnd].
  apply elem_of_cons in H1 as [H1|H1]; apply elem_of_cons in H2 as [H2|H2].
  - congruence.
  - injection H1 as -> ->. destruct Hk'. apply list_elem_of_fmap.
    by exists (k', v2).
  - injection H2 as -> ->. destruct Hk'. apply list_elem_of_fmap.
    by exists (k', v1).
  - by eapply IH.
Qed.

Lemma filter_key_NoDup (P : string * string → Prop)
    `{∀ x, Decision (P x)} (l : list (string * string)) k v :
  NoDup l.*1 → (k, v) ∈ l → (∀ x, P x → x.1 = k) → P (k, v) →
  length (filter P l) = 1.
Proof.
  intros Hnd Hin Hk HP. induction l as [|[k' v'] l IH]; [by inversion Hin|].
  apply NoDup_cons in Hnd as [Hk' Hnd].
  apply elem_of_cons in Hin as [Hin|Hin].
  - injection Hin as <- <-. rewrite filter_cons_True by done. simpl. f_equal.
    apply filter_key_none.
    intros [k2 v2] Hin2 HP2. apply Hk in HP2. simpl in HP2. subst k2.
    apply Hk'. apply list_elem_of_fmap. by exists (k, v2).
  - rewrite filter_cons_False; [by apply IH|].
    intros HP'. apply Hk in HP'. simpl in HP'. subst k'.
    apply Hk'. apply list_elem_of_fmap. by exists (k, v).
Qed.

(** What one declared peer contributes to the log is in the log. *)
Lemma resolvePeer_logged peerDependencies pkgId parentPkgs peer w :
  peer ∈ peerDependencies →
  w ∈ (resolvePeer satisfies pkgId parentPkgs peer).2 →
  w ∈ (resolvePeers satisfies peerDependencies pkgId parentPkgs).2.
Proof.
  intros Hin Hw. unfold resolvePeers. cbn [snd].
  apply list_elem_of_In, in_concat. eexists. split; [|by apply list_elem_of_In].
  apply in_map, in_map. by apply list_elem_of_In.
Qed.

(** With distinct names, a test that selects entries of one name selects
    the entry of that name or nothing. *)
Lemma filter_by_name (peerDependencies : Dependencies) peerName versionRange
    (b : string * string → bool) :
  NoDup peerDependencies.*1 →
  (peerName, versionRange) ∈ peerDependencies →
  (∀ x, b x → x.1 = peerName) →
  length (filter b peerDependencies) =
    if b (peerName, versionRange) then 1 else 0.
Proof.
  intros Hnd Hin Hb. destruct (b (peerName, versionRange)) eqn:Hbv.
  - eapply filter_key_NoDup; eauto; by rewrite Hbv.
  - apply filter_key_none. intros [p r] Hp Hbp.
    pose proof (Hb _ Hbp) as Hpn. simpl in Hpn. subst p.
    assert (r = versionRange) as ->.
    { by eapply assoc_functional. }
    by rewrite Hbv in Hbp.
Qed.

Lemma declared_mismatch_name parentPkgs peerName x :
  declared_mismatch satisfies parentPkgs peerName x → x.1 = peerName.
Proof.
  unfold declared_mismatch. by intros [?%bool_decide_unpack _]%andb_True.
Qed.

Lemma declared_absent_name parentPkgs peerName x :
  declared_absent parentPkgs peerName x → x.1 = peerName.
Proof.
  unfold declared_absent. by intros [?%bool_decide_unpack _]%andb_True.
Qed.

(** The outcome of [resolvePeers] for the peers a package declares (an
    object: distinct names), in a scope whose nodes have non-empty keypath
    ids, when every declared name that [Object.prototype] has too is the
    name of a package in scope. *)
Lemma resolvePeers_outcome peerDependencies pkgId parentPkgs :
  NoDup peerDependencies.*1 →
  scope_ids_nonempty parentPkgs →
  (∀ peer, peer ∈ peerDependencies → peer.1 ∈ objectPrototypeMembers →
     is_Some (parentPkgs !! peer.1)) →
  let resolved := resolvePeers satisfies peerDependencies pkgId parentPkgs in
  resolved.1 =
    omap (λ peer, dt_keypathId <$> parentPkgs !! peer.1) peerDependencies ∧
  ∀ peerName versionRange,
    (peerName, versionRange) ∈ peerDependencies →
    match parentPkgs !! peerName with
    | None =>
        WarnNoPeer pkgId peerName versionRange ∈ resolved.2 ∧
        length (filter (no_peer_about peerName) resolved.2) = 1 ∧
        length (filter (mismatch_about peerName) resolved.2) = 0
    | Some node =>
        dt_keypathId node ∈ resolved.1 ∧
        length (filter (no_peer_about peerName) resolved.2) = 0 ∧
        length (filter (mismatch_about peerName) resolved.2) =
          (if satisfies (Some (dt_version node)) versionRange then 0 else 1) ∧
        (satisfies (Some (dt_version node)) versionRange = false →
         WarnVersionMismatch pkgId peerName versionRange (dt_version node)
           ∈ resolved.2)
    end.
Proof.
  intros Hnd Hwf Hown resolved. split; [by apply resolvePeers_ids|].
  intros peerName versionRange Hin. subst resolved.
  pose proof (resolvePeer_logged peerDependencies pkgId parentPkgs
                (peerName, versionRange)) as Hlog.
  rewrite resolvePeers_no_peer_count, resolvePeers_mismatch_count.
  rewrite (filter_by_name peerDependencies peerName versionRange
             (declared_absent parentPkgs peerName))
    by first [done | apply declared_absent_name].
  rewrite (filter_by_name peerDependencies peerName versionRange
             (declared_mismatch satisfies parentPkgs peerName))
    by first [done | apply declared_mismatch_name].
  unfold declared_absent, declared_mismatch. cbn [fst snd].
  rewrite bool_decide_eq_true_2 by done. cbn [andb].
  unfold resolvePeer, versionWarning, js_get in *.
  destruct (parentPkgs !! peerName) as [node|] eqn:Hn.
  - split_and!; [|done| |].
    + rewrite resolvePeers_ids by done. apply list_elem_of_omap.
      exists (peerName, versionRange). split; [done|]. simpl.
      by rewrite Hn.
    + by destruct (satisfies (Some (dt_version node)) versionRange).
    + intros Hs. apply Hlog; [done|]. simpl. rewrite Hs. set_solver.
  - rewrite decide_False in Hlog |- *.
    + split_and!; [|done..]. apply Hlog; [done|]. set_solver.
    + intros Hmember. destruct (Hown _ Hin Hmember) as [? Hsome]. simpl in Hsome.
      congruence.
    + intros Hmember. destruct (Hown _ Hin Hmember) as [? Hsome]. simpl in Hsome.
      congruence.
Qed.



End PeerFacts.

Lemma scope_react_ids_nonempty : scope_ids_nonempty scope_react.
Proof.
  intros n node. unfold scope_react.
  rewrite lookup_singleton_Some. by intros [_ <-].
Qed.


(** The package [plugin] declares the peer [constructor]; nothing of that
    name is installed. The resolver logs that version [undefined] was
    installed, and nothing else; no peer is resolved. *)
Example peer_named_constructor :
  let resolved :=
    resolvePeers exact_version [("constructor", "1.0.0")] "plugin" ∅ in
  resolved.1 = [] ∧
  message <$> resolved.2 =
    ["plugin requires a peer of constructor@1.0.0 but version undefined was installed."].
Proof. by vm_compute. Qed.

(** ** Layout assignment *)

Lemma join_segments_never_empty : never_empty join_segments.
Proof.
  intros segments. unfold join_segments.
  destruct (filter _ segments) as [|s l] eqn:Hf; [done|].
  assert (s ≠ "") as Hs.
  { assert (s ∈ filter (λ s, s ≠ "") segments) as Hin by (rewrite Hf; left).
    by apply list_elem_of_filter in Hin as [? _]. }
  destruct s as [|a s]; [done|]. by destruct l.
Qed.

Lemma join_segments_ignores_empty : ignores_empty_segments join_segments.
Proof.
  intros segments. unfold join_segments.
  by rewrite list_filter_filter_l.
Qed.

Lemma foldl_R_merge_lookup {V} (results : list (gmap string V)) init k v :
  foldl R_merge init results !! k = Some v →
  init !! k = Some v ∨ ∃ m, m ∈ results ∧ m !! k = Some v.
Proof.
  revert init. induction results as [|m results IH]; intros init; simpl.
  { auto. }
  intros [H|(m' & ? & ?)]%IH.
  - unfold R_merge in H. apply lookup_union_Some_raw in H as [H|[_ H]].
    + right. exists m. split; [left|done].
    + by left.
  - right. exists m'. split; [by right|done].
Qed.

Arguments resolvePeers : simpl never.
Arguments newParentPkgs : simpl never.
Arguments peerModulesOf : simpl never.
Arguments modulesOf : simpl never.
Arguments hardlinkedLocationOf : simpl never.
Arguments resolvedNode : simpl never.

Section LayoutFacts.
Variable satisfies : option string → string → bool.
Variable path_join : list string → string.


Lemma resolvePeersOfNode_S fuel keypathId parentPkgs treeMap :
  resolvePeersOfNode satisfies path_join (S fuel) keypathId parentPkgs treeMap =
    match treeMap !! keypathId with
    | None => Thrown (TypeErrorUndefined keypathId)
    | Some pkgNode =>
        childNodes ← props (dt_children pkgNode) treeMap;
        let scope := newParentPkgs parentPkgs pkgNode childNodes in
        let resolved :=
          resolvePeers satisfies (dt_peerDependencies pkgNode)
            (dt_id pkgNode) scope in
        peerModules ← peerModulesOf path_join pkgNode resolved.1 treeMap;
        '(results, logs) ←
          resolveChildren
            (λ child,
               resolvePeersOfNode satisfies path_join fuel child scope treeMap)
            (dt_children pkgNode);
        Ok (foldl R_merge
              {[keypathId :=
                  resolvedNode pkgNode (modulesOf path_join pkgNode)
                    peerModules
                    (hardlinkedLocationOf path_join pkgNode peerModules
                       (modulesOf path_join pkgNode))
                    resolved.1]}
              results,
            resolved.2 ++ logs)
    end.
Proof. done. Qed.

Lemma resolveChildren_Ok_inv rec children results logs m :
  resolveChildren rec children = Ok (results, logs) →
  m ∈ results →
  ∃ child log, child ∈ children ∧ rec child = Ok (m, log).
Proof.
  revert results logs.
  induction children as [|child rest IH]; intros results logs; simpl.
  { intros [= <- <-]. by inversion 1. }
  destruct (rec child) as [[m1 log1]| |] eqn:Hrec; simpl; [|done..].
  destruct (resolveChildren rec rest) as [[ms logs']| |]; simpl; [|done..].
  intros [= <- <-] [->|Hin]%elem_of_cons.
  - exists child, log1. split; [left|done].
  - destruct (IH _ _ eq_refl Hin) as (c & l & ? & ?).
    exists c, l. split; [by right|done].
Qed.

(** Every entry of the map [resolvePeersOfNode] returns was built from
    the tree node stored under the same keypath id. *)
Lemma resolvePeersOfNode_entries fuel keypathId parentPkgs treeMap result log :
  resolvePeersOfNode satisfies path_join fuel keypathId parentPkgs treeMap
    = Ok (result, log) →
  ∀ k r, result !! k = Some r → entry_built_from path_join treeMap k r.
Proof.
  revert keypathId parentPkgs result log.
  induction fuel as [|fuel IH]; intros keypathId parentPkgs result log;
    [done|].
  rewrite resolvePeersOfNode_S.
  destruct (treeMap !! keypathId) as [pkgNode|] eqn:Hnode; [|done].
  destruct (props (dt_children pkgNode) treeMap) as [childNodes| |];
    [|done..].
  cbn [mbind outcome_bind].
  destruct (peerModulesOf _ _ _ _) as [peerModules| |] eqn:Hpm; [|done..].
  cbn [mbind outcome_bind].
  destruct (resolveChildren _ _) as [[results logs]| |] eqn:Hch; [|done..].
  cbn [mbind outcome_bind].
  intros [= <- <-] k r [Hr|(m & Hm & Hr)]%foldl_R_merge_lookup.
  - apply lookup_singleton_Some in Hr as [<- <-].
    exists pkgNode. by split_and!.
  - destruct (resolveChildren_Ok_inv _ _ _ _ _ Hch Hm) as (c & l & _ & Hc).
    by eapply IH.
Qed.

(** C3. For every entry of the resolved map: [modules] is the node's local
    location joined with [node_modules]; [peerModules] is defined exactly
    when the node declares peer dependencies, and is then the local
    location joined with the shadow-folder name of the resolved peers and
    [node_modules]; [hardlinkedLocation] is [peerModules] if defined,
    [modules] otherwise, joined with the node's name. *)
Theorem layout_assignment fuel keypathId parentPkgs treeMap result log k r :
  never_empty path_join →
  resolvePeersOfNode satisfies path_join fuel keypathId parentPkgs treeMap
    = Ok (result, log) →
  result !! k = Some r →
  ∃ pkgNode,
    treeMap !! k = Some pkgNode ∧
    rt_modules r = path_join [dt_localLocation pkgNode; "node_modules"] ∧
    (is_Some (rt_peerModules r) ↔ dt_peerDependencies pkgNode ≠ []) ∧
    (∀ peerModules, rt_peerModules r = Some peerModules →
       ∃ peers,
         props (rt_resolvedPeers r) treeMap = Ok peers ∧
         peerModules =
           path_join [dt_localLocation pkgNode; createPeersFolderName peers;
                      "node_modules"]) ∧
    rt_hardlinkedLocation r =
      path_join [default (rt_modules r) (rt_peerModules r); dt_name pkgNode].
Proof.
  intros Hne Hres Hr.
  destruct (resolvePeersOfNode_entries _ _ _ _ _ _ Hres _ _ Hr)
    as (pkgNode & Hnode & Hpm & Hrec).
  exists pkgNode. split; [done|].
  pose proof (f_equal rt_modules Hrec) as Hmod.
  pose proof (f_equal rt_hardlinkedLocation Hrec) as Hhl.
  unfold resolvedNode in Hmod, Hhl.
  cbn [rt_modules rt_hardlinkedLocation] in Hmod, Hhl.
  clear Hrec. unfold peerModulesOf in Hpm.
  split; [done|]. destruct (dt_peerDependencies pkgNode) as [|peer peers'].
  - injection Hpm as Hpm. rewrite <- Hpm in Hhl |- *. split_and!.
    + split; [by intros [? ?]|done].
    + done.
    + rewrite Hhl, Hmod. reflexivity.
  - destruct (props (rt_resolvedPeers r) treeMap) as [peers| |];
      simpl in Hpm; [|done..].
    injection Hpm as Hpm. rewrite <- Hpm in Hhl |- *. split_and!.
    + split; [done|eauto].
    + intros ? [= <-]. eauto.
    + rewrite Hhl. unfold hardlinkedLocationOf, or_else. simpl.
      specialize (Hne [dt_localLocation pkgNode;
                       createPeersFolderName peers; "node_modules"]).
      by destruct (path_join [_; _; _]).
Qed.

(** C9. A node that declares peer dependencies none of which was resolved
    still has [peerModules] defined; the shadow-folder name being empty
    and [path.join] ignoring empty segments, [peerModules] is the same
    path as [modules], and [hardlinkedLocation] is [modules] joined with
    the node's name, as for a node that declares no peer. *)
Theorem layout_without_resolved_peers fuel keypathId parentPkgs treeMap
    result log k r pkgNode :
  ignores_empty_segments path_join →
  resolvePeersOfNode satisfies path_join fuel keypathId parentPkgs treeMap
    = Ok (result, log) →
  result !! k = Some r →
  treeMap !! k = Some pkgNode →
  dt_peerDependencies pkgNode ≠ [] →
  rt_resolvedPeers r = [] →
  createPeersFolderName [] = "" ∧
  rt_peerModules r = Some (rt_modules r) ∧
  rt_modules r = path_join [dt_localLocation pkgNode; "node_modules"] ∧
  rt_hardlinkedLocation r = path_join [rt_modules r; dt_name pkgNode] ∧
  rt_hardlinkedLocation r =
    hardlinkedLocationOf path_join pkgNode None (modulesOf path_join pkgNode).
Proof.
  intros Hskip Hres Hr Hnode Hpeers Hnone.
  destruct (resolvePeersOfNode_entries _ _ _ _ _ _ Hres _ _ Hr)
    as (pkgNode' & Hnode' & Hpm & Hrec).
  assert (pkgNode' = pkgNode) as -> by congruence.
  pose proof (f_equal rt_modules Hrec) as Hmod.
  pose proof (f_equal rt_hardlinkedLocation Hrec) as Hhl.
  unfold resolvedNode in Hmod, Hhl.
  cbn [rt_modules rt_hardlinkedLocation] in Hmod, Hhl.
  clear Hrec. unfold peerModulesOf in Hpm.
  rewrite Hnone in Hpm.
  destruct (dt_peerDependencies pkgNode) as [|peer peers']; [done|].
  simpl in Hpm. injection Hpm as Hpm.
  assert (path_join [dt_localLocation pkgNode; createPeersFolderName [];
                     "node_modules"] = rt_modules r) as Heq.
  { rewrite Hmod. unfold modulesOf. rewrite Hskip. symmetry.
    rewrite Hskip. symmetry. f_equal.
    all: rewrite !filter_cons, !filter_nil; simpl; by repeat case_decide. }
  rewrite Heq in Hpm. rewrite <- Hpm in Hhl |- *.
  unfold hardlinkedLocationOf, or_else in Hhl |- *. rewrite <- Hmod in Hhl |- *.
  split_and!; [done..| |].
  - rewrite Hhl. by destruct (truthy (rt_modules r)).
  - rewrite Hhl. by destruct (truthy (rt_modules r)).
Qed.

End LayoutFacts.

Lemma fixtureResolved_eq :
  resolvePeersOfNode exact_version join_segments 5 "app" ∅ fixtureTree =
    Ok (fixtureResolved.1, fixtureResolved.2).
Proof. by vm_compute. Qed.

Lemma layout_assignment_witness :
  ∃ pkgNode,
    fixtureTree !! "app/plugin" = Some pkgNode ∧
    "node_modules/.plugin/node_modules" =
      join_segments [dt_localLocation pkgNode; "node_modules"] ∧
    (is_Some (Some "node_modules/.plugin/react@1.0.0/node_modules")
       ↔ dt_peerDependencies pkgNode ≠ []) ∧
    (∀ peerModules,
       Some "node_modules/.plugin/react@1.0.0/node_modules" = Some peerModules →
       ∃ peers,
         props ["app/react"] fixtureTree = Ok peers ∧
         peerModules =
           join_segments [dt_localLocation pkgNode; createPeersFolderName peers;
                          "node_modules"]) ∧
    "node_modules/.plugin/react@1.0.0/node_modules/plugin" =
      join_segments
        [default "node_modules/.plugin/node_modules"
           (Some "node_modules/.plugin/react@1.0.0/node_modules");
         dt_name pkgNode].
Proof.
  apply (layout_assignment exact_version join_segments 5 "app" ∅ fixtureTree
           fixtureResolved.1 fixtureResolved.2 "app/plugin"
           (resolvedNode
              (treeNode "app/plugin" "plugin" "1.0.0"
                 [("react", "1.0.0"); ("redux", "3.0.0")] [] 1)
              "node_modules/.plugin/node_modules"
              (Some "node_modules/.plugin/react@1.0.0/node_modules")
              "node_modules/.plugin/react@1.0.0/node_modules/plugin"
              ["app/react"])).
  - exact join_segments_never_empty.
  - exact fixtureResolved_eq.
  - by vm_compute.
Defined.

Lemma layout_without_resolved_peers_witness :
  createPeersFolderName [] = "" ∧
  Some "node_modules/.tool/node_modules" = Some "node_modules/.tool/node_modules" ∧
  "node_modules/.tool/node_modules" =
    join_segments ["node_modules/.tool"; "node_modules"] ∧
  "node_modules/.tool/node_modules/tool" =
    join_segments ["node_modules/.tool/node_modules"; "tool"] ∧
  "node_modules/.tool/node_modules/tool" =
    hardlinkedLocationOf join_segments
      (treeNode "app/tool" "tool" "1.0.0" [("grunt", "1.0.0")] [] 1) None
      (modulesOf join_segments
         (treeNode "app/tool" "tool" "1.0.0" [("grunt", "1.0.0")] [] 1)).
Proof.
  apply (layout_without_resolved_peers exact_version join_segments 5 "app" ∅
           fixtureTree fixtureResolved.1 fixtureResolved.2 "app/tool"
           (resolvedNode
              (treeNode "app/tool" "tool" "1.0.0" [("grunt", "1.0.0")] [] 1)
              "node_modules/.tool/node_modules"
              (Some "node_modules/.tool/node_modules")
              "node_modules/.tool/node_modules/tool" [])
           (treeNode "app/tool" "tool" "1.0.0" [("grunt", "1.0.0")] [] 1)).
  - exact join_segments_ignores_empty.
  - exact fixtureResolved_eq.
  - by vm_compute.
  - by vm_compute.
  - done.
  - done.
Defined.

(** ** Uninstall without a save type *)

Section UninstallFacts.
Variable path_join : list string → string.
Context {Opts Shrinkwrap World : Type} `{!Collaborators Opts Shrinkwrap World}.

Lemma truthySaveType_None saveType :
  truthySaveType saveType = None ↔ saveType = None ∨ saveType = Some "".
Proof.
  destruct saveType as [[|a s]|]; simpl; naive_solver.
Qed.

(** C10. When [getSaveType] yields no save type ([undefined], or a falsy
    string), [uninstallInContext] returns normally and leaves everything as
    it was: the outside world (so [package.json], the store and the saved
    shrinkwrap) is the same, the shrinkwrap object of the context is the
    same, and no request was made. Conversely a run that changes the state
    or makes a request is a run with a truthy save type. *)
Theorem uninstall_without_save_type pkgsToUninstall pkg ctx opts :
  (getSaveType opts = None ∨ getSaveType opts = Some "" →
   ∀ st,
     uninstallInContext path_join pkgsToUninstall pkg ctx opts st
       = (Ok (), st)) ∧
  (∀ st r st',
     uninstallInContext path_join pkgsToUninstall pkg ctx opts st = (r, st') →
     st' ≠ st →
     ∃ saveType, getSaveType opts = Some saveType ∧ saveType ≠ "").
Proof.
  split.
  - intros H%truthySaveType_None st. unfold uninstallInContext.
    by rewrite H.
  - intros st r st' Hrun Hne. unfold uninstallInContext in Hrun.
    destruct (getSaveType opts) as [[|a s]|] eqn:Hs; simpl in Hrun.
    + injection Hrun as _ <-. done.
    + by exists (String a s).
    + injection Hrun as _ <-. done.
Qed.

End UninstallFacts.

Lemma uninstall_without_save_type_witness :
  uninstallInContext join_segments ["react"] (manifest "app" "1.0.0" None)
    sample_ctx (None : option string) (initial_state sample_ctx 0)
  = (Ok (), initial_state sample_ctx 0).
Proof.
  apply (uninstall_without_save_type join_segments ["react"]
           (manifest "app" "1.0.0" None) sample_ctx (None : option string)).
  by left.
Defined.

(** ** The hardlink phase *)

Lemma uniqBy_go_sublist {A} (fn : A → string) seen l :
  uniqBy_go fn seen l `sublist_of` l.
Proof.
  revert seen. induction l as [|x l IH]; intros seen; simpl; [done|].
  case_decide; [by apply sublist_cons | by apply sublist_skip].
Qed.

Lemma uniqBy_go_fresh {A} (fn : A → string) seen l x :
  x ∈ uniqBy_go fn seen l → fn x ∉ seen.
Proof.
  revert seen. induction l as [|y l IH]; intros seen; simpl.
  { by inversion 1. }
  case_decide as Hy; [by apply IH|].
  intros [->|Hin]%elem_of_cons; [done|].
  apply IH in Hin. set_solver.
Qed.

Lemma uniqBy_go_NoDup {A} (fn : A → string) seen l :
  NoDup (fn <$> uniqBy_go fn seen l).
Proof.
  revert seen. induction l as [|x l IH]; intros seen; simpl.
  { constructor. }
  case_decide as Hx; [by apply IH|].
  csimpl. constructor; [|by apply IH].
  intros (y & Hy & Hin)%list_elem_of_fmap.
  apply uniqBy_go_fresh in Hin. rewrite <- Hy in Hin. set_solver.
Qed.

Lemma uniqBy_go_complete {A} (fn : A → string) seen l x :
  x ∈ l → fn x ∉ seen → fn x ∈ fn <$> uniqBy_go fn seen l.
Proof.
  revert seen. induction l as [|y l IH]; intros seen; simpl.
  { by inversion 1. }
  intros [->|Hin]%elem_of_cons Hseen.
  - rewrite decide_False by done. csimpl. left.
  - case_decide as Hy; [by apply IH|]. csimpl.
    destruct (decide (fn x = fn y)) as [->|Hne]; [left|].
    right. apply IH; [done|]. set_solver.
Qed.

Lemma filter_none {A} (P : A → Prop) `{∀ x, Decision (P x)} (l : list A) :
  (∀ x, x ∈ l → ¬ P x) → filter P l = [].
Proof. intros HP. by apply length_zero_iff_nil, filter_key_none. Qed.

(** In a list without repeated keys, one key selects exactly one element. *)
Lemma NoDup_fmap_filter_length {A} (fn : A → string) (l : list A) loc :
  NoDup (fn <$> l) → loc ∈ fn <$> l →
  length (filter (λ x, fn x = loc) l) = 1.
Proof.
  induction l as [|x l IH]; csimpl; intros Hnd Hin; [by inversion Hin|].
  apply NoDup_cons in Hnd as [Hx Hnd].
  destruct (decide (fn x = loc)) as [<-|Hne].
  - rewrite filter_cons_True by done. simpl. f_equal.
    apply filter_key_none. intros y Hy Heq. apply Hx.
    apply list_elem_of_fmap. by exists y.
  - rewrite filter_cons_False by done. apply IH; [done|].
    by apply elem_of_cons in Hin as [?|?].
Qed.

Section LinkFacts.
Variable path_join : list string → string.
Context {World : Type} `{!FileSystem World}.

(** Deciding whether to link does not link. *)
Lemma needsLinking_trace w newlyFetched force pkgJsonPath dependency e :
  e ∈ (needsLinking path_join w newlyFetched force pkgJsonPath dependency).2 →
  is_LinkDir e = false.
Proof.
  unfold needsLinking, pkgLinkedToStore.
  destruct newlyFetched, force, (pathExists w pkgJsonPath); simpl;
    try by inversion 1.
  destruct (isSameFile _ _ _) as [[|]| |]; simpl; try by inversion 1.
  by intros ->%list_elem_of_singleton.
Qed.

(** The [linkDir] operations of one [linkPkg]: at most one, and to the
    hardlink target of its package. *)
Lemma linkPkg_links dependency force w :
  filter is_LinkDir (linkPkg path_join dependency force w).2 = [] ∨
  filter is_LinkDir (linkPkg path_join dependency force w).2 =
    [LinkDir (rt_path dependency) (rt_hardlinkedLocation dependency)].
Proof.
  unfold linkPkg. destruct (rt_fetchingFiles dependency) as [nf|]; [|by left].
  pose proof (needsLinking_trace w nf force
                (path_join [rt_hardlinkedLocation dependency; "package.json"])
                dependency) as Htr.
  destruct (needsLinking path_join _ _ _ _ _) as [[[|]| |] tr]; simpl in *.
  - right. rewrite filter_app, (filter_none is_LinkDir tr); [done|].
    intros ev He HP. by rewrite (Htr ev He) in HP.
  - left. apply filter_none. intros ev He HP. by rewrite (Htr ev He) in HP.
  - left. apply filter_none. intros ev He HP. by rewrite (Htr ev He) in HP.
  - left. apply filter_none. intros ev He HP. by rewrite (Htr ev He) in HP.
Qed.

Lemma linkPkg_links_forced dependency w w' :
  (linkPkg path_join dependency true w).1 = Ok w' →
  filter is_LinkDir (linkPkg path_join dependency true w).2 =
    [LinkDir (rt_path dependency) (rt_hardlinkedLocation dependency)].
Proof.
  unfold linkPkg, needsLinking.
  destruct (rt_fetchingFiles dependency) as [[|]|]; simpl; done.
Qed.

Lemma filter_LinkDir_to loc (tr : list fs_event) :
  filter (is_LinkDir_to loc) tr =
    filter (is_LinkDir_to loc) (filter is_LinkDir tr).
Proof.
  induction tr as [|[l|src dest] tr IH]; [done| |].
  - rewrite (filter_cons_False is_LinkDir) by (by intros []).
    by rewrite filter_cons_False by (by intros []).
  - rewrite (filter_cons_True is_LinkDir) by done.
    rewrite !filter_cons. by rewrite IH.
Qed.

Lemma length_filter_LinkDir_to_single loc src dest :
  length (filter (is_LinkDir_to loc) [LinkDir src dest]) =
    if decide (dest = loc) then 1 else 0.
Proof.
  rewrite filter_cons, filter_nil. simpl.
  destruct (decide (dest = loc)) as [Heq|Hne].
  - by rewrite decide_True by (by apply bool_decide_pack).
  - by rewrite decide_False by (by intros ?%bool_decide_unpack).
Qed.

Lemma linkPkg_links_to dependency force w loc :
  length (filter (is_LinkDir_to loc) (linkPkg path_join dependency force w).2) ≤
    if decide (rt_hardlinkedLocation dependency = loc) then 1 else 0.
Proof.
  rewrite filter_LinkDir_to.
  destruct (linkPkg_links dependency force w) as [-> | ->]; simpl.
  { lia. }
  by rewrite length_filter_LinkDir_to_single.
Qed.

Lemma linkAllPkgs_links_to alldeps force w loc :
  length (filter (is_LinkDir_to loc) (linkAllPkgs path_join alldeps force w).2) ≤
    length (filter (λ d, rt_hardlinkedLocation d = loc) alldeps).
Proof.
  revert w. induction alldeps as [|pkg rest IH]; intros w; simpl; [done|].
  pose proof (linkPkg_links_to pkg force w loc) as Hone.
  specialize (IH (worldAfter (linkPkg path_join pkg force w).1 w)).
  rewrite filter_cons, filter_app, length_app.
  case_decide; simpl; lia.
Qed.

(** A forced [linkPkg] asks for the hardlink and for nothing else. *)
Lemma linkPkg_trace_forced dependency w :
  (linkPkg path_join dependency true w).2 = forcedLink dependency.
Proof.
  unfold linkPkg, needsLinking, forcedLink.
  by destruct (rt_fetchingFiles dependency) as [[|]|].
Qed.

Lemma linkAllPkgs_trace_forced alldeps w :
  (linkAllPkgs path_join alldeps true w).2 = alldeps ≫= forcedLink.
Proof.
  revert w. induction alldeps as [|pkg rest IH]; intros w; [done|].
  simpl. by rewrite linkPkg_trace_forced, IH.
Qed.

(** A batch is fulfilled exactly when each of its tasks is. *)
Lemma firstRejection_Ok {A} (r rest : outcome A) :
  (∃ a, firstRejection r rest = Ok a) ↔ (∃ a, r = Ok a) ∧ (∃ a, rest = Ok a).
Proof.
  destruct r; simpl.
  - split; [intros [? ->]; eauto | by intros [_ ?]].
  - split; [by intros [? ?] | by intros [[? ?] _]].
  - split; [by intros [? ?] | by intros [[? ?] _]].
Qed.

(** The runs of [linkPkg] that make up a run of [linkAllPkgs]: one for
    every element, in order, each on the file system the tasks before it
    left. *)
Lemma linkAllPkgs_runs alldeps force w :
  ∃ ws : list World,
    length ws = length alldeps ∧
    (∀ w0, ws !! 0 = Some w0 → w0 = w) ∧
    (∀ i d wi wi',
       alldeps !! i = Some d → ws !! i = Some wi → ws !! S i = Some wi' →
       wi' = worldAfter (linkPkg path_join d force wi).1 wi) ∧
    (linkAllPkgs path_join alldeps force w).2 =
      concat (zip_with (λ d wi, (linkPkg path_join d force wi).2) alldeps ws) ∧
    ((∃ w', (linkAllPkgs path_join alldeps force w).1 = Ok w') ↔
     ∀ i d wi, alldeps !! i = Some d → ws !! i = Some wi →
       ∃ w', (linkPkg path_join d force wi).1 = Ok w').
Proof.
  revert w. induction alldeps as [|pkg rest IH]; intros w.
  { exists []. simpl. split_and!; try done. split; [done|]. eauto. }
  destruct (IH (worldAfter (linkPkg path_join pkg force w).1 w))
    as (ws & Hlen & Hhead & Hnext & Htrace & Hok).
  exists (w :: ws). split_and!.
  - simpl. by rewrite Hlen.
  - intros w0 [= <-]. done.
  - intros [|i] d wi wi' Hd Hwi Hwi'; simpl in *.
    + injection Hd as <-. injection Hwi as <-. by apply Hhead.
    + by eapply Hnext.
  - simpl. by rewrite Htrace.
  - cbn [linkAllPkgs fst]. rewrite firstRejection_Ok, Hok. split.
    + intros [Hhere Hrest] [|i] d wi Hd Hwi; simpl in *.
      * by injection Hd as <-; injection Hwi as <-.
      * by eapply Hrest.
    + intros Hall. split.
      * by apply (Hall 0).
      * intros i d wi Hd Hwi. by apply (Hall (S i)).
Qed.

(** A package that was newly fetched is linked, whatever the file system
    holds and whatever happens to the other tasks. *)
Lemma linkAllPkgs_links_fetched alldeps force w d :
  d ∈ alldeps → rt_fetchingFiles d = Resolved true →
  LinkDir (rt_path d) (rt_hardlinkedLocation d)
    ∈ (linkAllPkgs path_join alldeps force w).2.
Proof.
  intros Hd Hff. revert w.
  induction alldeps as [|pkg rest IH]; intros w; [by inversion Hd|].
  cbn [linkAllPkgs snd]. apply elem_of_app.
  apply elem_of_cons in Hd as [<-|Hd].
  - left. unfold linkPkg, needsLinking. rewrite Hff. simpl. left.
  - right. by apply IH.
Qed.

(** C6. The nodes handed to the hardlink phase are deduplicated by
    [hardlinkedLocation]: the list passed to [linkAllPkgs] is a sublist of
    the flat list without two nodes of the same target, and holds exactly
    one node for every target of the flat list. The phase runs [linkPkg]
    once for every node of that list and for nothing else: its trace is,
    node after node, the trace of one run of [linkPkg] on the file system
    the tasks before it left, and it is fulfilled exactly when every one of
    these runs is. So, whatever the file system and [force], no run links
    into a target more than once and a newly fetched package is linked; a
    forced run asks for exactly the hardlinks of the kept nodes whose
    content was fetched, in order, and for nothing else. *)
Theorem hardlink_dedup (flatResolvedDeps : list ResolvedDependencyTree) :
  let deps := uniqBy rt_hardlinkedLocation flatResolvedDeps in
  deps `sublist_of` flatResolvedDeps ∧
  NoDup (rt_hardlinkedLocation <$> deps) ∧
  (∀ loc, loc ∈ rt_hardlinkedLocation <$> flatResolvedDeps →
     length (filter (λ d, rt_hardlinkedLocation d = loc) deps) = 1) ∧
  (∀ force w,
     ∃ ws : list World,
       length ws = length deps ∧
       (∀ w0, ws !! 0 = Some w0 → w0 = w) ∧
       (∀ i d wi wi',
          deps !! i = Some d → ws !! i = Some wi → ws !! S i = Some wi' →
          wi' = worldAfter (linkPkg path_join d force wi).1 wi) ∧
       (hardlinkPhase path_join flatResolvedDeps force w).2 =
         concat (zip_with (λ d wi, (linkPkg path_join d force wi).2) deps ws) ∧
       ((∃ w', (hardlinkPhase path_join flatResolvedDeps force w).1 = Ok w') ↔
        ∀ i d wi, deps !! i = Some d → ws !! i = Some wi →
          ∃ w', (linkPkg path_join d force wi).1 = Ok w')) ∧
  (∀ force w loc,
     length (filter (is_LinkDir_to loc)
               (hardlinkPhase path_join flatResolvedDeps force w).2) ≤ 1) ∧
  (∀ force w d,
     d ∈ deps → rt_fetchingFiles d = Resolved true →
     LinkDir (rt_path d) (rt_hardlinkedLocation d)
       ∈ (hardlinkPhase path_join flatResolvedDeps force w).2) ∧
  (∀ w,
     (hardlinkPhase path_join flatResolvedDeps true w).2 = deps ≫= forcedLink).
Proof.
  intros deps.
  assert (Hnd : NoDup (rt_hardlinkedLocation <$> deps))
    by apply uniqBy_go_NoDup.
  assert (Hone : ∀ loc, loc ∈ rt_hardlinkedLocation <$> flatResolvedDeps →
            length (filter (λ d, rt_hardlinkedLocation d = loc) deps) = 1).
  { intros loc (d & -> & Hd)%list_elem_of_fmap.
    apply NoDup_fmap_filter_length; [done|].
    apply uniqBy_go_complete; [done|]. by inversion 1. }
  split_and!; [apply uniqBy_go_sublist | done | done | | | |].
  - intros force w. apply linkAllPkgs_runs.
  - intros force w loc. unfold hardlinkPhase. fold deps.
    etrans; [apply linkAllPkgs_links_to|].
    destruct (decide (loc ∈ rt_hardlinkedLocation <$> deps)) as [Hin|Hout].
    + by rewrite NoDup_fmap_filter_length.
    + rewrite filter_key_none; [lia|]. intros d Hd Heq. apply Hout.
      apply list_elem_of_fmap. by exists d.
  - intros force w d Hd Hff. by apply linkAllPkgs_links_fetched.
  - intros w. apply linkAllPkgs_trace_forced.
Qed.

(** C7. For a package whose content is ready, on a file system where an
    existing target manifest can be inspected and the store holds the
    package's manifest: [linkPkg] hardlinks the store path into
    [hardlinkedLocation] if and only if the content was newly fetched, or
    [force] is set, or the target has no [package.json], or that
    [package.json] is not the same file (by inode) as the store's.
    Otherwise it does nothing at all: no operation, no log line, the file
    system as it was. In particular a run against a target that is
    already linked, unforced and not freshly fetched, is such a run. *)
Theorem linkPkg_relinks_iff dependency force w newlyFetched :
  rt_fetchingFiles dependency = Resolved newlyFetched →
  let target := path_join [rt_hardlinkedLocation dependency; "package.json"] in
  let store := path_join [rt_path dependency; "package.json"] in
  (pathExists w target = true → is_Some (stat_ino w target)) →
  is_Some (stat_ino w store) →
  (stale w newlyFetched force target store →
     ∃ log,
       (∀ e, e ∈ log → is_LinkDir e = false) ∧
       linkPkg path_join dependency force w =
         (linkDir (rt_path dependency) (rt_hardlinkedLocation dependency) w,
          log ++ [LinkDir (rt_path dependency)
                    (rt_hardlinkedLocation dependency)])) ∧
  (¬ stale w newlyFetched force target store →
     linkPkg path_join dependency force w = (Ok w, [])) ∧
  (length (filter is_LinkDir (linkPkg path_join dependency force w).2) = 1 ↔
     stale w newlyFetched force target store) ∧
  (newlyFetched = false → force = false → pathExists w target = true →
   stat_ino w target = stat_ino w store →
   linkPkg path_join dependency force w = (Ok w, [])).
Proof.
  intros Hff target store Hex Hst.
  assert (Hcases :
    (stale w newlyFetched force target store ∧
     ∃ log,
       (∀ e, e ∈ log → is_LinkDir e = false) ∧
       linkPkg path_join dependency force w =
         (linkDir (rt_path dependency) (rt_hardlinkedLocation dependency) w,
          log ++ [LinkDir (rt_path dependency)
                    (rt_hardlinkedLocation dependency)])) ∨
    (¬ stale w newlyFetched force target store ∧
     linkPkg path_join dependency force w = (Ok w, []))).
  { unfold linkPkg, needsLinking, pkgLinkedToStore, isSameFile, stale.
    rewrite Hff. fold target store.
    destruct newlyFetched.
    { left. split; [by left|]. exists []. split; [by inversion 1|done]. }
    destruct force.
    { left. split; [by right; left|]. exists [].
      split; [by inversion 1|done]. }
    destruct (pathExists w target) eqn:Hpe; simpl.
    2: { left. split; [by right; right; left|]. exists [].
         split; [by inversion 1|done]. }
    destruct (Hex eq_refl) as [ino1 Hino1]. destruct Hst as [ino2 Hino2].
    rewrite Hino1, Hino2.
    destruct (decide (ino1 = ino2)) as [->|Hne].
    - right. rewrite bool_decide_eq_true_2 by done. simpl.
      split; [|done]. intros [?|[?|[?|?]]]; done.
    - left. rewrite bool_decide_eq_false_2 by done. simpl.
      split; [right; right; right; congruence|].
      eexists [_]. split; [|done].
      by intros e ->%list_elem_of_singleton. }
  split_and!.
  - intros Hs. by destruct Hcases as [[_ ?]|[? _]].
  - intros Hs. by destruct Hcases as [[? _]|[_ ?]].
  - destruct Hcases as [[Hs (log & Hlog & ->)]|[Hs ->]]; simpl.
    + split; [done|]. intros _. rewrite filter_app, (filter_none _ log).
      * done.
      * intros e He HP. by rewrite (Hlog e He) in HP.
    + split; [done|]. intros ?. done.
  - intros -> -> Hpe Hino. destruct Hcases as [[Hs _]|[_ ?]]; [|done].
    by destruct Hs as [?|[?|[?|?]]]; congruence.
Qed.

End LinkFacts.

Lemma linkPkg_relinks_iff_witness :
  linkPkg join_segments resolved_react false linked_world
    = (Ok linked_world, []).
Proof.
  apply (linkPkg_relinks_iff join_segments resolved_react false linked_world
           false).
  - reflexivity.
  - intros _. vm_compute. eauto.
  - vm_compute. eauto.
  - reflexivity.
  - reflexivity.
  - vm_compute. reflexivity.
  - vm_compute. reflexivity.
Defined.

(** The resolved map of the cycle A→B→A has three nodes; [A] and [A/B/A]
    share their hardlink target, and a forced hardlink phase on a store that
    holds both packages is fulfilled and links each of the two targets
    once. *)
Example hardlink_dedup_cycle :
  let flat := (map_to_list cycleResolved.1).*2 in
  let trace :=
    (hardlinkPhase join_segments flat true cycle_store).2 in
  length flat = 3 ∧
  length (uniqBy rt_hardlinkedLocation flat) = 2 ∧
  (if (hardlinkPhase join_segments flat true cycle_store).1 is Ok _
   then True else False) ∧
  length (filter is_LinkDir trace) = 2 ∧
  length (filter (is_LinkDir_to "node_modules/.A/node_modules/A") trace) = 1 ∧
  length (filter (is_LinkDir_to "node_modules/.B/node_modules/B") trace) = 1.
Proof. vm_compute. by split_and!. Qed.

(** A task that is rejected does not stop the others: with the content of
    [A] failing to arrive, the phase is rejected and [B] is linked all the
    same. *)
Example hardlink_phase_rejected :
  let unfetched d :=
    {| rt_name := rt_name d;
       rt_hasBundledDependencies := rt_hasBundledDependencies d;
       rt_path := rt_path d; rt_modules := rt_modules d;
       rt_peerModules := rt_peerModules d; rt_fetchingFiles := Rejected;
       rt_hardlinkedLocation := rt_hardlinkedLocation d;
       rt_children := rt_children d; rt_resolvedPeers := rt_resolvedPeers d;
       rt_depth := rt_depth d; rt_id := rt_id d |} in
  let flat :=
    (λ d, if decide (rt_name d = "A") then unfetched d else d)
      <$> (map_to_list cycleResolved.1).*2 in
  hardlinkPhase join_segments
    (merge_sort (λ a b, rt_depth a ≤ rt_depth b) flat) true cycle_store =
    (Thrown PromiseRejected,
     [LinkDir "store/B" "node_modules/.B/node_modules/B"]).
Proof. by vm_compute. Qed.


(** ** Tree Builder: termination and cycles *)

Lemma aperture2_cons x y l : aperture2 (x :: y :: l) = (x, y) :: aperture2 (y :: l).
Proof. done. Qed.

Lemma elem_of_aperture2 p l :
  p ∈ aperture2 l ↔ ∃ l1 l2, l = l1 ++ p.1 :: p.2 :: l2.
Proof.
  induction l as [|x l IH].
  { split; [by inversion 1|]. by intros ([|??] & ? & ?). }
  destruct l as [|y l].
  { split; [by inversion 1|]. intros ([|? [|??]] & ? & ?); done. }
  rewrite aperture2_cons, elem_of_cons, IH. split.
  - intros [->|(l1 & l2 & ->)].
    + by exists [], l.
    + by exists (x :: l1), l2.
  - intros ([|x' l1] & l2 & Heq); simplify_eq/=.
    + left. by destruct p.
    + right. eauto.
Qed.

Lemma aperture2_app_l p l l' : p ∈ aperture2 l → p ∈ aperture2 (l ++ l').
Proof.
  rewrite !elem_of_aperture2. intros (l1 & l2 & ->).
  exists l1, (l2 ++ l'). by rewrite <- !app_assoc.
Qed.

Lemma aperture2_last_two l x y : (x, y) ∈ aperture2 (l ++ [x; y]).
Proof. apply elem_of_aperture2. by exists l, []. Qed.

Lemma elem_of_getNonCircularDependencies parentId dependencyIds keypath depId :
  depId ∈ getNonCircularDependencies parentId dependencyIds keypath ↔
  depId ∈ dependencyIds ∧ (parentId, depId) ∉ aperture2 keypath.
Proof.
  unfold getNonCircularDependencies. rewrite list_elem_of_filter. tauto.
Qed.

Lemma elem_of_edges pkgsMap k pkg depId :
  pkgsMap !! k = Some pkg → depId ∈ lp_dependencies pkg →
  (lp_id pkg, depId) ∈ edges pkgsMap.
Proof.
  intros Hk Hd. unfold edges. apply elem_of_list_to_set, list_elem_of_bind.
  exists (k, pkg). split; [|by apply elem_of_map_to_list].
  apply list_elem_of_fmap. by exists depId.
Qed.

(** Descending two levels records one more edge in the keypath. *)
Lemma uncut_descend pkgsMap keypath x y :
  (x, y) ∈ edges pkgsMap → (x, y) ∉ aperture2 keypath →
  uncut pkgsMap (keypath ++ [x; y]) < uncut pkgsMap keypath.
Proof.
  intros He Hn. unfold uncut. apply subset_size.
  assert ((x, y) ∈ aperture2 (keypath ++ [x; y])) by apply aperture2_last_two.
  assert (∀ p, p ∈ aperture2 keypath → p ∈ aperture2 (keypath ++ [x; y]))
    by (intros; by apply aperture2_app_l).
  split.
  - intros p. rewrite !elem_of_difference, !elem_of_list_to_set.
    intros [? Hp]. split; [done|]. intros ?. apply Hp. auto.
  - intros Hsub.
    assert ((x, y) ∈ edges pkgsMap ∖ list_to_set (aperture2 (keypath ++ [x; y])))
      as Hin.
    { apply Hsub. rewrite elem_of_difference, elem_of_list_to_set. done. }
    rewrite elem_of_difference, elem_of_list_to_set in Hin. by destruct Hin.
Qed.

Section TreeTermination.
Variable pkgsMap : gmap string LinkedPackage.

Lemma createTreeList_terminates rec pkgIds keypath treeMap :
  (∀ pkgId pkg treeMap',
      pkgId ∈ pkgIds → pkgsMap !! pkgId = Some pkg →
      rec (getNonCircularDependencies (lp_id pkg) (lp_dependencies pkg) keypath)
          (keypath ++ [lp_id pkg]) treeMap' ≠ OutOfFuel) →
  createTreeList rec pkgsMap pkgIds keypath treeMap ≠ OutOfFuel.
Proof.
  revert treeMap. induction pkgIds as [|pkgId rest IH]; intros treeMap Hrec.
  { done. }
  simpl. destruct (pkgsMap !! pkgId) as [pkg|] eqn:Hpkg; [|done].
  unfold createTreeNode.
  pose proof (Hrec pkgId pkg treeMap (list_elem_of_here _ _) Hpkg) as Hnode.
  destruct (rec _ _ treeMap) as [[children treeMap1]| |]; [|done..].
  cbn [mbind outcome_bind].
  assert (createTreeList rec pkgsMap rest keypath
            (<[String.concat "/" (keypath ++ [lp_id pkg]) :=
                 treeNodeOf pkg keypath
                   (String.concat "/" (keypath ++ [lp_id pkg])) children]>
               treeMap1) ≠ OutOfFuel)
    as Hrest.
  { apply IH. intros ??? Hin. apply Hrec. by right. }
  by destruct (createTreeList rec pkgsMap rest keypath _) as [[??]| |].
Qed.

Hypothesis Hkeys : ids_are_keys pkgsMap.

(** The recursion is at most twice as deep as there are edges left to
    record in the keypath. *)
Lemma createTree_terminates_within n : ∀ pkgIds keypath treeMap,
  uncut pkgsMap keypath ≤ n →
  createTree (2 * n + 2) pkgsMap pkgIds keypath treeMap ≠ OutOfFuel.
Proof.
  induction n as [|n IH]; intros pkgIds keypath treeMap Hn.
  - simpl. apply createTreeList_terminates.
    intros pkgId pkg treeMap' _ Hpkg. simpl.
    apply createTreeList_terminates.
    intros depId dep treeMap'' [Hdep Hcut]%elem_of_getNonCircularDependencies _.
    pose proof (elem_of_edges _ _ _ _ Hpkg Hdep) as He.
    assert (uncut pkgsMap keypath ≠ 0); [|lia].
    unfold uncut. apply size_non_empty_iff. intros Hempty.
    assert ((lp_id pkg, depId) ∈
              edges pkgsMap ∖ list_to_set (aperture2 keypath)) as Hin.
    { by rewrite elem_of_difference, elem_of_list_to_set. }
    rewrite Hempty in Hin. by apply not_elem_of_empty in Hin.
  - replace (2 * S n + 2) with (S (S (2 * n + 2))) by lia.
    simpl. apply createTreeList_terminates.
    intros pkgId pkg treeMap' _ Hpkg.
    apply createTreeList_terminates.
    intros depId dep treeMap'' [Hdep Hcut]%elem_of_getNonCircularDependencies
      Hdepm.
    pose proof (elem_of_edges _ _ _ _ Hpkg Hdep) as He.
    rewrite (Hkeys _ _ Hdepm), <- app_assoc. simpl.
    replace (n + (n + 0) + 2) with (2 * n + 2) by lia.
    apply IH.
    pose proof (uncut_descend pkgsMap keypath _ _ He Hcut). lia.
Qed.

End TreeTermination.

(** More fuel does not change a result that was reached. *)
Lemma createTreeList_more_fuel rec1 rec2 pkgsMap pkgIds keypath treeMap :
  (∀ ids kp tm, rec1 ids kp tm ≠ OutOfFuel → rec2 ids kp tm = rec1 ids kp tm) →
  createTreeList rec1 pkgsMap pkgIds keypath treeMap ≠ OutOfFuel →
  createTreeList rec2 pkgsMap pkgIds keypath treeMap =
    createTreeList rec1 pkgsMap pkgIds keypath treeMap.
Proof.
  intros Hrec. revert treeMap.
  induction pkgIds as [|pkgId rest IH]; intros treeMap; [done|].
  simpl. destruct (pkgsMap !! pkgId) as [pkg|]; [|done].
  unfold createTreeNode.
  destruct (rec1 _ _ treeMap) as [[children treeMap1]| |] eqn:H1.
  - rewrite Hrec, H1 by (by rewrite H1). cbn [mbind outcome_bind].
    intros Hrest. rewrite IH; [done|].
    by destruct (createTreeList rec1 pkgsMap rest keypath _) as [[??]| |].
  - rewrite Hrec, H1 by (by rewrite H1). done.
  - done.
Qed.

Lemma createTree_more_fuel pkgsMap fuel fuel' pkgIds keypath treeMap :
  fuel ≤ fuel' →
  createTree fuel pkgsMap pkgIds keypath treeMap ≠ OutOfFuel →
  createTree fuel' pkgsMap pkgIds keypath treeMap =
    createTree fuel pkgsMap pkgIds keypath treeMap.
Proof.
  revert fuel' pkgIds keypath treeMap.
  induction fuel as [|fuel IH]; intros fuel' pkgIds keypath treeMap Hle;
    [done|].
  destruct fuel' as [|fuel']; [lia|]. simpl.
  apply createTreeList_more_fuel. intros ids kp tm. apply IH. lia.
Qed.

Lemma createTree_terminates pkgsMap pkgIds keypath treeMap :
  ids_are_keys pkgsMap →
  ∃ fuel, ∀ fuel', fuel ≤ fuel' →
    createTree fuel' pkgsMap pkgIds keypath treeMap ≠ OutOfFuel.
Proof.
  intros Hkeys. exists (2 * uncut pkgsMap keypath + 2). intros fuel' Hle.
  rewrite (createTree_more_fuel _ _ _ _ _ _ Hle);
    by apply createTree_terminates_within.
Qed.

(** Nothing is thrown when no package is missing. *)
Lemma createTreeList_no_throw rec pkgsMap pkgIds keypath treeMap e :
  (∀ pkgId pkg treeMap',
      pkgId ∈ pkgIds → pkgsMap !! pkgId = Some pkg →
      rec (getNonCircularDependencies (lp_id pkg) (lp_dependencies pkg) keypath)
          (keypath ++ [lp_id pkg]) treeMap' ≠ Thrown e) →
  Forall (λ i, is_Some (pkgsMap !! i)) pkgIds →
  createTreeList rec pkgsMap pkgIds keypath treeMap ≠ Thrown e.
Proof.
  revert treeMap.
  induction pkgIds as [|pkgId rest IH]; intros treeMap Hrec Hall; [done|].
  apply Forall_cons in Hall as [[pkg Hpkg] Hall].
  simpl. rewrite Hpkg. unfold createTreeNode.
  pose proof (Hrec pkgId pkg treeMap (list_elem_of_here _ _) Hpkg) as Hnode.
  destruct (rec _ _ treeMap) as [[children treeMap1]| |]; [|done..].
  cbn [mbind outcome_bind].
  assert (createTreeList rec pkgsMap rest keypath
            (<[String.concat "/" (keypath ++ [lp_id pkg]) :=
                 treeNodeOf pkg keypath
                   (String.concat "/" (keypath ++ [lp_id pkg])) children]>
               treeMap1) ≠ Thrown e)
    as Hrest.
  { apply IH; [|done]. intros ??? Hin. apply Hrec. by right. }
  by destruct (createTreeList rec pkgsMap rest keypath _) as [[??]| |].
Qed.

Lemma createTree_no_throw pkgsMap fuel : ∀ pkgIds keypath treeMap e,
  dependencies_closed pkgsMap →
  Forall (λ i, is_Some (pkgsMap !! i)) pkgIds →
  createTree fuel pkgsMap pkgIds keypath treeMap ≠ Thrown e.
Proof.
  induction fuel as [|fuel IH]; intros pkgIds keypath treeMap e Hclosed Hall;
    [done|].
  simpl. apply createTreeList_no_throw; [|done].
  intros pkgId pkg treeMap' _ Hpkg. apply IH; [done|].
  apply Forall_forall. intros depId [Hdep _]%elem_of_getNonCircularDependencies.
  by apply (proj1 (Forall_forall _ _) (Hclosed _ _ Hpkg)).
Qed.

Lemma createTree_returns pkgsMap pkgIds keypath treeMap :
  ids_are_keys pkgsMap → dependencies_closed pkgsMap →
  Forall (λ i, is_Some (pkgsMap !! i)) pkgIds →
  ∃ fuel, ∀ fuel', fuel ≤ fuel' →
    ∃ r, createTree fuel' pkgsMap pkgIds keypath treeMap = Ok r.
Proof.
  intros Hkeys Hclosed Hall.
  destruct (createTree_terminates pkgsMap pkgIds keypath treeMap Hkeys)
    as [fuel Hfuel].
  exists fuel. intros fuel' Hle. specialize (Hfuel fuel' Hle).
  pose proof (createTree_no_throw pkgsMap fuel' pkgIds keypath treeMap) as Hno.
  destruct (createTree fuel' pkgsMap pkgIds keypath treeMap) as [r|e|];
    [by exists r| |done].
  by destruct (Hno e).
Qed.

(** *** The direct cycle A→B→A *)

Lemma string_length_app (s1 s2 : string) :
  String.length (s1 +:+ s2) = String.length s1 + String.length s2.
Proof. induction s1 as [|a s1 IH]; simpl; [done|]. by rewrite IH. Qed.


Section DirectCycle.
Variable pkgsMap : gmap string LinkedPackage.
Variables (A B : string) (pa pb : LinkedPackage).
Hypothesis Hkeys : ids_are_keys pkgsMap.
Hypothesis HA : pkgsMap !! A = Some pa.
Hypothesis HB : pkgsMap !! B = Some pb.


Hypothesis HdepsA : lp_dependencies pa = [B].
Hypothesis HdepsB : lp_dependencies pb = [A].


End DirectCycle.



Lemma cycleAB_ids_are_keys : ids_are_keys cycleAB.
Proof.
  intros k pkg. unfold cycleAB.
  rewrite !lookup_insert_Some, lookup_empty. naive_solver.
Qed.




(** ** Completeness of the resolved map *)

Lemma treeEntries_cons fuel pkgsMap pkgId rest keypath :
  treeEntries (S fuel) pkgsMap (pkgId :: rest) keypath =
    match pkgsMap !! pkgId with
    | None => []
    | Some pkg =>
        (keypath ++ [lp_id pkg], nodeAt keypath pkg)
        :: treeEntries fuel pkgsMap
             (getNonCircularDependencies (lp_id pkg) (lp_dependencies pkg)
                keypath)
             (keypath ++ [lp_id pkg])
    end ++ treeEntries (S fuel) pkgsMap rest keypath.
Proof. done. Qed.

Lemma treeEntries_nil fuel pkgsMap keypath :
  treeEntries fuel pkgsMap [] keypath = [].
Proof. by destruct fuel. Qed.

Section TreeShape.
Variable pkgsMap : gmap string LinkedPackage.
Hypothesis Hkeys : ids_are_keys pkgsMap.

(** What [createTree] returns and what it leaves in the tree map. *)
Lemma createTree_spec fuel : ∀ pkgIds keypath treeMap rootNodeIds treeMap',
  createTree fuel pkgsMap pkgIds keypath treeMap = Ok (rootNodeIds, treeMap') →
  rootNodeIds = (λ pkgId, String.concat "/" (keypath ++ [pkgId])) <$> pkgIds ∧
  treeComplete fuel pkgsMap pkgIds keypath ∧
  dom treeMap' =
    dom treeMap ∪
    list_to_set ((λ e, String.concat "/" e.1) <$>
                   treeEntries fuel pkgsMap pkgIds keypath) ∧
  (∀ k node, treeMap' !! k = Some node →
     treeMap !! k = Some node ∨
     ∃ kp, (kp, node) ∈ treeEntries fuel pkgsMap pkgIds keypath ∧
           k = String.concat "/" kp).
Proof.
  induction fuel as [|fuel IHfuel]; [done|].
  intros pkgIds keypath.
  induction pkgIds as [|pkgId rest IHrest];
    intros treeMap rootNodeIds treeMap' Hrun.
  { injection Hrun as <- <-. split_and!; [done|by constructor| |by left].
    rewrite treeEntries_nil. set_solver. }
  cbn [createTree createTreeList] in Hrun.
  destruct (pkgsMap !! pkgId) as [pkg|] eqn:Hpkg; [|done].
  pose proof (Hkeys _ _ Hpkg) as Hid.
  unfold createTreeNode in Hrun.
  destruct (createTree fuel pkgsMap _ _ treeMap) as [[children treeMap1]| |]
    eqn:Hchildren; [|done..].
  cbn [mbind outcome_bind] in Hrun.
  destruct (createTreeList _ pkgsMap rest keypath _) as [[ids treeMap2]| |]
    eqn:Hrest; [|done..].
  cbn [mbind outcome_bind] in Hrun. injection Hrun as <- <-.
  apply IHfuel in Hchildren as (Hkids & Hcomplete & Hdom1 & Hlook1).
  apply (IHrest _ ids treeMap2) in Hrest as (Hids & Hcompl2 & Hdom2 & Hlook2).
  assert (treeNodeOf pkg keypath (String.concat "/" (keypath ++ [lp_id pkg]))
            children = nodeAt keypath pkg) as Hnode.
  { unfold nodeAt. f_equal. rewrite Hkids. apply list_fmap_ext.
    intros _ depId _. by rewrite <- app_assoc. }
  rewrite Hnode in Hdom2, Hlook2.
  rewrite treeEntries_cons, Hpkg. split_and!.
  - rewrite Hids, Hid. done.
  - constructor; [|done]. eauto.
  - rewrite Hdom2, dom_insert_L, Hdom1. rewrite fmap_app, fmap_cons. simpl.
    rewrite list_to_set_app_L. simpl. set_solver.
  - intros k node [Hk|(kp & Hin & ->)]%Hlook2.
    + apply lookup_insert_Some in Hk as [[<- <-]|[Hne Hk]].
      * right. exists (keypath ++ [lp_id pkg]). split; [left|done].
      * apply Hlook1 in Hk as [?|(kp & Hin & ->)]; [by left|].
        right. exists kp. split; [|done]. right. apply elem_of_app. by left.
    + right. exists kp. split; [|done]. right. apply elem_of_app. by right.
Qed.

Lemma elem_of_treeEntries_S fuel pkgIds keypath e :
  e ∈ treeEntries (S fuel) pkgsMap pkgIds keypath ↔
  ∃ pkgId pkg,
    pkgId ∈ pkgIds ∧ pkgsMap !! pkgId = Some pkg ∧
    (e = (keypath ++ [lp_id pkg], nodeAt keypath pkg) ∨
     e ∈ treeEntries fuel pkgsMap
           (getNonCircularDependencies (lp_id pkg) (lp_dependencies pkg) keypath)
           (keypath ++ [lp_id pkg])).
Proof using Type.
  cbn [treeEntries]. rewrite list_elem_of_bind. split.
  - intros (pkgId & He & Hin).
    destruct (pkgsMap !! pkgId) as [pkg|] eqn:Hpkg; [|by inversion He].
    apply elem_of_cons in He. by exists pkgId, pkg.
  - intros (pkgId & pkg & Hin & Hpkg & He). exists pkgId.
    rewrite Hpkg. split; [|done]. by apply elem_of_cons.
Qed.

(** Every keypath created below [keypath] extends it by ids of the map. *)
Lemma treeEntries_prefix fuel : ∀ pkgIds keypath kp node,
  (kp, node) ∈ treeEntries fuel pkgsMap pkgIds keypath →
  ∃ pkgId rest,
    pkgId ∈ pkgIds ∧ kp = keypath ++ pkgId :: rest ∧
    Forall (λ i, is_Some (pkgsMap !! i)) (pkgId :: rest).
Proof using Hkeys.
  induction fuel as [|fuel IH]; intros pkgIds keypath kp node.
  { by inversion 1. }
  intros (pkgId & pkg & Hin & Hpkg & [He|He])%elem_of_treeEntries_S.
  - injection He as -> ->. rewrite (Hkeys _ _ Hpkg).
    exists pkgId, []. split_and!; [done..|]. constructor; [eauto|constructor].
  - apply IH in He as (depId & rest & Hdep & -> & Hall).
    rewrite (Hkeys _ _ Hpkg), <- app_assoc.
    exists pkgId, (depId :: rest). split_and!; [done..|]. constructor; eauto.
Qed.

Lemma fmap_bind_comm {X Y Z} (f : Y → Z) (g : X → list Y) (l : list X) :
  f <$> (l ≫= g) = l ≫= (λ x, f <$> g x).
Proof.
  induction l as [|x l IH]; [done|]. by rewrite !bind_cons, fmap_app, IH.
Qed.

Hypothesis Hnorepeat : no_repeated_dependency pkgsMap.

(** Distinct nodes have distinct keypaths. *)
Lemma treeEntries_NoDup fuel : ∀ pkgIds keypath,
  NoDup pkgIds → NoDup (treeEntries fuel pkgsMap pkgIds keypath).*1.
Proof using Hkeys Hnorepeat.
  induction fuel as [|fuel IH]; intros pkgIds keypath Hnd; [constructor|].
  cbn [treeEntries]. rewrite fmap_bind_comm. apply NoDup_bind; [| |done].
  - intros i1 i2 kp Hi1 Hi2 Hkp1 Hkp2.
    assert (∀ i, kp ∈ (match pkgsMap !! i with
                       | Some pkg =>
                           (keypath ++ [lp_id pkg], nodeAt keypath pkg)
                           :: treeEntries fuel pkgsMap
                                (getNonCircularDependencies (lp_id pkg)
                                   (lp_dependencies pkg) keypath)
                                (keypath ++ [lp_id pkg])
                       | None => []
                       end).*1 →
                 ∃ rest, kp = keypath ++ i :: rest) as Hprefix.
    { intros i ([kp' node] & -> & Hin)%list_elem_of_fmap.
      assert ((kp', node) ∈ treeEntries (S fuel) pkgsMap [i] keypath) as Hin'.
      { cbn [treeEntries]. by rewrite bind_singleton. }
      apply treeEntries_prefix in Hin' as (i' & rest & ->%list_elem_of_singleton & -> & _).
      by exists rest. }
    destruct (Hprefix _ Hkp1) as (r1 & ->).
    destruct (Hprefix _ Hkp2) as (r2 & Heq).
    apply app_inv_head in Heq. by injection Heq.
  - intros pkgId _. destruct (pkgsMap !! pkgId) as [pkg|] eqn:Hpkg;
      [|constructor].
    rewrite fmap_cons. apply NoDup_cons. split.
    + intros ([kp node] & Heq & Hin)%list_elem_of_fmap. simpl in Heq.
      apply treeEntries_prefix in Hin as (depId & rest & _ & -> & _).
      apply (f_equal length) in Heq. rewrite !length_app in Heq.
      simpl in Heq. lia.
    + apply IH. apply NoDup_filter. by eapply Hnorepeat.
Qed.

End TreeShape.

Lemma treeEntries_bind fuel pkgsMap pkgIds keypath :
  treeEntries fuel pkgsMap pkgIds keypath =
    pkgIds ≫= λ pkgId, treeEntries fuel pkgsMap [pkgId] keypath.
Proof.
  destruct fuel as [|fuel]; [by induction pkgIds|].
  cbn [treeEntries]. apply list_bind_ext; [|done].
  intros pkgId. by rewrite bind_singleton.
Qed.

Lemma props_Ok {V} (keys : list string) (obj : gmap string V) :
  (∀ k, k ∈ keys → is_Some (obj !! k)) →
  ∃ vs, props keys obj = Ok vs ∧ Forall2 (λ k v, obj !! k = Some v) keys vs.
Proof.
  induction keys as [|k keys IH]; intros Hall.
  { exists []. by split; [|constructor]. }
  destruct (Hall k) as [v Hv]; [left|].
  destruct IH as (vs & Hvs & Hall2); [intros; apply Hall; by right|].
  exists (v :: vs). simpl. rewrite Hv, Hvs. by split; [|constructor].
Qed.

Lemma resolveChildren_Ok rec children :
  (∀ child, child ∈ children → ∃ m log, rec child = Ok (m, log)) →
  ∃ results logs, resolveChildren rec children = Ok (results, logs).
Proof.
  induction children as [|child rest IH]; intros Hall.
  { by exists [], []. }
  destruct (Hall child) as (m & log & Hm); [left|].
  destruct IH as (ms & logs & Hms); [intros; apply Hall; by right|].
  exists (m :: ms), (log ++ logs). simpl. by rewrite Hm, Hms.
Qed.

Lemma resolveChildren_Forall2 rec children results logs :
  resolveChildren rec children = Ok (results, logs) →
  Forall2 (λ child m, ∃ log, rec child = Ok (m, log)) children results.
Proof.
  revert results logs.
  induction children as [|child rest IH]; intros results logs; simpl.
  { intros [= <- <-]. constructor. }
  destruct (rec child) as [[m1 log1]| |] eqn:Hrec; simpl; [|done..].
  destruct (resolveChildren rec rest) as [[ms logs']| |]; simpl; [|done..].
  intros [= <- <-]. constructor; eauto.
Qed.

Lemma elem_of_dom_foldl_R_merge {V} (results : list (gmap string V)) init k :
  k ∈ dom (foldl R_merge init results) ↔
  k ∈ dom init ∨ ∃ m, m ∈ results ∧ k ∈ dom m.
Proof.
  revert init. induction results as [|m results IH]; intros init; simpl.
  { split; [by left|]. intros [?|(? & ?%elem_of_nil & _)]; done. }
  rewrite IH. unfold R_merge. rewrite dom_union_L, elem_of_union. split.
  - intros [[?|?]|(m' & ? & ?)]; [right; exists m|by left|right; exists m'];
      (split; [|done]); by constructor.
  - intros [?|(m' & [->|?]%elem_of_cons & ?)]; [by left; right|by left; left|].
    right. by exists m'.
Qed.

Section VisitFacts.
Variable satisfies : option string → string → bool.
Variable path_join : list string → string.

(** The keys of the map [resolvePeersOfNode] returns are the keypath ids it
    visits. *)
Lemma resolvePeersOfNode_dom treeMap fuel :
  ∀ keypathId parentPkgs result log,
    resolvePeersOfNode satisfies path_join fuel keypathId parentPkgs treeMap
      = Ok (result, log) →
    ∀ k, k ∈ dom result ↔ k ∈ visits fuel treeMap keypathId.
Proof.
  induction fuel as [|fuel IH]; intros keypathId parentPkgs result log;
    [done|].
  rewrite resolvePeersOfNode_S. cbn [visits].
  destruct (treeMap !! keypathId) as [pkgNode|] eqn:Hnode; [|done].
  destruct (props (dt_children pkgNode) treeMap) as [childNodes| |]; [|done..].
  cbn [mbind outcome_bind].
  destruct (peerModulesOf _ _ _ _) as [peerModules| |]; [|done..].
  cbn [mbind outcome_bind].
  destruct (resolveChildren _ _) as [[results logs]| |] eqn:Hch; [|done..].
  cbn [mbind outcome_bind]. intros [= <- <-] k.
  apply resolveChildren_Forall2 in Hch.
  rewrite elem_of_dom_foldl_R_merge, dom_singleton_L, elem_of_singleton.
  rewrite elem_of_cons, list_elem_of_bind.
  apply or_iff_compat_l. split.
  - intros (m & Hm & Hk).
    apply list_elem_of_lookup in Hm as [i Hm].
    destruct (Forall2_lookup_r _ _ _ _ _ Hch Hm) as (child & Hchild & log' & Hrun).
    exists child. split; [|by eapply list_elem_of_lookup_2].
    by eapply IH.
  - intros (child & Hk & Hchild).
    apply list_elem_of_lookup in Hchild as [i Hchild].
    destruct (Forall2_lookup_l _ _ _ _ _ Hch Hchild) as (m & Hm & log' & Hrun).
    exists m. split; [by eapply list_elem_of_lookup_2|].
    by eapply IH.
Qed.

Lemma resolvePeers_from_scope peerDependencies pkgId parentPkgs x :
  x ∈ (resolvePeers satisfies peerDependencies pkgId parentPkgs).1 →
  ∃ n node, parentPkgs !! n = Some node ∧ x = dt_keypathId node.
Proof.
  unfold resolvePeers, filterBoolean. cbn [fst].
  intros ([y|] & Hy & Hx)%list_elem_of_omap; [|done].
  destruct (truthy y); [|done]. injection Hx as ->.
  apply list_elem_of_In, in_map_iff in Hy as ([o l] & Ho & Hin). simpl in Ho.
  subst o. apply in_map_iff in Hin as ([peerName range] & Hpeer & _).
  simpl in Hpeer. unfold js_get in Hpeer.
  destruct (parentPkgs !! peerName) as [node|] eqn:Hnode;
    [|by case_decide].
  injection Hpeer as <- _. eauto.
Qed.

End VisitFacts.

Section ResolverOnTree.
Variable satisfies : option string → string → bool.
Variable path_join : list string → string.
Variable pkgsMap : gmap string LinkedPackage.
Variable treeMap : gmap string DependencyTree.
Hypothesis Hkeys : ids_are_keys pkgsMap.
Hypothesis Hkeyed : ∀ k node, treeMap !! k = Some node → dt_keypathId node = k.

Lemma scope_in_newParentPkgs parentPkgs keypathId pkgNode childNodes :
  scope_in treeMap parentPkgs →
  treeMap !! keypathId = Some pkgNode →
  Forall2 (λ k v, treeMap !! k = Some v) (dt_children pkgNode) childNodes →
  scope_in treeMap (newParentPkgs parentPkgs pkgNode childNodes).
Proof using Hkeyed.
  intros Hscope Hnode Hchildren n node. rewrite newParentPkgs_lookup.
  destruct (toPkgByName childNodes !! n) as [child|] eqn:Hchild.
  - intros [= <-]. apply toPkgByName_lookup_Some in Hchild as [Hin _].
    apply list_elem_of_lookup in Hin as [i Hi].
    destruct (Forall2_lookup_r _ _ _ _ _ Hchildren Hi) as (k & _ & Hk).
    by rewrite (Hkeyed _ _ Hk).
  - case_decide; [|by apply Hscope].
    intros [= <-]. by rewrite (Hkeyed _ _ Hnode).
Qed.

(** On the tree [createTree] built, [resolvePeersOfNode] returns for every
    node, and visits the nodes of its subtree, parents before children. *)
Lemma resolvePeersOfNode_on_tree fuel : ∀ pkgIds keypath parentPkgs,
  treeComplete fuel pkgsMap pkgIds keypath →
  (∀ kp node, (kp, node) ∈ treeEntries fuel pkgsMap pkgIds keypath →
     treeMap !! String.concat "/" kp = Some node) →
  scope_in treeMap parentPkgs →
  ∀ pkgId, pkgId ∈ pkgIds →
    (∃ result log,
       resolvePeersOfNode satisfies path_join fuel
         (String.concat "/" (keypath ++ [pkgId])) parentPkgs treeMap
         = Ok (result, log)) ∧
    visits fuel treeMap (String.concat "/" (keypath ++ [pkgId])) =
      (λ e, String.concat "/" e.1) <$> treeEntries fuel pkgsMap [pkgId] keypath.
Proof using Hkeys Hkeyed.
  induction fuel as [|fuel IH]; [done|].
  intros pkgIds keypath parentPkgs Hcomplete Htree Hscope pkgId Hin.
  cbn [treeComplete] in Hcomplete.
  destruct (proj1 (Forall_forall _ _) Hcomplete _ Hin) as (pkg & Hpkg & Hsub).
  pose proof (Hkeys _ _ Hpkg) as Hid. rewrite Hid in Hsub.
  set (deps := getNonCircularDependencies pkgId (lp_dependencies pkg) keypath)
    in *.
  assert (Hnode : treeMap !! String.concat "/" (keypath ++ [pkgId])
                  = Some (nodeAt keypath pkg)).
  { apply Htree. apply elem_of_treeEntries_S. exists pkgId, pkg.
    rewrite Hid. auto. }
  assert (Hbelow : ∀ kp node,
            (kp, node) ∈ treeEntries fuel pkgsMap deps (keypath ++ [pkgId]) →
            treeMap !! String.concat "/" kp = Some node).
  { intros kp node Hkp. apply Htree. apply elem_of_treeEntries_S.
    exists pkgId, pkg. rewrite Hid. auto. }
  assert (Hchildren : dt_children (nodeAt keypath pkg) =
            (λ depId, String.concat "/" ((keypath ++ [pkgId]) ++ [depId]))
              <$> deps).
  { unfold nodeAt. cbn [treeNodeOf dt_children]. rewrite Hid.
    apply list_fmap_ext. intros _ depId _. by rewrite <- app_assoc. }
  assert (Hchild : ∀ depId, depId ∈ deps →
            ∀ scope, scope_in treeMap scope →
            (∃ result log,
               resolvePeersOfNode satisfies path_join fuel
                 (String.concat "/" ((keypath ++ [pkgId]) ++ [depId]))
                 scope treeMap = Ok (result, log)) ∧
            visits fuel treeMap
              (String.concat "/" ((keypath ++ [pkgId]) ++ [depId])) =
              (λ e, String.concat "/" e.1) <$>
                treeEntries fuel pkgsMap [depId] (keypath ++ [pkgId])).
  { intros depId Hdep scope Hsc. by eapply IH. }
  split.
  - rewrite resolvePeersOfNode_S, Hnode.
    destruct (props_Ok (dt_children (nodeAt keypath pkg)) treeMap)
      as (childNodes & -> & Hall).
    { rewrite Hchildren. intros k (depId & -> & Hdep)%list_elem_of_fmap.
      destruct (Hchild depId Hdep ∅) as [(r & l & Hrun) _]; [by intros ??|].
      destruct fuel; [done|]. rewrite resolvePeersOfNode_S in Hrun.
      destruct (treeMap !! String.concat "/" ((keypath ++ [pkgId]) ++ [depId]));
        [by eexists|done]. }
    cbn [mbind outcome_bind].
    pose proof (scope_in_newParentPkgs _ _ _ _ Hscope Hnode Hall) as Hscope'.
    set (scope := newParentPkgs parentPkgs (nodeAt keypath pkg) childNodes)
      in *.
    assert (∃ peerModules,
              peerModulesOf path_join (nodeAt keypath pkg)
                (resolvePeers satisfies
                   (dt_peerDependencies (nodeAt keypath pkg))
                   (dt_id (nodeAt keypath pkg)) scope).1 treeMap
              = Ok peerModules) as [peerModules ->].
    { unfold peerModulesOf.
      destruct (dt_peerDependencies (nodeAt keypath pkg)) as [|peer peers];
        [by eexists|].
      destruct (props_Ok (resolvePeers satisfies (peer :: peers)
                            (dt_id (nodeAt keypath pkg)) scope).1 treeMap)
        as (vs & -> & _); [|by eexists].
      intros k (n & node & Hn & ->)%resolvePeers_from_scope.
      rewrite (Hscope' _ _ Hn). eauto. }
    cbn [mbind outcome_bind].
    destruct (resolveChildren_Ok
                (λ child, resolvePeersOfNode satisfies path_join fuel child
                            scope treeMap)
                (dt_children (nodeAt keypath pkg)))
      as (results & logs & ->); [|by eexists _, _].
    rewrite Hchildren. intros child (depId & -> & Hdep)%list_elem_of_fmap.
    by apply Hchild.
  - cbn [visits treeEntries]. rewrite Hnode, bind_singleton, Hpkg, Hid.
    rewrite fmap_cons. f_equal. fold deps.
    rewrite Hchildren, list_fmap_bind.
    rewrite (treeEntries_bind fuel pkgsMap deps), fmap_bind_comm.
    apply Forall_bind_ext, Forall_forall. intros depId Hdep. simpl.
    refine (proj2 (Hchild depId Hdep ∅ _)). by intros ??.
Qed.

End ResolverOnTree.

Lemma NoDup_fst_functional {K V} (l : list (K * V)) k v1 v2 :
  NoDup l.*1 → (k, v1) ∈ l → (k, v2) ∈ l → v1 = v2.
Proof.
  induction l as [|[k' v'] l IH]; intros Hnd H1 H2; [by inversion H1|].
  apply NoDup_cons in Hnd as [Hk' Hnd].
  apply elem_of_cons in H1 as [H1|H1]; apply elem_of_cons in H2 as [H2|H2].
  - congruence.
  - injection H1 as -> ->. destruct Hk'. apply list_elem_of_fmap.
    by exists (k', v2).
  - injection H2 as -> ->. destruct Hk'. apply list_elem_of_fmap.
    by exists (k', v1).
  - by eapply IH.
Qed.

Lemma treeEntries_keypathId pkgsMap fuel : ∀ pkgIds keypath kp node,
  (kp, node) ∈ treeEntries fuel pkgsMap pkgIds keypath →
  dt_keypathId node = String.concat "/" kp.
Proof.
  induction fuel as [|fuel IH]; intros pkgIds keypath kp node.
  { by inversion 1. }
  intros (pkgId & pkg & _ & _ & [He|He])%elem_of_treeEntries_S.
  - by injection He as -> ->.
  - by eapply IH.
Qed.

Lemma treeComplete_entry pkgsMap fuel pkgIds keypath pkgId :
  ids_are_keys pkgsMap →
  treeComplete fuel pkgsMap pkgIds keypath → pkgId ∈ pkgIds →
  ∃ pkg, (keypath ++ [pkgId], nodeAt keypath pkg)
           ∈ treeEntries fuel pkgsMap pkgIds keypath.
Proof.
  intros Hkeys Hcomplete Hin. destruct fuel as [|fuel]; [done|].
  cbn [treeComplete] in Hcomplete.
  destruct (proj1 (Forall_forall _ _) Hcomplete _ Hin) as (pkg & Hpkg & _).
  exists pkg. apply elem_of_treeEntries_S. exists pkgId, pkg.
  rewrite (Hkeys _ _ Hpkg). auto.
Qed.

Section Completeness.
Variable satisfies : option string → string → bool.
Variable path_join : list string → string.

(** C8, amended. For a package map that stores every package under its
    own id, lists no dependency twice and whose ids join to unambiguous
    keypath ids, and for distinct root ids: when the Tree Builder returns
    [treeMap], the Peer Resolver returns a map with exactly the keypath ids
    of [treeMap] as its keys; the traversal visits no keypath id twice, so
    that no merge overwrites an entry: the map has as many entries as nodes
    were visited. *)
Theorem resolved_map_one_entry_per_keypath pkgsMap topPkgIds fuel
    rootNodeIds treeMap :
  ids_are_keys pkgsMap →
  no_repeated_dependency pkgsMap →
  unambiguous_keypaths pkgsMap →
  NoDup topPkgIds →
  createTree fuel pkgsMap topPkgIds [] ∅ = Ok (rootNodeIds, treeMap) →
  ∃ result log,
    resolvePeers_default satisfies path_join fuel pkgsMap topPkgIds
      = Ok (result, log) ∧
    dom result = dom treeMap ∧
    NoDup (rootNodeId ← rootNodeIds; visits fuel treeMap rootNodeId) ∧
    size result =
      length (rootNodeId ← rootNodeIds; visits fuel treeMap rootNodeId).
Proof.
  intros Hkeys Hnorepeat Hunamb Hnd Hrun.
  destruct (createTree_spec pkgsMap Hkeys _ _ _ _ _ _ Hrun)
    as (Hroots & Hcomplete & Hdom & Hlook).
  set (entries := treeEntries fuel pkgsMap topPkgIds []) in *.
  set (key := λ e : list string * DependencyTree, String.concat "/" e.1) in *.
  assert (Hpaths : NoDup entries.*1) by by apply treeEntries_NoDup.
  assert (Hwf : ∀ kp node, (kp, node) ∈ entries →
            kp ≠ [] ∧ Forall (λ i, is_Some (pkgsMap !! i)) kp).
  { intros kp node (i & rest & _ & -> & Hall)%(treeEntries_prefix _ Hkeys).
    done. }
  assert (Hinj : ∀ e1 e2, e1 ∈ entries → e2 ∈ entries → key e1 = key e2 →
            e1 = e2).
  { intros [kp1 n1] [kp2 n2] H1 H2 Heq. unfold key in Heq. simpl in Heq.
    destruct (Hwf _ _ H1), (Hwf _ _ H2).
    assert (kp1 = kp2) as -> by by apply Hunamb.
    f_equal. by eapply NoDup_fst_functional. }
  assert (Hkeysnd : NoDup (key <$> entries)).
  { apply NoDup_fmap_2_strong; [done|]. by eapply NoDup_fmap_1. }
  assert (Htree : ∀ kp node, (kp, node) ∈ entries →
            treeMap !! String.concat "/" kp = Some node).
  { intros kp node Hin.
    assert (String.concat "/" kp ∈ dom treeMap) as [node' Hnode']%elem_of_dom.
    { rewrite Hdom, elem_of_union, elem_of_list_to_set. right.
      apply list_elem_of_fmap. by exists (kp, node). }
    rewrite Hnode'. f_equal.
    destruct (Hlook _ _ Hnode') as [?|(kp' & Hin' & Heq)]; [done|].
    by injection (Hinj (kp, node) (kp', node') Hin Hin' Heq). }
  assert (Hkeyed : ∀ k node, treeMap !! k = Some node →
            dt_keypathId node = k).
  { intros k node [?|(kp & Hin & ->)]%Hlook; [done|].
    by eapply treeEntries_keypathId. }
  assert (Hvisit : ∀ scope, scope_in treeMap scope →
            ∀ pkgId, pkgId ∈ topPkgIds →
            (∃ result log,
               resolvePeersOfNode satisfies path_join fuel
                 (String.concat "/" ([] ++ [pkgId])) scope treeMap
               = Ok (result, log)) ∧
            visits fuel treeMap (String.concat "/" ([] ++ [pkgId])) =
              key <$> treeEntries fuel pkgsMap [pkgId] []).
  { intros scope Hscope pkgId Hin.
    by eapply (resolvePeersOfNode_on_tree satisfies path_join pkgsMap treeMap). }
  assert (Hvisits : (rootNodeId ← rootNodeIds; visits fuel treeMap rootNodeId)
                    = key <$> entries).
  { rewrite Hroots, list_fmap_bind. unfold entries.
    rewrite (treeEntries_bind fuel pkgsMap topPkgIds), fmap_bind_comm.
    apply Forall_bind_ext, Forall_forall. intros pkgId Hin. simpl.
    refine (proj2 (Hvisit ∅ _ pkgId Hin)). by intros ??. }
  unfold resolvePeers_default. rewrite Hrun. cbn [mbind outcome_bind].
  destruct (props_Ok rootNodeIds treeMap) as (rootNodes & -> & Hall).
  { rewrite Hroots. intros k (pkgId & -> & Hin)%list_elem_of_fmap.
    destruct (treeComplete_entry _ _ _ _ _ Hkeys Hcomplete Hin) as [pkg Hpkg].
    rewrite (Htree _ _ Hpkg). eauto. }
  cbn [mbind outcome_bind].
  assert (Hscope : scope_in treeMap (toPkgByName rootNodes)).
  { intros n node [Hin _]%toPkgByName_lookup_Some.
    apply list_elem_of_lookup in Hin as [i Hi].
    destruct (Forall2_lookup_r _ _ _ _ _ Hall Hi) as (k & _ & Hk).
    by rewrite (Hkeyed _ _ Hk). }
  destruct (resolveChildren_Ok
              (λ rootNodeId,
                 resolvePeersOfNode satisfies path_join fuel rootNodeId
                   (toPkgByName rootNodes) treeMap) rootNodeIds)
    as (results & logs & Hresults).
  { rewrite Hroots. intros k (pkgId & -> & Hin)%list_elem_of_fmap.
    by apply Hvisit. }
  rewrite Hresults. cbn [mbind outcome_bind].
  exists (foldl R_merge ∅ results), logs. split; [done|].
  apply resolveChildren_Forall2 in Hresults.
  assert (Hdomres : dom (foldl R_merge ∅ results) = list_to_set (key <$> entries)).
  { apply set_eq. intros k.
    rewrite elem_of_dom_foldl_R_merge, dom_empty_L, elem_of_list_to_set.
    rewrite <- Hvisits, list_elem_of_bind. split.
    - intros [?%not_elem_of_empty|(m & Hm & Hk)]; [done|].
      apply list_elem_of_lookup in Hm as [i Hm].
      destruct (Forall2_lookup_r _ _ _ _ _ Hresults Hm)
        as (root & Hroot & log' & Hres).
      exists root. split; [|by eapply list_elem_of_lookup_2].
      by eapply resolvePeersOfNode_dom.
    - intros (root & Hk & Hroot). right.
      apply list_elem_of_lookup in Hroot as [i Hroot].
      destruct (Forall2_lookup_l _ _ _ _ _ Hresults Hroot)
        as (m & Hm & log' & Hres).
      exists m. split; [by eapply list_elem_of_lookup_2|].
      by eapply resolvePeersOfNode_dom. }
  split_and!.
  - rewrite Hdomres, Hdom, dom_empty_L. set_solver.
  - by rewrite Hvisits.
  - rewrite Hvisits, <- size_dom, Hdomres. by apply size_list_to_set.
Qed.

End Completeness.

(** *** Ids without a slash join unambiguously *)

Lemma string_app_nil_r (s : string) : s +:+ "" = s.
Proof.
  induction s as [|a s IH]; [done|].
  change (String a (s +:+ "") = String a s). by rewrite IH.
Qed.

(** What follows the first id in a keypath id: nothing, or a slash and the
    rest. *)
Lemma concat_slash_cons x kp :
  String.concat "/" (x :: kp) =
    x +:+ match kp with [] => "" | _ => String "/" (String.concat "/" kp) end.
Proof. destruct kp; simpl; [by rewrite string_app_nil_r|done]. Qed.

Lemma split_at_slash x y s t :
  occurrences "/" x = 0 → occurrences "/" y = 0 →
  (s = "" ∨ ∃ s', s = String "/" s') →
  (t = "" ∨ ∃ t', t = String "/" t') →
  x +:+ s = y +:+ t → x = y ∧ s = t.
Proof.
  revert y. induction x as [|a x IH]; intros [|b y] Hx Hy Hs Ht Heq;
    simpl in *.
  - done.
  - destruct Hs as [->|[s' ->]]; [done|]. injection Heq as <- _.
    by simpl in Hy.
  - destruct Ht as [->|[t' ->]]; [done|]. injection Heq as -> _.
    by simpl in Hx.
  - injection Heq as -> Heq.
    destruct (Ascii.eqb b "/"); [done|].
    destruct (IH y) as [-> ->]; done.
Qed.

Lemma slash_free_unambiguous pkgsMap :
  (∀ k : string, is_Some (pkgsMap !! k) → occurrences "/" k = 0) →
  unambiguous_keypaths pkgsMap.
Proof.
  intros Hfree kp1.
  induction kp1 as [|x kp1 IH]; intros [|y kp2] Hne1 Hne2 H1 H2 Heq;
    [done..|].
  apply Forall_cons in H1 as [Hx H1]. apply Forall_cons in H2 as [Hy H2].
  rewrite !concat_slash_cons in Heq.
  apply split_at_slash in Heq as [-> Heq]; [|by auto|by auto| |].
  - f_equal. destruct kp1 as [|x1 kp1], kp2 as [|y2 kp2]; [done..|].
    injection Heq as Heq. by apply IH.
  - destruct kp1; eauto.
  - destruct kp2; eauto.
Qed.

Lemma cycleAB_lookup k pkg :
  cycleAB !! k = Some pkg →
  (k = "A" ∧ pkg = linkedPackage "A" None ["B"]) ∨
  (k = "B" ∧ pkg = linkedPackage "B" None ["A"]).
Proof.
  unfold cycleAB. rewrite !lookup_insert_Some, lookup_empty. naive_solver.
Qed.

Lemma cycleAB_no_repeated_dependency : no_repeated_dependency cycleAB.
Proof.
  intros k pkg [[_ ->]|[_ ->]]%cycleAB_lookup;
    apply NoDup_singleton.
Qed.

Lemma cycleAB_unambiguous : unambiguous_keypaths cycleAB.
Proof.
  apply slash_free_unambiguous.
  intros k [pkg [[-> _]|[-> _]]%cycleAB_lookup]; done.
Qed.

Lemma resolved_map_one_entry_per_keypath_witness :
  ∃ result log,
    resolvePeers_default exact_version join_segments 4 cycleAB ["A"]
      = Ok (result, log) ∧
    dom result =
      dom (cycleTree "A" "B" (linkedPackage "A" None ["B"])
             (linkedPackage "B" None ["A"])) ∧
    NoDup (rootNodeId ← ["A"];
           visits 4 (cycleTree "A" "B" (linkedPackage "A" None ["B"])
                       (linkedPackage "B" None ["A"])) rootNodeId) ∧
    size result =
      length (rootNodeId ← ["A"];
              visits 4 (cycleTree "A" "B" (linkedPackage "A" None ["B"])
                          (linkedPackage "B" None ["A"])) rootNodeId).
Proof.
  apply (resolved_map_one_entry_per_keypath exact_version join_segments
           cycleAB ["A"] 4 ["A"]).
  - exact cycleAB_ids_are_keys.
  - exact cycleAB_no_repeated_dependency.
  - exact cycleAB_unambiguous.
  - apply NoDup_singleton.
  - by vm_compute.
Defined.

(** With the ids of [collidingPkgs] the keypath id [A/x/y] is created
    twice: the node [A/x/y/c] of the tree has no entry in the resolved map.
    With the repeated dependency of [repeatingPkgs] the keypath id [A/B] is
    visited twice, the second merge overwriting the entry of the first. *)
Lemma resolved_map_incomplete_on_collision :
  ¬ resolved_map_complete exact_version join_segments collidingPkgs ["A"] ∧
  ¬ resolved_map_complete exact_version join_segments repeatingPkgs ["A"].
Proof.
  split; intros Hall.
  - destruct (Hall 5 ["A"] collidingTree collidingResolved.1
                collidingResolved.2) as [Hdom _].
    + by vm_compute.
    + by vm_compute.
    + assert ("A/x/y/c" ∈ dom collidingResolved.1) as [r Hr]%elem_of_dom.
      { rewrite Hdom. apply elem_of_dom. by vm_compute. }
      by vm_compute in Hr.
  - destruct (Hall 3 ["A"] repeatingTree repeatingResolved.1
                repeatingResolved.2) as [_ Hnd].
    + by vm_compute.
    + by vm_compute.
    + vm_compute in Hnd. apply NoDup_cons in Hnd as [_ Hnd].
      apply NoDup_cons in Hnd as [Hin _]. apply Hin. left.
Qed.

(** *** Keypath ids of tree nodes are not empty *)

Lemma concat_slash_empty (l : list string) :
  String.concat "/" l = "" → l = [] ∨ l = [""].
Proof.
  destruct l as [|x [|y l]]; simpl; [by left|intros ->; by right|].
  destruct x; done.
Qed.

(** When no package id is the empty string, every node [createTree] leaves
    in an empty tree map, and so every node of a scope taken from that map,
    has a non-empty keypath id. *)
Lemma createTree_scope_ids_nonempty pkgsMap fuel pkgIds rootNodeIds treeMap
    parentPkgs :
  ids_are_keys pkgsMap →
  pkgsMap !! "" = None →
  createTree fuel pkgsMap pkgIds [] ∅ = Ok (rootNodeIds, treeMap) →
  scope_in treeMap parentPkgs →
  scope_ids_nonempty parentPkgs.
Proof.
  intros Hkeys Hempty Hrun Hscope n node Hn%Hscope.
  destruct (createTree_spec pkgsMap Hkeys _ _ _ _ _ _ Hrun)
    as (_ & _ & _ & Hlook).
  destruct (Hlook _ _ Hn) as [?|(kp & Hin & Heq)]; [done|].
  rewrite Heq.
  apply (treeEntries_prefix _ Hkeys) in Hin as (i & rest & _ & -> & Hall).
  intros [?|Hone]%concat_slash_empty; [done|].
  injection Hone as -> ->. apply Forall_cons in Hall as [[pkg Hpkg] _].
  congruence.
Qed.

(** ** Invariants of the tree map *)

Lemma length_concat_slash_snoc l x :
  l ≠ [] →
  String.length (String.concat "/" (l ++ [x])) =
    String.length (String.concat "/" l) + 1 + String.length x.
Proof.
  induction l as [|a l IH]; [done|]. intros _.
  destruct l as [|b l].
  { simpl. rewrite !string_length_app. simpl. lia. }
  change (String.concat "/" ((a :: b :: l) ++ [x]))
    with (a +:+ "/" +:+ String.concat "/" ((b :: l) ++ [x])).
  change (String.concat "/" (a :: b :: l))
    with (a +:+ "/" +:+ String.concat "/" (b :: l)).
  rewrite !string_length_app, IH by done. simpl. lia.
Qed.

(** [createTree] keeps a closed tree map closed, only adds keys, and
    returns keys of the map that are longer than the keypath id of the
    ancestors. *)
Lemma createTree_closed pkgsMap fuel :
  ∀ pkgIds keypath treeMap ids treeMap',
    tree_closed treeMap →
    createTree fuel pkgsMap pkgIds keypath treeMap = Ok (ids, treeMap') →
    tree_closed treeMap' ∧
    dom treeMap ⊆ dom treeMap' ∧
    ∀ c, c ∈ ids →
      is_Some (treeMap' !! c) ∧
      (keypath ≠ [] →
       String.length (String.concat "/" keypath) < String.length c).
Proof.
  induction fuel as [|fuel IHfuel]; [done|].
  intros pkgIds keypath.
  induction pkgIds as [|pkgId rest IHrest]; intros treeMap ids treeMap' Hcl Hrun.
  { injection Hrun as <- <-. split_and!; [done..|]. by intros c ?%elem_of_nil. }
  cbn [createTree createTreeList] in Hrun.
  destruct (pkgsMap !! pkgId) as [pkg|] eqn:Hpkg; [|done].
  unfold createTreeNode in Hrun.
  destruct (createTree fuel pkgsMap _ _ treeMap) as [[children treeMap1]| |]
    eqn:Hchildren; [|done..].
  cbn [mbind outcome_bind] in Hrun.
  destruct (createTreeList _ pkgsMap rest keypath _) as [[ids' treeMap2]| |]
    eqn:Hrest; [|done..].
  cbn [mbind outcome_bind] in Hrun. injection Hrun as <- <-.
  apply IHfuel in Hchildren as (Hcl1 & Hdom1 & Hkids); [|done].
  set (key := String.concat "/" (keypath ++ [lp_id pkg])) in *.
  assert (tree_closed
            (<[key := treeNodeOf pkg keypath key children]> treeMap1)) as Hcl1'.
  { intros k node [[<- <-]|[Hne Hk]]%lookup_insert_Some.
    - split; [done|]. intros c Hc. destruct (Hkids c Hc) as [Hsome Hlen].
      split; [|apply Hlen; by destruct keypath].
      rewrite lookup_insert_is_Some. destruct (decide (key = c)); auto.
    - destruct (Hcl1 _ _ Hk) as [Hid Hch]. split; [done|].
      intros c Hc. destruct (Hch c Hc) as [Hsome Hlen]. split; [|done].
      rewrite lookup_insert_is_Some. destruct (decide (key = c)); auto. }
  apply (IHrest _ ids' treeMap2) in Hrest as (Hcl2 & Hdom2 & Hids); [|done].
  split_and!; [done| |].
  - rewrite dom_insert in Hdom2. set_solver.
  - intros c [->|Hc]%elem_of_cons; [|by apply Hids]. split.
    + apply elem_of_dom, Hdom2. rewrite dom_insert. set_solver.
    + intros Hne. unfold key. rewrite length_concat_slash_snoc by done. lia.
Qed.

(** X1. Whatever the package map, a tree that [createTree] returns from the
    empty tree map is closed: every node is stored under its own keypath
    id, every child of a node is itself a key of the tree map and is
    longer than the key of its parent, and the root ids returned are keys
    of the tree map. *)
Theorem createTree_builds_closed_tree pkgsMap fuel topPkgIds rootNodeIds
    treeMap :
  createTree fuel pkgsMap topPkgIds [] ∅ = Ok (rootNodeIds, treeMap) →
  tree_closed treeMap ∧
  ∀ rootNodeId, rootNodeId ∈ rootNodeIds → is_Some (treeMap !! rootNodeId).
Proof.
  intros Hrun. apply createTree_closed in Hrun as (Hcl & _ & Hroots).
  - split; [done|]. intros r Hr. by apply Hroots.
  - intros k node Hk. by rewrite lookup_empty in Hk.
Qed.

Lemma createTree_builds_closed_tree_witness :
  tree_closed fixtureTree ∧
  ∀ rootNodeId, rootNodeId ∈ ["app"] → is_Some (fixtureTree !! rootNodeId).
Proof.
  apply (createTree_builds_closed_tree fixturePkgs 5 ["app"]).
  by vm_compute.
Defined.

(** ** The resolver returns on every closed tree *)

Lemma key_length_bound {V} (m : gmap string V) :
  ∃ N, ∀ k, is_Some (m !! k) → String.length k ≤ N.
Proof.
  exists (max_list (String.length <$> (map_to_list m).*1)).
  intros k [v Hk]. apply max_list_elem_of_le.
  apply list_elem_of_fmap. exists k. split; [done|].
  apply list_elem_of_fmap. exists (k, v). split; [done|].
  by apply elem_of_map_to_list.
Qed.

Section ResolverReturns.
Variable satisfies : option string → string → bool.
Variable path_join : list string → string.
Variable treeMap : gmap string DependencyTree.
Hypothesis Hclosed : tree_closed treeMap.

Lemma tree_closed_keyed k node :
  treeMap !! k = Some node → dt_keypathId node = k.
Proof. intros Hk. by destruct (Hclosed _ _ Hk). Qed.

Lemma peerModulesOf_returns pkgNode resolvedPeers :
  (∀ x, x ∈ resolvedPeers → is_Some (treeMap !! x)) →
  ∃ peerModules,
    peerModulesOf path_join pkgNode resolvedPeers treeMap = Ok peerModules.
Proof.
  intros Hall. unfold peerModulesOf.
  destruct (dt_peerDependencies pkgNode); [by eexists|].
  destruct (props_Ok resolvedPeers treeMap Hall) as (peers & -> & _).
  by eexists.
Qed.

Lemma resolvePeersOfNode_returns N fuel : ∀ keypathId parentPkgs,
  (∀ k, is_Some (treeMap !! k) → String.length k ≤ N) →
  scope_in treeMap parentPkgs →
  is_Some (treeMap !! keypathId) →
  N - String.length keypathId < fuel →
  ∃ result log,
    resolvePeersOfNode satisfies path_join fuel keypathId parentPkgs treeMap
      = Ok (result, log).
Proof.
  induction fuel as [|fuel IH]; intros keypathId parentPkgs HN Hscope
    [pkgNode Hnode] Hfuel; [lia|].
  rewrite resolvePeersOfNode_S, Hnode.
  destruct (Hclosed _ _ Hnode) as [_ Hchildren].
  destruct (props_Ok (dt_children pkgNode) treeMap) as (childNodes & -> & Hall).
  { intros c Hc. by destruct (Hchildren c Hc). }
  cbn [mbind outcome_bind].
  pose proof (scope_in_newParentPkgs treeMap tree_closed_keyed parentPkgs
                keypathId pkgNode childNodes Hscope Hnode Hall) as Hscope'.
  destruct (peerModulesOf_returns pkgNode
              (resolvePeers satisfies (dt_peerDependencies pkgNode)
                 (dt_id pkgNode)
                 (newParentPkgs parentPkgs pkgNode childNodes)).1)
    as [peerModules ->].
  { intros x (n & node & Hn & ->)%resolvePeers_from_scope.
    rewrite (Hscope' _ _ Hn). by eexists. }
  cbn [mbind outcome_bind].
  destruct (resolveChildren_Ok
              (λ child, resolvePeersOfNode satisfies path_join fuel child
                           (newParentPkgs parentPkgs pkgNode childNodes)
                           treeMap)
              (dt_children pkgNode)) as (results & logs & ->).
  { intros child Hchild. destruct (Hchildren child Hchild) as [Hsome Hlen].
    apply IH; [done..|]. specialize (HN child Hsome). lia. }
  cbn [mbind outcome_bind]. by eexists _, _.
Qed.

End ResolverReturns.

Lemma resolvePeers_default_after_createTree satisfies path_join pkgsMap fuel
    topPkgIds rootNodeIds treeMap :
  createTree fuel pkgsMap topPkgIds [] ∅ = Ok (rootNodeIds, treeMap) →
  ∃ fuel0, ∀ fuel', fuel0 ≤ fuel' →
    ∃ result log,
      resolvePeers_default satisfies path_join fuel' pkgsMap topPkgIds
        = Ok (result, log).
Proof.
  intros Hrun.
  pose proof Hrun as (Hcl & _ & Hroots)%createTree_closed;
    [|intros k node Hk; by rewrite lookup_empty in Hk].
  destruct (key_length_bound treeMap) as [N HN].
  exists (fuel `max` S N). intros fuel' Hfuel'.
  unfold resolvePeers_default.
  rewrite (createTree_more_fuel pkgsMap fuel fuel'), Hrun; [|lia|by rewrite Hrun].
  cbn [mbind outcome_bind].
  destruct (props_Ok rootNodeIds treeMap) as (rootNodes & -> & Hall).
  { intros r Hr. by destruct (Hroots r Hr). }
  cbn [mbind outcome_bind].
  destruct (resolveChildren_Ok
              (λ rootNodeId,
                 resolvePeersOfNode satisfies path_join fuel' rootNodeId
                   (toPkgByName rootNodes) treeMap)
              rootNodeIds) as (results & logs & ->).
  { intros r Hr. apply (resolvePeersOfNode_returns _ _ _ Hcl N); [done| | |lia].
    - intros n node [Hin Hname]%toPkgByName_lookup_Some.
      apply list_elem_of_lookup in Hin as [i Hi].
      destruct (Forall2_lookup_r _ _ _ _ _ Hall Hi) as (k & _ & Hk).
      by rewrite (tree_closed_keyed _ Hcl _ _ Hk).
    - by destruct (Hroots r Hr). }
  cbn [mbind outcome_bind]. by eexists _, _.
Qed.

(** X2. The Peer Resolver accepts every tree the Tree Builder returns:
    whatever the package map (also one whose keypath ids collide), once
    [createTree] has returned a tree for the roots, the default export
    returns a resolved map, for every recursion bound from some bound on.
    It throws on no missing child, scope node or resolved peer. *)
Theorem resolver_accepts_built_tree satisfies path_join pkgsMap fuel
    topPkgIds rootNodeIds treeMap :
  createTree fuel pkgsMap topPkgIds [] ∅ = Ok (rootNodeIds, treeMap) →
  ∃ fuel0, ∀ fuel', fuel0 ≤ fuel' →
    ∃ result log,
      resolvePeers_default satisfies path_join fuel' pkgsMap topPkgIds
        = Ok (result, log).
Proof. apply resolvePeers_default_after_createTree. Qed.

Lemma resolver_accepts_built_tree_witness :
  ∃ fuel0, ∀ fuel', fuel0 ≤ fuel' →
    ∃ result log,
      resolvePeers_default exact_version join_segments fuel' collidingPkgs
        ["A"] = Ok (result, log).
Proof.
  apply (resolver_accepts_built_tree exact_version join_segments
           collidingPkgs 5 ["A"] ["A"] collidingTree).
  by vm_compute.
Defined.

(** On a well-formed package map the default export returns. *)
Lemma resolvePeers_default_total satisfies path_join pkgsMap topPkgIds :
  ids_are_keys pkgsMap →
  dependencies_closed pkgsMap →
  Forall (λ i, is_Some (pkgsMap !! i)) topPkgIds →
  ∃ fuel0, ∀ fuel', fuel0 ≤ fuel' →
    ∃ result log,
      resolvePeers_default satisfies path_join fuel' pkgsMap topPkgIds
        = Ok (result, log).
Proof.
  intros Hkeys Hdeps Htops.
  destruct (createTree_returns pkgsMap topPkgIds [] ∅ Hkeys Hdeps Htops)
    as [fuel Hfuel].
  destruct (Hfuel fuel) as [[rootNodeIds treeMap] Hrun]; [done|].
  by apply (resolvePeers_default_after_createTree _ _ _ fuel _ rootNodeIds
              treeMap).
Qed.

(** X3. The default export of [resolvePeers.ts] is total on well-formed
    input: when every package is stored under its own id, every dependency
    id and every root id is a key of the package map, it returns a resolved
    map (it neither throws nor recurses for ever), for every recursion
    bound from some bound on. *)
Theorem resolvePeers_default_returns satisfies path_join pkgsMap topPkgIds :
  ids_are_keys pkgsMap →
  dependencies_closed pkgsMap →
  Forall (λ i, is_Some (pkgsMap !! i)) topPkgIds →
  ∃ fuel0, ∀ fuel', fuel0 ≤ fuel' →
    ∃ result log,
      resolvePeers_default satisfies path_join fuel' pkgsMap topPkgIds
        = Ok (result, log).
Proof. apply resolvePeers_default_total. Qed.

Lemma cycleAB_dependencies_closed : dependencies_closed cycleAB.
Proof.
  intros k pkg [[-> ->]|[-> ->]]%cycleAB_lookup; simpl;
    repeat constructor; eexists; by vm_compute.
Qed.

Lemma resolvePeers_default_returns_witness :
  ∃ fuel0, ∀ fuel', fuel0 ≤ fuel' →
    ∃ result log,
      resolvePeers_default exact_version join_segments fuel' cycleAB ["A"]
        = Ok (result, log).
Proof.
  apply resolvePeers_default_returns.
  - apply cycleAB_ids_are_keys.
  - apply cycleAB_dependencies_closed.
  - repeat constructor. eexists. by vm_compute.
Defined.

(** ** Invariants of the resolved map *)

Lemma props_inv {V} (keys : list string) (obj : gmap string V) vs :
  props keys obj = Ok vs → Forall2 (λ k v, obj !! k = Some v) keys vs.
Proof.
  revert vs. induction keys as [|k keys IH]; intros vs; simpl.
  { intros [= <-]. constructor. }
  destruct (obj !! k) as [v|] eqn:Hk; [|done].
  destruct (props keys obj) as [vs'| |]; simpl; [|done..].
  intros [= <-]. constructor; [done|by apply IH].
Qed.

Section ResolvedInvariants.
Variable satisfies : option string → string → bool.
Variable path_join : list string → string.
Variable treeMap : gmap string DependencyTree.
Hypothesis Hkeyed :
  ∀ k node, treeMap !! k = Some node → dt_keypathId node = k.

(** What one call leaves in its map: its own key; for every entry, the
    children as keys, the resolved peers as keys or as nodes of the
    caller's scope, and the resolved peers as [resolvePeers] computed them
    from the declared peers of the node. *)
Lemma resolvePeersOfNode_closed fuel : ∀ keypathId parentPkgs result log,
  resolvePeersOfNode satisfies path_join fuel keypathId parentPkgs treeMap
    = Ok (result, log) →
  keypathId ∈ dom result ∧
  ∀ k r, result !! k = Some r →
    (∀ c, c ∈ rt_children r → c ∈ dom result) ∧
    (∀ p, p ∈ rt_resolvedPeers r →
       p ∈ dom result ∨
       ∃ n node, parentPkgs !! n = Some node ∧ dt_keypathId node = p) ∧
    (∃ node scope,
       treeMap !! k = Some node ∧
       rt_resolvedPeers r =
         (resolvePeers satisfies (dt_peerDependencies node) (dt_id node)
            scope).1).
Proof.
  induction fuel as [|fuel IH]; [done|].
  intros keypathId parentPkgs result log.
  rewrite resolvePeersOfNode_S.
  destruct (treeMap !! keypathId) as [pkgNode|] eqn:Hnode; [|done].
  destruct (props _ treeMap) as [childNodes| |] eqn:Hprops; [|done..].
  cbn [mbind outcome_bind].
  destruct (peerModulesOf _ _ _ _) as [peerModules| |]; [|done..].
  cbn [mbind outcome_bind].
  destruct (resolveChildren _ _) as [[results logs]| |] eqn:Hch; [|done..].
  cbn [mbind outcome_bind]. intros [= <- <-].
  set (scope := newParentPkgs parentPkgs pkgNode childNodes) in *.
  set (result := foldl R_merge _ results).
  apply props_inv in Hprops.
  assert (keypathId ∈ dom result) as Hself.
  { apply elem_of_dom_foldl_R_merge. left. set_solver. }
  assert (∀ m k, m ∈ results → k ∈ dom m → k ∈ dom result) as Hsub.
  { intros m k Hm Hk. apply elem_of_dom_foldl_R_merge. right. eauto. }
  assert (∀ c, c ∈ dt_children pkgNode → c ∈ dom result) as Hchildren.
  { intros c Hc. apply list_elem_of_lookup in Hc as [i Hi].
    destruct (Forall2_lookup_l _ _ _ _ _ (resolveChildren_Forall2 _ _ _ _ Hch) Hi)
      as (m & Hm & log' & Hrun).
    apply IH in Hrun as [Hc _].
    eapply Hsub; [|done]. by eapply list_elem_of_lookup_2. }
  assert (∀ n node, scope !! n = Some node →
            dt_keypathId node ∈ dom result ∨ parentPkgs !! n = Some node)
    as Hscope.
  { intros n node. unfold scope. rewrite newParentPkgs_lookup.
    destruct (toPkgByName childNodes !! n) as [child|] eqn:Hchild.
    - intros [= <-]. left.
      apply toPkgByName_lookup_Some in Hchild as [Hin _].
      apply list_elem_of_lookup in Hin as [i Hi].
      destruct (Forall2_lookup_r _ _ _ _ _ Hprops Hi) as (c & Hc & Hlook).
      rewrite (Hkeyed _ _ Hlook). apply Hchildren.
      by eapply list_elem_of_lookup_2.
    - case_decide; [|by right]. intros [= <-]. left.
      by rewrite (Hkeyed _ _ Hnode). }
  split; [done|]. intros k r Hk.
  apply foldl_R_merge_lookup in Hk as [Hk|(m & Hm & Hk)].
  - apply lookup_singleton_Some in Hk as [<- <-].
    unfold resolvedNode. simpl. split_and!; [done| |by eauto].
    intros p (n & node & Hn & ->)%resolvePeers_from_scope.
    destruct (Hscope _ _ Hn); [by left|right; eauto].
  - destruct (resolveChildren_Ok_inv _ _ _ _ _ Hch Hm)
      as (child & log' & Hchild & Hrun).
    apply IH in Hrun as [_ Hentries].
    destruct (Hentries _ _ Hk) as (Hc & Hp & Hres). split_and!; [|  |done].
    + intros c Hcin. eapply Hsub; [done|]. by apply Hc.
    + intros p [Hin|(n & node & Hn & <-)]%Hp; [left; by eapply Hsub|].
      destruct (Hscope _ _ Hn); [by left|right; eauto].
Qed.

End ResolvedInvariants.

(** The steps of a successful run of the default export. *)
Lemma resolvePeers_default_inv satisfies path_join fuel pkgsMap topPkgIds
    result log :
  resolvePeers_default satisfies path_join fuel pkgsMap topPkgIds
    = Ok (result, log) →
  ∃ rootNodeIds treeMap rootNodes results,
    createTree fuel pkgsMap topPkgIds [] ∅ = Ok (rootNodeIds, treeMap) ∧
    Forall2 (λ k v, treeMap !! k = Some v) rootNodeIds rootNodes ∧
    resolveChildren
      (λ rootNodeId,
         resolvePeersOfNode satisfies path_join fuel rootNodeId
           (toPkgByName rootNodes) treeMap)
      rootNodeIds = Ok (results, log) ∧
    result = foldl R_merge ∅ results.
Proof.
  unfold resolvePeers_default.
  destruct (createTree _ _ _ _ _) as [[rootNodeIds treeMap]| |]; [|done..].
  cbn [mbind outcome_bind].
  destruct (props _ _) as [rootNodes| |] eqn:Hprops; [|done..].
  cbn [mbind outcome_bind].
  destruct (resolveChildren _ _) as [[results logs]| |] eqn:Hch; [|done..].
  cbn [mbind outcome_bind]. intros [= <- <-].
  exists rootNodeIds, treeMap, rootNodes, results.
  split_and!; [done|by apply props_inv|done..].
Qed.

(** Every entry of the map the default export returns comes from one call
    of [resolvePeersOfNode] on the tree, in the scope of the roots. *)
Lemma resolvePeers_default_entry satisfies path_join fuel pkgsMap topPkgIds
    result log k r :
  resolvePeers_default satisfies path_join fuel pkgsMap topPkgIds
    = Ok (result, log) →
  result !! k = Some r →
  ∃ rootNodeIds treeMap rootNodes rootNodeId m log',
    createTree fuel pkgsMap topPkgIds [] ∅ = Ok (rootNodeIds, treeMap) ∧
    Forall2 (λ k v, treeMap !! k = Some v) rootNodeIds rootNodes ∧
    rootNodeId ∈ rootNodeIds ∧
    resolvePeersOfNode satisfies path_join fuel rootNodeId
      (toPkgByName rootNodes) treeMap = Ok (m, log') ∧
    m !! k = Some r ∧
    (∀ k', k' ∈ dom m → k' ∈ dom result) ∧
    (∀ rootNodeId', rootNodeId' ∈ rootNodeIds → rootNodeId' ∈ dom result).
Proof.
  intros (rootNodeIds & treeMap & rootNodes & results & Hrun & Hroots & Hch
          & ->)%resolvePeers_default_inv Hk.
  apply foldl_R_merge_lookup in Hk as [Hk|(m & Hm & Hk)];
    [by rewrite lookup_empty in Hk|].
  destruct (resolveChildren_Ok_inv _ _ _ _ _ Hch Hm)
    as (rootNodeId & log' & Hroot & Hcall).
  exists rootNodeIds, treeMap, rootNodes, rootNodeId, m, log'.
  split_and!; [done..| |].
  - intros k' Hk'. apply elem_of_dom_foldl_R_merge. right. eauto.
  - intros r' Hr'. apply list_elem_of_lookup in Hr' as [i Hi].
    destruct (Forall2_lookup_l _ _ _ _ _ (resolveChildren_Forall2 _ _ _ _ Hch) Hi)
      as (m' & Hm' & log'' & Hrun').
    apply elem_of_dom_foldl_R_merge. right. exists m'.
    split; [by eapply list_elem_of_lookup_2|].
    eapply resolvePeersOfNode_dom; [done|].
    destruct fuel; [done|]. left.
Qed.

Lemma createTree_keyed pkgsMap fuel topPkgIds rootNodeIds treeMap :
  createTree fuel pkgsMap topPkgIds [] ∅ = Ok (rootNodeIds, treeMap) →
  ∀ k node, treeMap !! k = Some node → dt_keypathId node = k.
Proof.
  intros (Hcl & _)%createTree_closed;
    [|intros k node Hk; by rewrite lookup_empty in Hk].
  by apply tree_closed_keyed.
Qed.

(** The references of an entry of the resolved map are keys of the map. *)
Lemma resolved_entry_refs satisfies path_join fuel pkgsMap topPkgIds
    result log k r :
  resolvePeers_default satisfies path_join fuel pkgsMap topPkgIds
    = Ok (result, log) →
  result !! k = Some r →
  (∀ c, c ∈ rt_children r → is_Some (result !! c)) ∧
  (∀ p, p ∈ rt_resolvedPeers r → is_Some (result !! p)).
Proof.
  intros Hrun Hk.
  destruct (resolvePeers_default_entry _ _ _ _ _ _ _ _ _ Hrun Hk)
    as (rootNodeIds & treeMap & rootNodes & rootNodeId & m & log' & Htree
        & Hroots & Hroot & Hcall & Hm & Hsub & Hrootsin).
  pose proof (createTree_keyed _ _ _ _ _ Htree) as Hkeyed.
  apply (resolvePeersOfNode_closed _ _ _ Hkeyed) in Hcall as [_ Hentries].
  destruct (Hentries _ _ Hm) as (Hc & Hp & _). split.
  - intros c Hcin. apply elem_of_dom, Hsub. by apply Hc.
  - intros p [Hin|(n & node & Hn & <-)]%Hp; apply elem_of_dom;
      [by apply Hsub|].
    apply toPkgByName_lookup_Some in Hn as [Hin _].
    apply list_elem_of_lookup in Hin as [i Hi].
    destruct (Forall2_lookup_r _ _ _ _ _ Hroots Hi) as (root & Hri & Hlook).
    rewrite (Hkeyed _ _ Hlook). apply Hrootsin.
    by eapply list_elem_of_lookup_2.
Qed.

(** X4. The resolved map is closed under its own references: for every
    entry of the map the default export returns, every child and every
    resolved peer is itself a key of that map. So the reads
    [R.props(pkg.children, pkgMap)] and
    [R.props(dependency.resolvedPeers, pkgMap)] of the linker never yield
    [undefined]. *)
Theorem resolved_map_closed satisfies path_join fuel pkgsMap topPkgIds
    result log k r :
  resolvePeers_default satisfies path_join fuel pkgsMap topPkgIds
    = Ok (result, log) →
  result !! k = Some r →
  (∀ c, c ∈ rt_children r → is_Some (result !! c)) ∧
  (∀ p, p ∈ rt_resolvedPeers r → is_Some (result !! p)).
Proof. apply resolved_entry_refs. Qed.

Lemma shadowing_default_eq :
  resolvePeers_default exact_version join_segments 4 shadowingPkgs ["app"]
    = Ok (shadowingResolved.1, shadowingResolved.2).
Proof. by vm_compute. Qed.

Lemma resolved_map_closed_witness :
  (∀ c, c ∈ rt_children shadowing_lib → is_Some (shadowingResolved.1 !! c)) ∧
  (∀ p, p ∈ rt_resolvedPeers shadowing_lib →
     is_Some (shadowingResolved.1 !! p)).
Proof.
  apply (resolved_map_closed exact_version join_segments 4 shadowingPkgs
           ["app"] shadowingResolved.1 shadowingResolved.2 "app/lib").
  - by vm_compute.
  - by vm_compute.
Defined.

(** X5. Every key of the resolved map is a key of the tree map, and the
    entry carries the data of the tree node stored under that key
    unchanged: name, id, store path, fetching promise, bundled flag, the
    child list and the depth. *)
Theorem resolved_entry_keeps_tree_node satisfies path_join fuel pkgsMap
    topPkgIds result log k r :
  resolvePeers_default satisfies path_join fuel pkgsMap topPkgIds
    = Ok (result, log) →
  result !! k = Some r →
  ∃ rootNodeIds treeMap pkgNode,
    createTree fuel pkgsMap topPkgIds [] ∅ = Ok (rootNodeIds, treeMap) ∧
    treeMap !! k = Some pkgNode ∧
    rt_name r = dt_name pkgNode ∧
    rt_id r = dt_id pkgNode ∧
    rt_path r = dt_path pkgNode ∧
    rt_fetchingFiles r = dt_fetchingFiles pkgNode ∧
    rt_hasBundledDependencies r = dt_hasBundledDependencies pkgNode ∧
    rt_children r = dt_children pkgNode ∧
    rt_depth r = dt_depth pkgNode.
Proof.
  intros Hrun Hk.
  destruct (resolvePeers_default_entry _ _ _ _ _ _ _ _ _ Hrun Hk)
    as (rootNodeIds & treeMap & rootNodes & rootNodeId & m & log' & Htree
        & _ & _ & Hcall & Hm & _).
  destruct (resolvePeersOfNode_entries _ _ _ _ _ _ _ _ Hcall _ _ Hm)
    as (pkgNode & Hnode & _ & ->).
  exists rootNodeIds, treeMap, pkgNode. by split_and!.
Qed.

Lemma resolved_entry_keeps_tree_node_witness :
  ∃ rootNodeIds treeMap pkgNode,
    createTree 4 shadowingPkgs ["app"] [] ∅ = Ok (rootNodeIds, treeMap) ∧
    treeMap !! "app/lib" = Some pkgNode ∧
    rt_name shadowing_lib = dt_name pkgNode ∧
    rt_id shadowing_lib = dt_id pkgNode ∧
    rt_path shadowing_lib = dt_path pkgNode ∧
    rt_fetchingFiles shadowing_lib = dt_fetchingFiles pkgNode ∧
    rt_hasBundledDependencies shadowing_lib
      = dt_hasBundledDependencies pkgNode ∧
    rt_children shadowing_lib = dt_children pkgNode ∧
    rt_depth shadowing_lib = dt_depth pkgNode.
Proof.
  apply (resolved_entry_keeps_tree_node exact_version join_segments 4
           shadowingPkgs ["app"] shadowingResolved.1 shadowingResolved.2
           "app/lib").
  - by vm_compute.
  - by vm_compute.
Defined.

Lemma length_filterBoolean l : length (filterBoolean l) ≤ length l.
Proof.
  induction l as [|[s|] l IH]; simpl; [lia| |lia].
  destruct (truthy s); simpl; lia.
Qed.

Lemma length_resolvePeers satisfies peerDependencies pkgId parentPkgs :
  length (resolvePeers satisfies peerDependencies pkgId parentPkgs).1
    ≤ length peerDependencies.
Proof.
  unfold resolvePeers. simpl.
  etrans; [apply length_filterBoolean|]. by rewrite !length_map.
Qed.

(** What an entry of the resolved map says about the peers of its node. *)
Lemma resolved_entry_peers satisfies path_join fuel pkgsMap topPkgIds
    result log k r :
  resolvePeers_default satisfies path_join fuel pkgsMap topPkgIds
    = Ok (result, log) →
  result !! k = Some r →
  ∃ rootNodeIds treeMap pkgNode,
    createTree fuel pkgsMap topPkgIds [] ∅ = Ok (rootNodeIds, treeMap) ∧
    treeMap !! k = Some pkgNode ∧
    length (rt_resolvedPeers r) ≤ length (dt_peerDependencies pkgNode) ∧
    (rt_peerModules r = None ↔ dt_peerDependencies pkgNode = []) ∧
    (rt_peerModules r = None →
     rt_hardlinkedLocation r = path_join [rt_modules r; rt_name r]).
Proof.
  intros Hrun Hk.
  destruct (resolvePeers_default_entry _ _ _ _ _ _ _ _ _ Hrun Hk)
    as (rootNodeIds & treeMap & rootNodes & rootNodeId & m & log' & Htree
        & _ & _ & Hcall & Hm & _).
  pose proof (createTree_keyed _ _ _ _ _ Htree) as Hkeyed.
  destruct (resolvePeersOfNode_entries _ _ _ _ _ _ _ _ Hcall _ _ Hm)
    as (pkgNode & Hnode & Hpm & Hr).
  apply (resolvePeersOfNode_closed _ _ _ Hkeyed) in Hcall as [_ Hentries].
  destruct (Hentries _ _ Hm) as (_ & _ & node' & scope & Hnode' & Hpeers).
  rewrite Hnode in Hnode'. injection Hnode' as <-.
  exists rootNodeIds, treeMap, pkgNode. split_and!; [done..| | |].
  - rewrite Hpeers. apply length_resolvePeers.
  - unfold peerModulesOf in Hpm.
    destruct (dt_peerDependencies pkgNode) as [|peer peers].
    + injection Hpm as <-. done.
    + destruct (props _ _); simpl in Hpm; [|done..].
      injection Hpm as <-. done.
  - intros Hnone. rewrite Hr, Hnone. done.
Qed.

(** X6. Peers are resolved only for nodes that declare them: an entry of
    the resolved map has at most as many resolved peers as its node
    declares; it has no [peerModules] exactly when its node declares no
    peer, and then it has no resolved peer and is hardlinked under its own
    [modules]. In particular an entry with a resolved peer has a
    [peerModules], as [linkModules] assumes. *)
Theorem peers_resolved_only_when_declared satisfies path_join fuel pkgsMap
    topPkgIds result log k r :
  resolvePeers_default satisfies path_join fuel pkgsMap topPkgIds
    = Ok (result, log) →
  result !! k = Some r →
  (∃ rootNodeIds treeMap pkgNode,
     createTree fuel pkgsMap topPkgIds [] ∅ = Ok (rootNodeIds, treeMap) ∧
     treeMap !! k = Some pkgNode ∧
     length (rt_resolvedPeers r) ≤ length (dt_peerDependencies pkgNode) ∧
     (rt_peerModules r = None ↔ dt_peerDependencies pkgNode = [])) ∧
  (rt_peerModules r = None →
   rt_resolvedPeers r = [] ∧
   rt_hardlinkedLocation r = path_join [rt_modules r; rt_name r]) ∧
  (rt_resolvedPeers r ≠ [] → is_Some (rt_peerModules r)).
Proof.
  intros Hrun Hk.
  destruct (resolved_entry_peers _ _ _ _ _ _ _ _ _ Hrun Hk)
    as (rootNodeIds & treeMap & pkgNode & Htree & Hnode & Hlen & Hnone & Hhl).
  split_and!.
  - by exists rootNodeIds, treeMap, pkgNode.
  - intros Hpm. split; [|by apply Hhl].
    apply Hnone in Hpm. rewrite Hpm in Hlen.
    by destruct (rt_resolvedPeers r); [|simpl in Hlen; lia].
  - intros Hne. destruct (rt_peerModules r) eqn:Hpm; [by eexists|].
    destruct Hnone as [Hpeers _]. rewrite Hpeers in Hlen by done.
    by destruct (rt_resolvedPeers r); [|simpl in Hlen; lia].
Qed.

Lemma fixture_default_eq :
  resolvePeers_default exact_version join_segments 5 fixturePkgs ["app"]
    = Ok (fixtureResolved.1, fixtureResolved.2).
Proof. by vm_compute. Qed.

Lemma peers_resolved_only_when_declared_witness :
  (∃ rootNodeIds treeMap pkgNode,
     createTree 5 fixturePkgs ["app"] [] ∅ = Ok (rootNodeIds, treeMap) ∧
     treeMap !! "app/react" = Some pkgNode ∧
     length (rt_resolvedPeers resolved_react)
       ≤ length (dt_peerDependencies pkgNode) ∧
     (rt_peerModules resolved_react = None
        ↔ dt_peerDependencies pkgNode = [])) ∧
  (rt_peerModules resolved_react = None →
   rt_resolvedPeers resolved_react = [] ∧
   rt_hardlinkedLocation resolved_react =
     join_segments [rt_modules resolved_react; rt_name resolved_react]) ∧
  (rt_resolvedPeers resolved_react ≠ [] →
   is_Some (rt_peerModules resolved_react)).
Proof.
  apply (peers_resolved_only_when_declared exact_version join_segments 5
           fixturePkgs ["app"] fixtureResolved.1 fixtureResolved.2
           "app/react").
  - by vm_compute.
  - by vm_compute.
Defined.

(** ** No spurious warnings *)

Section WarningFacts.
Variable satisfies : option string → string → bool.
Variable path_join : list string → string.

Lemma resolvePeers_log peerDependencies pkgId parentPkgs l :
  l ∈ (resolvePeers satisfies peerDependencies pkgId parentPkgs).2 →
  ∃ peerName peerVersionRange,
    (peerName, peerVersionRange) ∈ peerDependencies ∧
    (l = WarnNoPeer pkgId peerName peerVersionRange ∨
     ∃ version,
       l = WarnVersionMismatch pkgId peerName peerVersionRange
             (render version) ∧
       satisfies version peerVersionRange = false).
Proof.
  induction peerDependencies as [|[n range] peers IH].
  { by intros ?%elem_of_nil. }
  rewrite resolvePeers_cons. cbn [snd].
  intros [Hin|Hin]%elem_of_app.
  - exists n, range. split; [by left|].
    assert (∀ version,
              l ∈ versionWarning satisfies pkgId n range version →
              l = WarnVersionMismatch pkgId n range (render version) ∧
              satisfies version range = false) as Hversion.
    { intros version. unfold versionWarning.
      destruct (satisfies version range); [by intros ?%elem_of_nil|].
      by intros ->%list_elem_of_singleton. }
    unfold resolvePeer in Hin.
    destruct (js_get parentPkgs n) as [node| |]; simpl in Hin.
    + right. eexists. by apply Hversion.
    + right. eexists. by apply Hversion.
    + apply list_elem_of_singleton in Hin as ->. by left.
  - destruct (IH Hin) as (n' & range' & Hpeer & Hl).
    exists n', range'. split; [by right|done].
Qed.

Lemma resolveChildren_log rec children results logs l :
  resolveChildren rec children = Ok (results, logs) → l ∈ logs →
  ∃ child m log, child ∈ children ∧ m ∈ results ∧
                 rec child = Ok (m, log) ∧ l ∈ log.
Proof.
  revert results logs.
  induction children as [|child rest IH]; intros results logs; simpl.
  { intros [= <- <-]. by intros ?%elem_of_nil. }
  destruct (rec child) as [[m1 log1]| |] eqn:Hrec; simpl; [|done..].
  destruct (resolveChildren rec rest) as [[ms logs']| |] eqn:Hrest; simpl;
    [|done..].
  intros [= <- <-] [Hin|Hin]%elem_of_app.
  - exists child, m1, log1. split_and!; [by left|by left|done..].
  - destruct (IH _ _ eq_refl Hin) as (c & m & log & Hc & Hm & Hrun & Hl).
    exists c, m, log. split_and!; [by right|by right|done..].
Qed.

Lemma resolvePeersOfNode_log treeMap fuel :
  ∀ keypathId parentPkgs result log l,
    resolvePeersOfNode satisfies path_join fuel keypathId parentPkgs treeMap
      = Ok (result, log) →
    l ∈ log →
    ∃ k pkgNode,
      treeMap !! k = Some pkgNode ∧ k ∈ dom result ∧
      warning_of satisfies pkgNode l.
Proof.
  induction fuel as [|fuel IH]; [done|].
  intros keypathId parentPkgs result log l.
  rewrite resolvePeersOfNode_S.
  destruct (treeMap !! keypathId) as [pkgNode|] eqn:Hnode; [|done].
  destruct (props _ treeMap) as [childNodes| |]; [|done..].
  cbn [mbind outcome_bind].
  destruct (peerModulesOf _ _ _ _) as [peerModules| |]; [|done..].
  cbn [mbind outcome_bind].
  destruct (resolveChildren _ _) as [[results logs]| |] eqn:Hch; [|done..].
  cbn [mbind outcome_bind]. intros [= <- <-] [Hin|Hin]%elem_of_app.
  - exists keypathId, pkgNode. split_and!; [done| |].
    + apply elem_of_dom_foldl_R_merge. left. set_solver.
    + apply resolvePeers_log in Hin
        as (n & range & Hpeer & [->|(version & -> & Hsat)]); simpl; eauto.
  - destruct (resolveChildren_log _ _ _ _ _ Hch Hin)
      as (child & m & log' & _ & Hm & Hrun & Hl).
    destruct (IH _ _ _ _ _ Hrun Hl) as (k & node & Hk & Hdom & Hw).
    exists k, node. split_and!; [done| |done].
    apply elem_of_dom_foldl_R_merge. right. eauto.
Qed.

(** X7. Every line the default export logs is a warning about a node of
    the tree that has an entry in the resolved map: it carries the id of
    that node and one of the peers the node declares, and a
    version-mismatch warning carries the rendering of a version, possibly
    undefined, that does not satisfy the declared range. *)
Theorem warnings_name_declared_peers fuel pkgsMap topPkgIds result log l :
  resolvePeers_default satisfies path_join fuel pkgsMap topPkgIds
    = Ok (result, log) →
  l ∈ log →
  ∃ rootNodeIds treeMap k pkgNode,
    createTree fuel pkgsMap topPkgIds [] ∅ = Ok (rootNodeIds, treeMap) ∧
    treeMap !! k = Some pkgNode ∧
    is_Some (result !! k) ∧
    warning_of satisfies pkgNode l.
Proof.
  intros (rootNodeIds & treeMap & rootNodes & results & Htree & _ & Hch & ->)
    %resolvePeers_default_inv Hl.
  destruct (resolveChildren_log _ _ _ _ _ Hch Hl)
    as (root & m & log' & _ & Hm & Hrun & Hl').
  destruct (resolvePeersOfNode_log _ _ _ _ _ _ _ Hrun Hl')
    as (k & node & Hk & Hdom & Hw).
  exists rootNodeIds, treeMap, k, node. split_and!; [done..| |done].
  apply elem_of_dom, elem_of_dom_foldl_R_merge. right. eauto.
Qed.

End WarningFacts.

Lemma warnings_name_declared_peers_witness :
  ∃ rootNodeIds treeMap k pkgNode,
    createTree 5 fixturePkgs ["app"] [] ∅ = Ok (rootNodeIds, treeMap) ∧
    treeMap !! k = Some pkgNode ∧
    is_Some (fixtureResolved.1 !! k) ∧
    warning_of exact_version pkgNode (WarnNoPeer "tool" "grunt" "1.0.0").
Proof.
  apply (warnings_name_declared_peers exact_version join_segments 5
           fixturePkgs ["app"] fixtureResolved.1 fixtureResolved.2).
  - by vm_compute.
  - vm_compute. right. left.
Defined.

(** ** The roots are the entries of depth 0 *)

Lemma treeEntries_depth pkgsMap fuel : ∀ pkgIds keypath kp node,
  (kp, node) ∈ treeEntries fuel pkgsMap pkgIds keypath →
  length kp = S (dt_depth node).
Proof.
  induction fuel as [|fuel IH]; intros pkgIds keypath kp node.
  { by intros ?%elem_of_nil. }
  induction pkgIds as [|pkgId rest IHrest].
  { rewrite treeEntries_nil. by intros ?%elem_of_nil. }
  rewrite treeEntries_cons. intros [Hin|Hin]%elem_of_app; [|by apply IHrest].
  destruct (pkgsMap !! pkgId) as [pkg|]; [|by apply elem_of_nil in Hin].
  apply elem_of_cons in Hin as [[= -> ->]|Hin]; [|by eapply IH].
  rewrite length_app. simpl. lia.
Qed.

(** X8. The entries of depth 0 are the roots. When every package is stored
    under its own id, every root id has an entry in the resolved map and
    every entry of depth 0 is stored under a root id; when moreover the
    keypath ids are unambiguous, the entry of every root id has depth 0.
    So the loop of line 63 symlinks the top packages, and only them, into
    [baseNodeModules]. *)
Theorem depth_zero_entries_are_roots satisfies path_join fuel pkgsMap
    topPkgIds result log :
  ids_are_keys pkgsMap →
  resolvePeers_default satisfies path_join fuel pkgsMap topPkgIds
    = Ok (result, log) →
  (∀ k, k ∈ topPkgIds → is_Some (result !! k)) ∧
  (∀ k r, result !! k = Some r → rt_depth r = 0 → k ∈ topPkgIds) ∧
  (unambiguous_keypaths pkgsMap →
   ∀ k r, result !! k = Some r → k ∈ topPkgIds → rt_depth r = 0).
Proof.
  intros Hkeys Hrun.
  assert (∀ k r, result !! k = Some r →
            ∃ kp pkgId rest,
              k = String.concat "/" kp ∧ length kp = S (rt_depth r) ∧
              kp = pkgId :: rest ∧ pkgId ∈ topPkgIds ∧
              Forall (λ i, is_Some (pkgsMap !! i)) kp) as Hentry.
  { intros k r Hk.
    destruct (resolvePeers_default_entry _ _ _ _ _ _ _ _ _ Hrun Hk)
      as (rootNodeIds & treeMap & rootNodes & rootNodeId & m & log' & Htree
          & _ & _ & Hcall & Hm & _).
    destruct (resolvePeersOfNode_entries _ _ _ _ _ _ _ _ Hcall _ _ Hm)
      as (pkgNode & Hnode & _ & ->).
    destruct (createTree_spec pkgsMap Hkeys _ _ _ _ _ _ Htree)
      as (_ & _ & _ & Hlook).
    destruct (Hlook _ _ Hnode) as [Hempty|(kp & Hin & ->)];
      [by rewrite lookup_empty in Hempty|].
    pose proof (treeEntries_depth _ _ _ _ _ _ Hin) as Hdepth.
    destruct (treeEntries_prefix pkgsMap Hkeys _ _ _ _ _ Hin)
      as (pkgId & rest & Hroot & -> & Hall).
    by exists (pkgId :: rest), pkgId, rest. }
  split_and!.
  - intros k Hk.
    pose proof Hrun as (rootNodeIds & treeMap & rootNodes & results & Htree
                        & _ & Hch & ->)%resolvePeers_default_inv.
    destruct (createTree_spec pkgsMap Hkeys _ _ _ _ _ _ Htree) as (-> & _).
    apply list_elem_of_lookup in Hk as [i Hi].
    assert (((λ pkgId, String.concat "/" ([] ++ [pkgId])) <$> topPkgIds) !! i
              = Some k) as Hi' by by rewrite list_lookup_fmap, Hi.
    destruct (Forall2_lookup_l _ _ _ _ _ (resolveChildren_Forall2 _ _ _ _ Hch) Hi')
      as (m & Hm & log' & Hcall).
    apply elem_of_dom, elem_of_dom_foldl_R_merge. right. exists m.
    split; [by eapply list_elem_of_lookup_2|].
    eapply resolvePeersOfNode_dom; [done|].
    destruct fuel; [done|]. left.
  - intros k r Hk Hdepth.
    destruct (Hentry _ _ Hk) as (kp & pkgId & rest & -> & Hlen & -> & Hroot & _).
    rewrite Hdepth in Hlen. destruct rest; [done|]. simpl in Hlen. lia.
  - intros Hunamb k r Hk Hroot.
    destruct (Hentry _ _ Hk) as (kp & pkgId & rest & Heq & Hlen & Hkp & _ & Hall).
    assert (kp = [k]) as ->.
    { apply Hunamb; [by rewrite Hkp|done|done| |done].
      constructor; [|done].
      pose proof Hrun as (rootNodeIds & treeMap & _ & _ & Htree & _)
        %resolvePeers_default_inv.
      destruct (createTree_spec pkgsMap Hkeys _ _ _ _ _ _ Htree)
        as (_ & Hcomplete & _).
      destruct fuel; [done|]. simpl in Hcomplete.
      rewrite Forall_forall in Hcomplete.
      destruct (Hcomplete _ Hroot) as (pkg & -> & _). by eexists. }
    simpl in Hlen. lia.
Qed.

Lemma cycle_default_eq :
  resolvePeers_default exact_version join_segments 4 cycleAB ["A"]
    = Ok (cycleResolved.1, cycleResolved.2).
Proof. by vm_compute. Qed.

Lemma depth_zero_entries_are_roots_witness :
  (∀ k, k ∈ ["A"] → is_Some (cycleResolved.1 !! k)) ∧
  (∀ k r, cycleResolved.1 !! k = Some r → rt_depth r = 0 → k ∈ ["A"]) ∧
  (∀ k r, cycleResolved.1 !! k = Some r → k ∈ ["A"] → rt_depth r = 0).
Proof.
  destruct (depth_zero_entries_are_roots exact_version join_segments 4 cycleAB
              ["A"] cycleResolved.1 cycleResolved.2 cycleAB_ids_are_keys
              cycle_default_eq) as (Hroots & Hzero & Honly).
  split_and!; [done..|]. apply Honly, cycleAB_unambiguous.
Defined.

(** ** Where resolved peers come from *)

Section PeerChain.
Variable satisfies : option string → string → bool.
Variable path_join : list string → string.
Variable treeMap : gmap string DependencyTree.
Hypothesis Hkeyed :
  ∀ k node, treeMap !! k = Some node → dt_keypathId node = k.

Lemma resolvePeersOfNode_peer_chain fuel :
  ∀ keypathId parentPkgs result log,
    resolvePeersOfNode satisfies path_join fuel keypathId parentPkgs treeMap
      = Ok (result, log) →
    ∀ k r, result !! k = Some r →
      descends treeMap keypathId k ∧
      ∀ p, p ∈ rt_resolvedPeers r →
        (∃ n node, parentPkgs !! n = Some node ∧ dt_keypathId node = p) ∨
        ∃ a nodeA,
          descends treeMap keypathId a ∧ descends treeMap a k ∧
          treeMap !! a = Some nodeA ∧ (p = a ∨ p ∈ dt_children nodeA).
Proof.
  induction fuel as [|fuel IH]; [done|].
  intros keypathId parentPkgs result log.
  rewrite resolvePeersOfNode_S.
  destruct (treeMap !! keypathId) as [pkgNode|] eqn:Hnode; [|done].
  destruct (props _ treeMap) as [childNodes| |] eqn:Hprops; [|done..].
  cbn [mbind outcome_bind].
  destruct (peerModulesOf _ _ _ _) as [peerModules| |]; [|done..].
  cbn [mbind outcome_bind].
  destruct (resolveChildren _ _) as [[results logs]| |] eqn:Hch; [|done..].
  cbn [mbind outcome_bind]. intros [= <- <-].
  set (scope := newParentPkgs parentPkgs pkgNode childNodes) in *.
  apply props_inv in Hprops.
  assert (∀ n node, scope !! n = Some node →
            parentPkgs !! n = Some node ∨
            dt_keypathId node = keypathId ∨
            dt_keypathId node ∈ dt_children pkgNode) as Hscope.
  { intros n node. unfold scope. rewrite newParentPkgs_lookup.
    destruct (toPkgByName childNodes !! n) as [child|] eqn:Hchild.
    - intros [= <-]. right; right.
      apply toPkgByName_lookup_Some in Hchild as [Hin _].
      apply list_elem_of_lookup in Hin as [i Hi].
      destruct (Forall2_lookup_r _ _ _ _ _ Hprops Hi) as (c & Hc & Hlook).
      rewrite (Hkeyed _ _ Hlook). by eapply list_elem_of_lookup_2.
    - case_decide; [|by left]. intros [= <-]. right; left.
      by apply Hkeyed. }
  intros k r Hk.
  apply foldl_R_merge_lookup in Hk as [Hk|(m & Hm & Hk)].
  - apply lookup_singleton_Some in Hk as [<- <-].
    split; [constructor|]. unfold resolvedNode. simpl.
    intros p (n & node & Hn & ->)%resolvePeers_from_scope.
    destruct (Hscope _ _ Hn) as [?|Hhere]; [left; eauto|right].
    exists keypathId, pkgNode. split_and!; [constructor..|done|].
    destruct Hhere; auto.
  - destruct (resolveChildren_Ok_inv _ _ _ _ _ Hch Hm)
      as (child & log' & Hchild & Hrun).
    destruct (IH _ _ _ _ Hrun _ _ Hk) as [Hdesc Hpeers].
    split; [by econstructor|].
    intros p [(n & node & Hn & <-)|(a & nodeA & Ha & Hak & HnodeA & Hp)]%Hpeers.
    + destruct (Hscope _ _ Hn) as [?|Hhere]; [left; eauto|right].
      exists keypathId, pkgNode.
      split_and!; [constructor|by econstructor|done|].
      destruct Hhere; auto.
    + right. exists a, nodeA. split_and!; [by econstructor|done..].
Qed.

End PeerChain.

(** X9. Peers are found along the chain from a root to the node only. A
    resolved peer of an entry of the resolved map is a root, or it is a
    node on the chain of children that leads from a root to the node of
    the entry (the node itself included), or a child of a node on that
    chain (so a sibling of the node or of an ancestor). Nothing else is
    ever in scope. *)
Theorem resolved_peers_lie_on_the_chain satisfies path_join fuel pkgsMap
    topPkgIds result log k r p :
  resolvePeers_default satisfies path_join fuel pkgsMap topPkgIds
    = Ok (result, log) →
  result !! k = Some r →
  p ∈ rt_resolvedPeers r →
  ∃ rootNodeIds treeMap,
    createTree fuel pkgsMap topPkgIds [] ∅ = Ok (rootNodeIds, treeMap) ∧
    (p ∈ rootNodeIds ∨
     ∃ rootNodeId a nodeA,
       rootNodeId ∈ rootNodeIds ∧
       descends treeMap rootNodeId a ∧ descends treeMap a k ∧
       treeMap !! a = Some nodeA ∧ (p = a ∨ p ∈ dt_children nodeA)).
Proof.
  intros Hrun Hk Hp.
  destruct (resolvePeers_default_entry _ _ _ _ _ _ _ _ _ Hrun Hk)
    as (rootNodeIds & treeMap & rootNodes & rootNodeId & m & log' & Htree
        & Hroots & Hroot & Hcall & Hm & _).
  pose proof (createTree_keyed _ _ _ _ _ Htree) as Hkeyed.
  exists rootNodeIds, treeMap. split; [done|].
  destruct (resolvePeersOfNode_peer_chain _ _ _ Hkeyed _ _ _ _ _ Hcall _ _ Hm)
    as [_ Hpeers].
  destruct (Hpeers p Hp) as [(n & node & Hn & <-)|(a & nodeA & ? & ? & ? & ?)].
  - left. apply toPkgByName_lookup_Some in Hn as [Hin _].
    apply list_elem_of_lookup in Hin as [i Hi].
    destruct (Forall2_lookup_r _ _ _ _ _ Hroots Hi) as (root & Hri & Hlook).
    rewrite (Hkeyed _ _ Hlook). by eapply list_elem_of_lookup_2.
  - right. by exists rootNodeId, a, nodeA.
Qed.

Lemma resolved_peers_lie_on_the_chain_witness :
  ∃ rootNodeIds treeMap,
    createTree 4 shadowingPkgs ["app"] [] ∅ = Ok (rootNodeIds, treeMap) ∧
    ("app/lib/react16" ∈ rootNodeIds ∨
     ∃ rootNodeId a nodeA,
       rootNodeId ∈ rootNodeIds ∧
       descends treeMap rootNodeId a ∧ descends treeMap a "app/lib/plugin" ∧
       treeMap !! a = Some nodeA ∧
       ("app/lib/react16" = a ∨ "app/lib/react16" ∈ dt_children nodeA)).
Proof.
  apply (resolved_peers_lie_on_the_chain exact_version join_segments 4
           shadowingPkgs ["app"] shadowingResolved.1 shadowingResolved.2
           "app/lib/plugin" shadowing_plugin).
  - by vm_compute.
  - by vm_compute.
  - vm_compute. left.
Defined.

(** ** The shadow folder name is one path segment *)

Lemma occurrences_app c s1 s2 :
  occurrences c (s1 +:+ s2) = occurrences c s1 + occurrences c s2.
Proof.
  induction s1 as [|a s1 IH]; [done|].
  change (String a s1 +:+ s2) with (String a (s1 +:+ s2)).
  simpl. rewrite IH. lia.
Qed.

Lemma occurrences_replace_first c d s :
  c ≠ d → occurrences c (replace_first c d s) = pred (occurrences c s).
Proof.
  intros Hne. induction s as [|a s IH]; [done|]. simpl.
  destruct (Ascii.eqb a c) eqn:Ha; simpl.
  - assert (Ascii.eqb d c = false) as ->; [|done].
    apply Ascii.eqb_neq. congruence.
  - by rewrite Ha.
Qed.

Lemma occurrences_concat c sep l :
  occurrences c sep = 0 →
  occurrences c (String.concat sep l) = sum_list (occurrences c <$> l).
Proof.
  intros Hsep. induction l as [|x l IH]; [done|].
  destruct l as [|y l]; [simpl; lia|].
  change (String.concat sep (x :: y :: l))
    with (x +:+ sep +:+ String.concat sep (y :: l)).
  rewrite !occurrences_app, Hsep, IH. csimpl. lia.
Qed.

Lemma sum_list_Permutation l1 l2 : l1 ≡ₚ l2 → sum_list l1 = sum_list l2.
Proof. induction 1; simpl; lia. Qed.

Lemma occurrences_peerToken peer :
  occurrences "/" (peerToken peer) =
    pred (occurrences "/" (dt_name peer)) + occurrences "/" (dt_version peer).
Proof.
  unfold peerToken. rewrite !occurrences_app, occurrences_replace_first by done.
  simpl. lia.
Qed.

(** X10. The number of slashes in a shadow folder name: every peer adds the
    slashes of its name but the first, which is replaced, and those of its
    version. So for peers whose names have at most one slash (as scoped
    package names have) and whose versions have none, the folder name is a
    single path segment. *)
Theorem createPeersFolderName_slashes peers :
  occurrences "/" (createPeersFolderName peers) =
    sum_list ((λ peer, pred (occurrences "/" (dt_name peer))
                       + occurrences "/" (dt_version peer)) <$> peers) ∧
  (Forall (λ peer, occurrences "/" (dt_name peer) ≤ 1 ∧
                   occurrences "/" (dt_version peer) = 0) peers →
   occurrences "/" (createPeersFolderName peers) = 0).
Proof.
  assert (occurrences "/" (createPeersFolderName peers) =
            sum_list ((λ peer, pred (occurrences "/" (dt_name peer))
                               + occurrences "/" (dt_version peer)) <$> peers))
    as Hcount.
  { unfold createPeersFolderName. rewrite occurrences_concat by done.
    rewrite (sum_list_Permutation _ (occurrences "/" <$> map peerToken peers))
      by apply fmap_Permutation, merge_sort_Permutation.
    induction peers as [|peer peers IH]; [done|].
    csimpl. simpl in IH. by rewrite IH, occurrences_peerToken. }
  split; [done|]. rewrite Hcount. clear Hcount.
  induction 1 as [|peer peers [Hname Hversion] _ IH]; [done|].
  csimpl. rewrite IH, Hversion. lia.
Qed.

(** ** The names in scope *)

(** X11. [toPkgByName] has one key for every name in the list; when the
    names are distinct, the node found under a name is the node of the list
    with that name. *)
Theorem toPkgByName_names pkgs :
  dom (toPkgByName pkgs) = list_to_set (dt_name <$> pkgs) ∧
  (NoDup (dt_name <$> pkgs) →
   ∀ n pkg, toPkgByName pkgs !! n = Some pkg ↔ pkg ∈ pkgs ∧ dt_name pkg = n).
Proof.
  split.
  - induction pkgs as [|pkg pkgs IH] using rev_ind; [set_solver|].
    rewrite toPkgByName_snoc, dom_insert_L, IH, fmap_app, list_to_set_app_L.
    set_solver.
  - intros Hnd n pkg. split; [apply toPkgByName_lookup_Some|].
    intros [Hin <-]. rewrite toPkgByName_lookup.
    pose proof (NoDup_fmap_filter_length dt_name pkgs (dt_name pkg) Hnd) as Hlen.
    assert (pkg ∈ filter (λ p, dt_name p = dt_name pkg) pkgs) as Hpkg.
    { by apply list_elem_of_filter. }
    destruct (filter (λ p, dt_name p = dt_name pkg) pkgs) as [|x [|y l]].
    + by apply elem_of_nil in Hpkg.
    + by apply list_elem_of_singleton in Hpkg as ->.
    + exfalso. specialize (Hlen ltac:(apply list_elem_of_fmap; eauto)).
      simpl in Hlen. lia.
Qed.

(** ** Missing packages and short keypaths *)

Lemma createTree_complete pkgsMap fuel : ∀ pkgIds keypath treeMap r,
  createTree fuel pkgsMap pkgIds keypath treeMap = Ok r →
  treeComplete fuel pkgsMap pkgIds keypath.
Proof.
  induction fuel as [|fuel IHfuel]; [done|].
  intros pkgIds keypath.
  induction pkgIds as [|pkgId rest IHrest]; intros treeMap r Hrun.
  { by constructor. }
  cbn [createTree createTreeList] in Hrun.
  destruct (pkgsMap !! pkgId) as [pkg|] eqn:Hpkg; [|done].
  unfold createTreeNode in Hrun.
  destruct (createTree fuel pkgsMap _ _ treeMap) as [[children treeMap1]| |]
    eqn:Hchildren; [|done..].
  cbn [mbind outcome_bind] in Hrun.
  destruct (createTreeList _ pkgsMap rest keypath _) as [[ids' treeMap2]| |]
    eqn:Hrest; [|done..].
  constructor; [|by eapply (IHrest _ (ids', treeMap2))].
  exists pkg. split; [done|]. by eapply IHfuel.
Qed.

(** The only exception [createTree] throws is for a package that is not in
    the map. *)
Lemma createTree_thrown pkgsMap fuel : ∀ pkgIds keypath treeMap e,
  createTree fuel pkgsMap pkgIds keypath treeMap = Thrown e →
  ∃ pkgId, pkgsMap !! pkgId = None ∧ e = TypeErrorUndefined pkgId.
Proof.
  induction fuel as [|fuel IHfuel]; [done|].
  intros pkgIds keypath.
  induction pkgIds as [|pkgId rest IHrest]; intros treeMap e Hrun; [done|].
  cbn [createTree createTreeList] in Hrun.
  destruct (pkgsMap !! pkgId) as [pkg|] eqn:Hpkg;
    [|injection Hrun as <-; eauto].
  unfold createTreeNode in Hrun.
  destruct (createTree fuel pkgsMap _ _ treeMap) as [[children treeMap1]| |]
    eqn:Hchildren; [|injection Hrun as <-; by eapply IHfuel|done].
  cbn [mbind outcome_bind] in Hrun.
  destruct (createTreeList _ pkgsMap rest keypath _) as [[ids' treeMap2]| |]
    eqn:Hrest; [done| |done].
  injection Hrun as <-. by eapply IHrest.
Qed.

(** X12. A missing package is fatal. When every package is stored under its
    own id and a root lists a dependency that is not in the package map,
    [createTree] throws a [TypeError] for a package that is not in the map,
    for every recursion bound from some bound on: it returns no tree. *)
Theorem createTree_throws_on_missing_package pkgsMap pkgIds treeMap
    root pkg depId :
  ids_are_keys pkgsMap →
  root ∈ pkgIds →
  pkgsMap !! root = Some pkg →
  depId ∈ lp_dependencies pkg →
  pkgsMap !! depId = None →
  ∃ fuel0, ∀ fuel, fuel0 ≤ fuel →
    ∃ missing,
      pkgsMap !! missing = None ∧
      createTree fuel pkgsMap pkgIds [] treeMap
        = Thrown (TypeErrorUndefined missing).
Proof.
  intros Hkeys Hroot Hpkg Hdep Hmissing.
  destruct (createTree_terminates pkgsMap pkgIds [] treeMap Hkeys)
    as [fuel0 Hterm].
  exists fuel0. intros fuel Hfuel. specialize (Hterm fuel Hfuel).
  destruct (createTree fuel pkgsMap pkgIds [] treeMap) as [r|e|] eqn:Hrun;
    [|by apply createTree_thrown in Hrun as (missing & ? & ->); eauto|done].
  exfalso. apply createTree_complete in Hrun.
  destruct fuel as [|fuel]; [done|]. simpl in Hrun.
  rewrite Forall_forall in Hrun.
  destruct (Hrun _ Hroot) as (pkg' & Hpkg' & Hkids).
  rewrite Hpkg in Hpkg'. injection Hpkg' as <-.
  destruct fuel as [|fuel]; [done|]. simpl in Hkids.
  rewrite Forall_forall in Hkids.
  destruct (Hkids depId) as (? & ? & _); [|congruence].
  apply elem_of_getNonCircularDependencies. split; [done|].
  by intros ?%elem_of_nil.
Qed.

Lemma createTree_throws_on_missing_package_witness :
  ∃ fuel0, ∀ fuel, fuel0 ≤ fuel →
    ∃ missing,
      danglingPkgs !! missing = None ∧
      createTree fuel danglingPkgs ["app"] [] ∅
        = Thrown (TypeErrorUndefined missing).
Proof.
  apply (createTree_throws_on_missing_package danglingPkgs ["app"] ∅ "app"
           (linkedPackage "app" None ["react"; "redux"]) "redux").
  - intros k p. unfold danglingPkgs.
    rewrite !lookup_insert_Some, lookup_empty. naive_solver.
  - by left.
  - by vm_compute.
  - by right; left.
  - by vm_compute.
Defined.

(** X13. Cutting needs two ancestors that are the node and its dependency:
    [getNonCircularDependencies] keeps the order of the dependency ids, and
    keeps every dependency id when the keypath has fewer than two elements,
    and every dependency id that is not in the keypath or whose parent is
    not in the keypath. *)
Theorem getNonCircularDependencies_keeps parentId dependencyIds keypath depId :
  depId ∈ dependencyIds →
  length keypath ≤ 1 ∨ depId ∉ keypath ∨ parentId ∉ keypath →
  depId ∈ getNonCircularDependencies parentId dependencyIds keypath ∧
  getNonCircularDependencies parentId dependencyIds keypath
    `sublist_of` dependencyIds.
Proof.
  intros Hin Hcase. split; [|apply sublist_filter].
  apply elem_of_getNonCircularDependencies. split; [done|].
  intros (l1 & l2 & Heq)%elem_of_aperture2. simpl in Heq.
  destruct Hcase as [Hlen|[Hnot|Hnot]].
  - rewrite Heq, length_app in Hlen. simpl in Hlen. lia.
  - apply Hnot. rewrite Heq. set_solver.
  - apply Hnot. rewrite Heq. set_solver.
Qed.

Lemma getNonCircularDependencies_keeps_witness :
  "A" ∈ getNonCircularDependencies "B" ["A"] ["A"] ∧
  getNonCircularDependencies "B" ["A"] ["A"] `sublist_of` ["A"].
Proof.
  apply getNonCircularDependencies_keeps.
  - by left.
  - left. simpl. lia.
Defined.
(** ** The scope a node is resolved in *)

Section ScopeChain.
Variable satisfies : option string → string → bool.
Variable path_join : list string → string.

(** Every entry [resolvePeersOfNode] returns was built by the call for
    some node on a path from the node it was called on, with the peers
    resolved in the scope accumulated along that path. *)
Lemma resolvePeersOfNode_scope treeMap fuel :
  ∀ keypathId parentPkgs result log k entry,
    resolvePeersOfNode satisfies path_join fuel keypathId parentPkgs treeMap
      = Ok (result, log) →
    result !! k = Some entry →
    ∃ chain scope pkgNode,
      head chain = Some keypathId ∧ last chain = Some k ∧
      tree_path treeMap chain ∧
      treeMap !! k = Some pkgNode ∧
      rt_children entry = dt_children pkgNode ∧
      scopeAlong treeMap parentPkgs chain = Some scope ∧
      rt_resolvedPeers entry =
        (resolvePeers satisfies (dt_peerDependencies pkgNode) (dt_id pkgNode)
           scope).1.
Proof.
  induction fuel as [|fuel IH]; [done|].
  intros keypathId parentPkgs result log k entry.
  rewrite resolvePeersOfNode_S.
  destruct (treeMap !! keypathId) as [pkgNode|] eqn:Hnode; [|done].
  destruct (props _ treeMap) as [childNodes| |] eqn:Hprops; [|done..].
  cbn [mbind outcome_bind].
  destruct (peerModulesOf _ _ _ _) as [peerModules| |]; [|done..].
  cbn [mbind outcome_bind].
  destruct (resolveChildren _ _) as [[results logs]| |] eqn:Hch; [|done..].
  cbn [mbind outcome_bind]. intros [= <- <-].
  intros [Hk|(m & Hm & Hk)]%foldl_R_merge_lookup.
  - apply lookup_singleton_Some in Hk as [<- <-].
    exists [keypathId], (newParentPkgs parentPkgs pkgNode childNodes), pkgNode.
    split_and!; try done. simpl. by rewrite Hnode, Hprops.
  - destruct (resolveChildren_Ok_inv _ _ _ _ _ Hch Hm)
      as (child & log' & Hchild & Hcall).
    destruct (IH _ _ _ _ _ _ Hcall Hk)
      as (chain & scope & node & Hhead & Hlast & Hpath & Hk' & Hchildren
          & Hscope & Hpeers).
    exists (keypathId :: chain), scope, node.
    destruct chain as [|c chain]; [done|]. injection Hhead as ->.
    split_and!; try done.
    + split; [|done]. by exists pkgNode.
    + simpl. rewrite Hnode, Hprops. done.
Qed.

(** C5, amended. The scope in which a node's peers are resolved is the
    caller's scope overlaid with the node under its own name and then with
    its direct children under theirs: a lookup finds a child of that name
    first (the last one, if several share it), else the node itself, else
    what the caller's scope holds. This scope is the one every child is
    visited with. In a run of the default export the roots are visited
    with the scope of the roots by name, and every child of a visited node
    is visited; so every entry of the resolved map belongs to a node at
    the end of a path of the tree from a root, and its peers were resolved
    in the scope accumulated along that path: the roots, then for each
    node of the path in turn the node and all its children, whether they
    had been visited or not. *)
Theorem peer_scope_precedence :
  (∀ parentPkgs pkgNode childNodes n,
      newParentPkgs parentPkgs pkgNode childNodes !! n =
        match last (filter (λ child, dt_name child = n) childNodes) with
        | Some child => Some child
        | None =>
            if decide (n = dt_name pkgNode) then Some pkgNode
            else parentPkgs !! n
        end) ∧
  (∀ fuel pkgsMap topPkgIds result log,
      resolvePeers_default satisfies path_join fuel pkgsMap topPkgIds
        = Ok (result, log) →
      ∃ rootNodeIds treeMap rootNodes,
        createTree fuel pkgsMap topPkgIds [] ∅ = Ok (rootNodeIds, treeMap) ∧
        props rootNodeIds treeMap = Ok rootNodes ∧
        (∀ root, root ∈ rootNodeIds → is_Some (result !! root)) ∧
        ∀ k entry,
          result !! k = Some entry →
          (∀ c, c ∈ rt_children entry → is_Some (result !! c)) ∧
          ∃ chain scope pkgNode,
            (∃ root, head chain = Some root ∧ root ∈ rootNodeIds) ∧
            last chain = Some k ∧
            tree_path treeMap chain ∧
            treeMap !! k = Some pkgNode ∧
            rt_children entry = dt_children pkgNode ∧
            scopeAlong treeMap (toPkgByName rootNodes) chain = Some scope ∧
            rt_resolvedPeers entry =
              (resolvePeers satisfies (dt_peerDependencies pkgNode)
                 (dt_id pkgNode) scope).1).
Proof.
  split.
  { intros parentPkgs pkgNode childNodes n.
    rewrite newParentPkgs_lookup. by rewrite toPkgByName_lookup. }
  intros fuel pkgsMap topPkgIds result log Hrun.
  pose proof Hrun as Hsteps. unfold resolvePeers_default in Hsteps.
  destruct (createTree _ _ _ _ _) as [[rootNodeIds treeMap]| |] eqn:Htree;
    [|done..].
  cbn [mbind outcome_bind] in Hsteps.
  destruct (props _ _) as [rootNodes| |] eqn:Hprops; [|done..].
  cbn [mbind outcome_bind] in Hsteps.
  destruct (resolveChildren _ _) as [[results logs]| |] eqn:Hch; [|done..].
  cbn [mbind outcome_bind] in Hsteps. injection Hsteps as <- <-.
  exists rootNodeIds, treeMap, rootNodes. split_and!; [done..| |].
  - intros root Hroot. apply elem_of_dom.
    apply list_elem_of_lookup in Hroot as [i Hi].
    destruct (Forall2_lookup_l _ _ _ _ _
                (resolveChildren_Forall2 _ _ _ _ Hch) Hi)
      as (m & Hm & log' & Hcall).
    apply elem_of_dom_foldl_R_merge. right. exists m.
    split; [by eapply list_elem_of_lookup_2|].
    eapply resolvePeersOfNode_dom; [done|].
    destruct fuel; [done|]. left.
  - intros k entry Hk. split.
    { by apply (resolved_entry_refs _ _ _ _ _ _ _ _ _ Hrun Hk). }
    apply foldl_R_merge_lookup in Hk as [Hk|(m & Hm & Hk)];
      [by rewrite lookup_empty in Hk|].
    destruct (resolveChildren_Ok_inv _ _ _ _ _ Hch Hm)
      as (root & log' & Hroot & Hcall).
    destruct (resolvePeersOfNode_scope _ _ _ _ _ _ _ _ Hcall Hk)
      as (chain & scope & node & Hhead & Hlast & Hpath & Hk' & Hchildren
          & Hscope & Hpeers).
    exists chain, scope, node. split_and!; try done. by exists root.
Qed.

End ScopeChain.

Lemma peer_scope_precedence_witness :
  ∃ rootNodeIds treeMap rootNodes,
    createTree 4 shadowingPkgs ["app"] [] ∅ = Ok (rootNodeIds, treeMap) ∧
    props rootNodeIds treeMap = Ok rootNodes ∧
    (∀ root, root ∈ rootNodeIds → is_Some (shadowingResolved.1 !! root)) ∧
    ∀ k entry,
      shadowingResolved.1 !! k = Some entry →
      (∀ c, c ∈ rt_children entry → is_Some (shadowingResolved.1 !! c)) ∧
      ∃ chain scope pkgNode,
        (∃ root, head chain = Some root ∧ root ∈ rootNodeIds) ∧
        last chain = Some k ∧
        tree_path treeMap chain ∧
        treeMap !! k = Some pkgNode ∧
        rt_children entry = dt_children pkgNode ∧
        scopeAlong treeMap (toPkgByName rootNodes) chain = Some scope ∧
        rt_resolvedPeers entry =
          (resolvePeers exact_version (dt_peerDependencies pkgNode)
             (dt_id pkgNode) scope).1.
Proof.
  apply (proj2 (peer_scope_precedence exact_version join_segments)
           4 shadowingPkgs ["app"] shadowingResolved.1 shadowingResolved.2).
  by vm_compute.
Defined.

(** In [laterSiblingPkgs] the plugin is visited before the [react] that
    follows it among the children of the application, and its peer
    resolves to that [react]: the scope of a node holds siblings that have
    not been visited yet. *)
Lemma later_sibling_not_yet_visited :
  ¬ peers_resolved_among_visited exact_version join_segments laterSiblingPkgs
      ["app"].
Proof.
  intros Hvisited.
  specialize (Hvisited 3 ["app"] laterSiblingTree laterSiblingResolved.1
                laterSiblingResolved.2).
  cbv zeta in Hvisited.
  assert ((rootNodeId ← ["app"]; visits 3 laterSiblingTree rootNodeId)
            = ["app"; "app/plugin"; "app/react16"]) as Horder
    by (vm_compute; reflexivity).
  rewrite Horder in Hvisited.
  set (entry := default resolved_react
                  (laterSiblingResolved.1 !! "app/plugin")).
  assert (laterSiblingResolved.1 !! "app/plugin" = Some entry) as Hentry
    by (vm_compute; reflexivity).
  assert (rt_resolvedPeers entry = ["app/react16"]) as Hpeers
    by (vm_compute; reflexivity).
  assert (rt_children entry = []) as Hchildren by (vm_compute; reflexivity).
  clearbody entry.
  destruct (Hvisited ltac:(vm_compute; reflexivity)
              ltac:(vm_compute; reflexivity)
              "app/plugin" entry "app/react16" Hentry)
    as [Heq|[Hchild|(i & j & Hi & Hj & Hlt)]].
  - rewrite Hpeers. apply list_elem_of_singleton. reflexivity.
  - discriminate Heq.
  - rewrite Hchildren in Hchild. by apply elem_of_nil in Hchild.
  - destruct i as [|[|[|i]]]; simpl in Hi; try discriminate Hi.
    destruct j as [|[|[|j]]]; simpl in Hj; try discriminate Hj. lia.
Qed.

(** What the resolver returns for [laterSiblingPkgs]. *)
Example later_sibling_resolved :
  visits 3 laterSiblingTree "app" = ["app"; "app/plugin"; "app/react16"] ∧
  rt_resolvedPeers <$> laterSiblingResolved.1 !! "app/plugin"
    = Some ["app/react16"].
Proof. by vm_compute. Qed.

(** The scope of the plugin of [shadowingPkgs], accumulated along its path
    from the root: [react] is the library's [react] 16, which overlays the
    application's [react] 15. *)
Example scope_along_shadowing_path :
  let roots := toPkgByName (omap (shadowingTree !!.) ["app"]) in
  dt_keypathId <$>
    (scopeAlong shadowingTree roots ["app"; "app/lib"; "app/lib/plugin"]
       ≫= (.!! "react"))
    = Some "app/lib/react16" ∧
  dt_keypathId <$> (scopeAlong shadowingTree roots ["app"] ≫= (.!! "react"))
    = Some "app/react15".
Proof. vm_compute. split; reflexivity. Qed.

(** ** The package map of the linker *)

Section LinkMapFacts.
Variable path_join : list string → string.

Lemma pkgsToLinkOf_snoc base installed installedPkg :
  pkgsToLinkOf path_join base (installed ++ [installedPkg]) =
    <[ip_id installedPkg := toLinkedPackage path_join base installedPkg]>
      (pkgsToLinkOf path_join base installed).
Proof. unfold pkgsToLinkOf. by rewrite foldl_snoc. Qed.

(** The package stored under an id comes from the last installed package
    with that id. *)
Lemma pkgsToLinkOf_lookup base installed i :
  pkgsToLinkOf path_join base installed !! i =
    toLinkedPackage path_join base
      <$> last (filter (λ installedPkg, ip_id installedPkg = i) installed).
Proof.
  induction installed as [|installedPkg installed IH] using rev_ind; [done|].
  rewrite pkgsToLinkOf_snoc, filter_app, filter_cons, filter_nil.
  destruct (decide (ip_id installedPkg = i)) as [<-|Hne].
  - by rewrite lookup_insert_eq, last_snoc.
  - by rewrite lookup_insert_ne, app_nil_r.
Qed.

Lemma pkgsToLinkOf_lookup_Some base installed i pkg :
  pkgsToLinkOf path_join base installed !! i = Some pkg →
  ∃ installedPkg,
    installedPkg ∈ installed ∧ ip_id installedPkg = i ∧
    pkg = toLinkedPackage path_join base installedPkg.
Proof.
  rewrite pkgsToLinkOf_lookup.
  destruct (last _) as [installedPkg|] eqn:Hlast; [|done].
  intros [= <-]. apply last_Some_elem_of, list_elem_of_filter in Hlast as [? ?].
  by exists installedPkg.
Qed.

Lemma pkgsToLinkOf_ids_are_keys base installed :
  ids_are_keys (pkgsToLinkOf path_join base installed).
Proof. by intros i pkg (installedPkg & _ & <- & ->)%pkgsToLinkOf_lookup_Some. Qed.

Lemma pkgsToLinkOf_is_Some base installed installedPkg :
  installedPkg ∈ installed →
  is_Some (pkgsToLinkOf path_join base installed !! ip_id installedPkg).
Proof.
  intros Hin. rewrite pkgsToLinkOf_lookup, fmap_is_Some.
  destruct (last _) eqn:Hlast; [by eexists|].
  apply last_None in Hlast.
  assert (installedPkg ∈ filter (λ p, ip_id p = ip_id installedPkg) installed)
    as Hf by by apply list_elem_of_filter.
  rewrite Hlast in Hf. by apply elem_of_nil in Hf.
Qed.

Lemma pkgsToLinkOf_dependencies_closed base installed :
  (∀ installedPkg depId,
     installedPkg ∈ installed → depId ∈ ip_dependencies installedPkg →
     depId ∈ ip_id <$> installed) →
  dependencies_closed (pkgsToLinkOf path_join base installed).
Proof.
  intros Hclosed i pkg (installedPkg & Hin & <- & ->)%pkgsToLinkOf_lookup_Some.
  apply Forall_forall. intros depId Hdep. simpl in Hdep.
  apply (Hclosed _ _ Hin), list_elem_of_fmap in Hdep as (p & -> & Hp).
  by apply pkgsToLinkOf_is_Some.
Qed.

(** X14. The package map the linker hands to the resolver (lines 38 to 49)
    is well formed: every package is stored under its own id; the package
    under an id is built from an installed package with that id and has
    [path.join(baseNodeModules, '.' + id)] as its local location; every
    installed package has an entry; and when every dependency id of an
    installed package is the id of an installed package, no dependency of
    the map is missing from it. *)
Theorem pkgsToLink_well_formed base installed :
  ids_are_keys (pkgsToLinkOf path_join base installed) ∧
  (∀ i pkg, pkgsToLinkOf path_join base installed !! i = Some pkg →
     lp_localLocation pkg = path_join [base; "." +:+ i] ∧
     ∃ installedPkg,
       installedPkg ∈ installed ∧ ip_id installedPkg = i ∧
       pkg = toLinkedPackage path_join base installedPkg) ∧
  (∀ installedPkg, installedPkg ∈ installed →
     is_Some (pkgsToLinkOf path_join base installed !! ip_id installedPkg)) ∧
  ((∀ installedPkg depId,
      installedPkg ∈ installed → depId ∈ ip_dependencies installedPkg →
      depId ∈ ip_id <$> installed) →
   dependencies_closed (pkgsToLinkOf path_join base installed)).
Proof.
  split_and!.
  - apply pkgsToLinkOf_ids_are_keys.
  - intros i pkg (installedPkg & Hin & <- & ->)%pkgsToLinkOf_lookup_Some.
    split; [done|]. by exists installedPkg.
  - apply pkgsToLinkOf_is_Some.
  - apply pkgsToLinkOf_dependencies_closed.
Qed.

End LinkMapFacts.

(** ** Deduplication after sorting by depth *)

Lemma depth_le_refl : Reflexive depth_le.
Proof. intros x. unfold depth_le. lia. Qed.

Lemma depth_le_trans : Transitive depth_le.
Proof. intros x y z. unfold depth_le. lia. Qed.

Lemma depth_le_total : Total depth_le.
Proof. intros x y. unfold depth_le. lia. Qed.

Lemma sortByDepth_sorted l : StronglySorted depth_le (sortByDepth l).
Proof.
  apply (@StronglySorted_merge_sort _ depth_le _ depth_le_trans depth_le_total).
Qed.

Lemma elem_of_sortByDepth l x : x ∈ sortByDepth l ↔ x ∈ l.
Proof. unfold sortByDepth. by rewrite merge_sort_Permutation. Qed.

(** In a sorted list, the element kept for a key is below every element
    with that key. *)
Lemma uniqBy_go_least {A} (R : relation A) (fn : A → string) seen l x :
  Reflexive R → StronglySorted R l → x ∈ l → fn x ∉ seen →
  ∃ x', x' ∈ uniqBy_go fn seen l ∧ fn x' = fn x ∧ R x' x.
Proof.
  intros Hrefl Hsorted. revert seen.
  induction Hsorted as [|y l Hsorted IH Hall]; intros seen Hin Hseen.
  { by apply elem_of_nil in Hin. }
  simpl. rewrite Forall_forall in Hall. case_decide as Hy.
  - apply elem_of_cons in Hin as [->|Hin]; [done|]. by apply IH.
  - destruct (decide (fn x = fn y)) as [Heq|Hne].
    + exists y. split_and!; [by left|done|].
      apply elem_of_cons in Hin as [->|Hin]; [done|by apply Hall].
    + apply elem_of_cons in Hin as [->|Hin]; [done|].
      destruct (IH (fn y :: seen) Hin) as (x' & Hx' & Hfn & HR); [set_solver|].
      exists x'. split_and!; [by right|done..].
Qed.

(** X15. Sorting by depth before [R.uniqBy] makes the shallowest node the
    one that is kept: for every node of the list, the deduplicated list
    holds a node with the same key (the same [hardlinkedLocation] on line
    53, the same [modules] on line 57) that is not deeper. *)
Theorem uniqBy_keeps_shallowest (fn : ResolvedDependencyTree → string)
    values d :
  d ∈ values →
  ∃ d', d' ∈ uniqBy fn (sortByDepth values) ∧
        fn d' = fn d ∧ rt_depth d' ≤ rt_depth d.
Proof.
  intros Hin.
  apply (uniqBy_go_least depth_le fn [] (sortByDepth values) d).
  - apply depth_le_refl.
  - apply sortByDepth_sorted.
  - by apply elem_of_sortByDepth.
  - by intros ?%elem_of_nil.
Qed.

Lemma uniqBy_keeps_shallowest_witness :
  ∃ d', d' ∈ uniqBy rt_hardlinkedLocation
               (sortByDepth [deep_react; resolved_react]) ∧
        rt_hardlinkedLocation d' = rt_hardlinkedLocation deep_react ∧
        rt_depth d' ≤ rt_depth deep_react.
Proof.
  apply (uniqBy_keeps_shallowest rt_hardlinkedLocation
           [deep_react; resolved_react] deep_react).
  by left.
Defined.

(** ** [linkPkg]: failing [fs.stat], and running twice *)

Section LinkPkgFacts.
Variable path_join : list string → string.
Context {World : Type} `{!FileSystem World}.

(** X16. [linkPkg] does not relink when it cannot compare: for a package
    that was not newly fetched, without [force], whose target manifest
    exists, a manifest of the target or of the store that [fs.stat] cannot
    read makes [linkPkg] throw for that file; nothing is linked and
    nothing is logged. *)
Theorem linkPkg_throws_when_stat_fails dependency w :
  rt_fetchingFiles dependency = Resolved false →
  pathExists w (path_join [rt_hardlinkedLocation dependency; "package.json"])
    = true →
  stat_ino w (path_join [rt_hardlinkedLocation dependency; "package.json"])
    = None ∨
  stat_ino w (path_join [rt_path dependency; "package.json"]) = None →
  ∃ file,
    file ∈ [path_join [rt_hardlinkedLocation dependency; "package.json"];
            path_join [rt_path dependency; "package.json"]] ∧
    stat_ino w file = None ∧
    linkPkg path_join dependency false w = (Thrown (ENOENT file), []).
Proof.
  intros Hfetch Hexists Hstat.
  unfold linkPkg, needsLinking, pkgLinkedToStore, isSameFile.
  rewrite Hfetch, Hexists. simpl.
  destruct (stat_ino w (path_join [rt_hardlinkedLocation dependency; _]))
    as [ino1|] eqn:Htarget.
  - destruct Hstat as [?|Hstore]; [done|]. rewrite Hstore.
    eexists. split_and!; [by right; left|done..].
  - eexists. split_and!; [by left|done..].
Qed.

(** X17. Linking is idempotent. On a file system whose [link-dir] leaves
    the manifest of the target as the same file as the manifest of the
    store, after any successful [linkPkg] a second [linkPkg] of the same
    node (without [force], the content being in the store already) links
    nothing, logs nothing and leaves the file system as it is. *)
Theorem linkPkg_second_run_links_nothing dependency force w w' :
  linkDir_links_manifest path_join →
  (linkPkg path_join dependency force w).1 = Ok w' →
  linkPkg path_join (alreadyFetched dependency) false w' = (Ok w', []).
Proof.
  intros Hlink Hrun.
  assert (pathExists w'
            (path_join [rt_hardlinkedLocation dependency; "package.json"])
            = true ∧
          ∃ ino,
            stat_ino w'
              (path_join [rt_hardlinkedLocation dependency; "package.json"])
              = Some ino ∧
            stat_ino w' (path_join [rt_path dependency; "package.json"])
              = Some ino) as (Hexists & ino & Htarget & Hstore).
  { unfold linkPkg in Hrun.
    destruct (rt_fetchingFiles dependency) as [newlyFetched|]; [|done].
    destruct (needsLinking _ _ _ _ _ _) as [[[|]| |] tr] eqn:Hneeds;
      simpl in Hrun; [by eapply Hlink| |done..].
    injection Hrun as <-.
    unfold needsLinking in Hneeds.
    destruct newlyFetched; [done|]. destruct force; [done|].
    destruct (pathExists w _) eqn:Hexists; [|done]. simpl in Hneeds.
    split; [done|].
    unfold pkgLinkedToStore, isSameFile in Hneeds.
    destruct (stat_ino w (path_join [rt_hardlinkedLocation dependency; _]))
      as [ino1|]; [|done].
    destruct (stat_ino w (path_join [rt_path dependency; _])) as [ino2|];
      [|done].
    case_bool_decide as Hino; [|done]. subst. by exists ino2. }
  unfold linkPkg, needsLinking, pkgLinkedToStore, isSameFile. simpl.
  rewrite Hexists, Htarget, Hstore. simpl.
  by rewrite bool_decide_true.
Qed.

End LinkPkgFacts.

Lemma linkPkg_throws_when_stat_fails_witness :
  ∃ file,
    file ∈ [join_segments [rt_hardlinkedLocation resolved_react; "package.json"];
            join_segments [rt_path resolved_react; "package.json"]] ∧
    stat_ino unstored_world file = None ∧
    linkPkg join_segments resolved_react false unstored_world
      = (Thrown (ENOENT file), []).
Proof.
  apply (linkPkg_throws_when_stat_fails join_segments resolved_react
           unstored_world).
  - reflexivity.
  - by vm_compute.
  - right. by vm_compute.
Defined.

Lemma inode_fs_links_manifest :
  linkDir_links_manifest (World := gmap string nat) join_segments.
Proof.
  intros src dest w w'. simpl. unfold inode_linkDir, inode_exists, inode_stat.
  destruct (w !! join_segments [src; "package.json"]) as [ino|] eqn:Hsrc;
    [|done].
  intros [= <-]. rewrite lookup_insert_eq. split.
  - apply bool_decide_eq_true. by eexists.
  - exists ino. split; [done|].
    destruct (decide (join_segments [dest; "package.json"]
                      = join_segments [src; "package.json"])) as [->|Hne].
    + by rewrite lookup_insert_eq.
    + by rewrite lookup_insert_ne.
Qed.

Lemma linkPkg_second_run_links_nothing_witness :
  linkPkg join_segments (alreadyFetched resolved_react) false linked_world
    = (Ok linked_world, []).
Proof.
  apply (linkPkg_second_run_links_nothing join_segments resolved_react false
           unlinked_world linked_world).
  - apply inode_fs_links_manifest.
  - by vm_compute.
Defined.

(** ** The symlink phases *)

Section SymlinkFacts.
Variable path_join : list string → string.
Variable R_values : ∀ V, gmap string V → list V.
Context {World : Type} `{!FileSystem World} `{!LinkTools World}.

Lemma elem_of_andThen (m k : World → outcome World * list link_event) w e :
  e ∈ (andThen m k w).2 →
  e ∈ (m w).2 ∨ ∃ w1, (m w).1 = Ok w1 ∧ e ∈ (k w1).2.
Proof.
  unfold andThen. destruct (m w) as [[w1| |] tr]; simpl; [|by left..].
  destruct (k w1) as [r tr'] eqn:Hk. simpl.
  intros [?|?]%elem_of_app; [by left|right]. exists w1. by rewrite Hk.
Qed.

Lemma andThen_trace (m k : World → outcome World * list link_event) w w1 :
  (m w).1 = Ok w1 → (andThen m k w).2 = (m w).2 ++ (k w1).2.
Proof.
  unfold andThen. destruct (m w) as [[w1'| |] tr]; simpl; [|done..].
  intros [= ->]. by destruct (k w1).
Qed.

Lemma andThen_Ok (m k : World → outcome World * list link_event) w w1 w2 :
  (m w).1 = Ok w1 → (k w1).1 = Ok w2 → (andThen m k w).1 = Ok w2.
Proof.
  unfold andThen. destruct (m w) as [[w1'| |] tr]; simpl; [|done..].
  intros [= ->]. by destruct (k w1).
Qed.

Lemma elem_of_forEach {A} (f : A → World → outcome World * list link_event)
    l w e :
  e ∈ (forEach f l w).2 → ∃ x w', x ∈ l ∧ e ∈ (f x w').2.
Proof.
  revert w. induction l as [|x l IH]; intros w; simpl.
  { by intros ?%elem_of_nil. }
  intros [Hin|(w1 & _ & Hin)]%elem_of_andThen.
  - exists x, w. split; [by left|done].
  - destruct (IH _ Hin) as (y & w' & Hy & He). exists y, w'.
    split; [by right|done].
Qed.

Lemma forEach_Ok {A} (f : A → World → outcome World * list link_event) l :
  (∀ x w, x ∈ l → ∃ w', (f x w).1 = Ok w') →
  ∀ w, ∃ w', (forEach f l w).1 = Ok w'.
Proof.
  induction l as [|x l IH]; intros Hall w; simpl; [by exists w|].
  destruct (Hall x w) as [w1 Hx]; [by left|].
  destruct (IH (λ y w' Hy, Hall y w' (list_elem_of_further _ _ _ Hy)) w1)
    as [w2 Hrest].
  exists w2. by eapply andThen_Ok.
Qed.

Lemma elem_of_allOf {A} (f : A → World → outcome World * list link_event)
    l w e :
  e ∈ (allOf f l w).2 → ∃ x w', x ∈ l ∧ e ∈ (f x w').2.
Proof.
  revert w. induction l as [|x l IH]; intros w; simpl.
  { by intros ?%elem_of_nil. }
  intros [Hin|Hin]%elem_of_app.
  - exists x, w. split; [by left|done].
  - destruct (IH _ Hin) as (y & w' & Hy & He). exists y, w'.
    split; [by right|done].
Qed.

Lemma allOf_Ok {A} (f : A → World → outcome World * list link_event) l :
  (∀ x w, x ∈ l → ∃ w', (f x w).1 = Ok w') →
  ∀ w, ∃ w', (allOf f l w).1 = Ok w'.
Proof.
  induction l as [|x l IH]; intros Hall w; simpl; [by exists w|].
  destruct (Hall x w) as [w1 Hx]; [by left|]. rewrite Hx. simpl.
  apply IH. intros y w' Hy. apply Hall. by right.
Qed.

Lemma elem_of_mapProps
    (f : ResolvedDependencyTree →
         error + (World → outcome World * list link_event))
    keys pkgMap request :
  request ∈ (mapProps f keys pkgMap).1 →
  ∃ k v, k ∈ keys ∧ pkgMap !! k = Some v ∧ f v = inr request.
Proof.
  induction keys as [|k keys IH]; simpl.
  { by intros ?%elem_of_nil. }
  destruct (pkgMap !! k) as [v|] eqn:Hv; [|by intros ?%elem_of_nil].
  destruct (f v) as [e|r] eqn:Hf; [by intros ?%elem_of_nil|].
  simpl. intros [->|Hin]%elem_of_cons.
  - exists k, v. split; [by left|done].
  - destruct (IH Hin) as (k' & v' & Hk' & Hv' & Hf'). exists k', v'.
    split; [by right|done].
Qed.

Lemma mapProps_complete
    (f : ResolvedDependencyTree →
         error + (World → outcome World * list link_event))
    keys pkgMap :
  (∀ k, k ∈ keys → ∃ v request, pkgMap !! k = Some v ∧ f v = inr request) →
  (mapProps f keys pkgMap).2 = None.
Proof.
  induction keys as [|k keys IH]; intros Hall; [done|]. simpl.
  destruct (Hall k) as (v & request & -> & ->); [by left|]. simpl.
  apply IH. intros k' Hk'. apply Hall. by right.
Qed.

Lemma elem_of_allProps
    (f : ResolvedDependencyTree →
         error + (World → outcome World * list link_event))
    keys pkgMap w e :
  e ∈ (allProps f keys pkgMap w).2 →
  ∃ k v request w',
    k ∈ keys ∧ pkgMap !! k = Some v ∧ f v = inr request ∧ e ∈ (request w').2.
Proof.
  unfold allProps. cbn [snd].
  intros (request & w' & (k & v & Hk & Hv & Hf)%elem_of_mapProps & He)
    %elem_of_allOf.
  by exists k, v, request, w'.
Qed.

Lemma allProps_Ok
    (f : ResolvedDependencyTree →
         error + (World → outcome World * list link_event))
    keys pkgMap :
  (∀ k, k ∈ keys →
     ∃ v request, pkgMap !! k = Some v ∧ f v = inr request ∧
                  ∀ w, ∃ w', (request w).1 = Ok w') →
  ∀ w, ∃ w', (allProps f keys pkgMap w).1 = Ok w'.
Proof.
  intros Hall w. unfold allProps. cbn [fst].
  rewrite mapProps_complete.
  2: { intros k Hk. destruct (Hall k Hk) as (v & request & ? & ? & _). eauto. }
  apply allOf_Ok.
  intros request w0 (k & v & Hk & Hv & Hf)%elem_of_mapProps.
  destruct (Hall k Hk) as (v' & request' & Hv' & Hf' & Hok).
  assert (request' = request) as <- by congruence. apply Hok.
Qed.

(** The symlinks of [linkIndependentModules]: the children of the node, in
    its [modules]. *)
Lemma linkIndependentModules_events pkg pkgMap w e :
  e ∈ (linkIndependentModules path_join pkg pkgMap w).2 →
  ∃ c child,
    c ∈ rt_children pkg ∧ pkgMap !! c = Some child ∧
    e = SymlinkDir (rt_hardlinkedLocation child)
          (path_join [rt_modules pkg; rt_name child]).
Proof.
  intros (c & child & request & w' & Hc & Hchild & [= <-] & He)
    %elem_of_allProps.
  apply list_elem_of_singleton in He. by exists c, child.
Qed.

(** The symlinks of [linkModules]: the resolved peers of the node, in its
    [peerModules]. *)
Lemma linkModules_symlinks dependency pkgMap w src dest :
  SymlinkDir src dest ∈ (linkModules path_join dependency pkgMap w).2 →
  ∃ p peer peerModules,
    p ∈ rt_resolvedPeers dependency ∧ pkgMap !! p = Some peer ∧
    rt_peerModules dependency = Some peerModules ∧
    src = rt_hardlinkedLocation peer ∧
    dest = path_join [peerModules; rt_name peer].
Proof.
  unfold linkModules.
  intros [Hin|(w1 & _ & Hin)]%elem_of_andThen.
  - apply elem_of_allProps in Hin
      as (p & peer & request & w' & Hp & Hpeer & Hf & He).
    unfold symlinkPeer in Hf.
    destruct (rt_peerModules dependency) as [peerModules|]; [|done].
    injection Hf as <-.
    apply list_elem_of_singleton in He. injection He as -> ->.
    by exists p, peer, peerModules.
  - exfalso.
    apply elem_of_andThen in Hin as [Hin|(w2 & _ & Hin)];
      [by apply list_elem_of_singleton in Hin|].
    apply elem_of_andThen in Hin as [Hin|(w3 & _ & Hin)].
    + destruct (rt_peerModules dependency) as [peerModules|];
        [destruct (truthy peerModules)|]; simpl in Hin;
        first [by apply list_elem_of_singleton in Hin
              |by apply elem_of_nil in Hin].
    + destruct (rt_hasBundledDependencies dependency); simpl in Hin;
        first [by apply list_elem_of_singleton in Hin
              |by apply elem_of_nil in Hin].
Qed.

Lemma linkAllPkgsStep_result alldeps force w :
  (linkAllPkgsStep path_join alldeps force w).1
    = (linkAllPkgs path_join alldeps force w).1.
Proof. unfold linkAllPkgsStep. by destruct (linkAllPkgs _ _ _ _). Qed.

Lemma linkAllPkgsStep_trace alldeps force w :
  (linkAllPkgsStep path_join alldeps force w).2
    = Fs <$> (linkAllPkgs path_join alldeps force w).2.
Proof. unfold linkAllPkgsStep. by destruct (linkAllPkgs _ _ _ _). Qed.

(** With [force], a successful hardlink phase links every node of its
    list. *)
Lemma linkAllPkgs_forced_elem alldeps w w' d :
  (linkAllPkgs path_join alldeps true w).1 = Ok w' →
  d ∈ alldeps →
  ∃ store,
    LinkDir store (rt_hardlinkedLocation d)
      ∈ (linkAllPkgs path_join alldeps true w).2.
Proof.
  intros Hrun Hd. exists (rt_path d).
  rewrite linkAllPkgs_trace_forced. apply list_elem_of_bind.
  exists d. split; [|done].
  destruct (linkAllPkgs_runs path_join alldeps true w)
    as (ws & Hlen & _ & _ & _ & Hok).
  apply list_elem_of_lookup in Hd as [i Hi].
  destruct (lookup_lt_is_Some_2 ws i) as [wi Hwi].
  { rewrite Hlen. by eapply lookup_lt_Some. }
  destruct Hok as [Hok _].
  destruct (Hok (ex_intro _ w' Hrun) i d wi Hi Hwi) as [w1 Hw1].
  unfold forcedLink. unfold linkPkg in Hw1.
  destruct (rt_fetchingFiles d); [left|done].
Qed.

(** The [link-dir] requests of the hardlink phase: store path and hardlink
    target of a node of its list. *)
Lemma linkPkg_LinkDir_elem dependency force w src dest :
  LinkDir src dest ∈ (linkPkg path_join dependency force w).2 →
  src = rt_path dependency ∧ dest = rt_hardlinkedLocation dependency.
Proof.
  unfold linkPkg.
  destruct (rt_fetchingFiles dependency) as [newlyFetched|];
    [|by intros ?%elem_of_nil].
  pose proof (needsLinking_trace path_join w newlyFetched force
                (path_join [rt_hardlinkedLocation dependency; "package.json"])
                dependency (LinkDir src dest)) as Hno.
  destruct (needsLinking _ _ _ _ _ _) as [[[|]| |] tr]; simpl in *;
    try (intros Hin; by apply Hno in Hin).
  intros [Hin|Hin]%elem_of_app; [by apply Hno in Hin|].
  apply list_elem_of_singleton in Hin. by injection Hin as -> ->.
Qed.

Lemma linkAllPkgs_LinkDir_elem alldeps force : ∀ w src dest,
  LinkDir src dest ∈ (linkAllPkgs path_join alldeps force w).2 →
  ∃ d, d ∈ alldeps ∧ src = rt_path d ∧ dest = rt_hardlinkedLocation d.
Proof.
  induction alldeps as [|d alldeps IH]; intros w src dest; simpl.
  { by intros ?%elem_of_nil. }
  intros [[? ?]%linkPkg_LinkDir_elem|(d' & ? & ?)%IH]%elem_of_app.
  - exists d. split; [by left|done].
  - exists d'. split; [by right|done].
Qed.

(** What a symlink in the trace of lines 51 to 67 says: the hardlink phase
    had succeeded, the symlink comes after it, and it is the symlink of a
    root, of a child or of a resolved peer. *)
Lemma linkResolved_symlink_inv pkgsToLink force global base w src dest :
  enumerates_values R_values →
  SymlinkDir src dest
    ∈ (linkResolved path_join R_values pkgsToLink force global base w).2 →
  let deps :=
    uniqBy rt_hardlinkedLocation (sortByDepth (R_values _ pkgsToLink)) in
  ∃ w1 tr2 k d,
    (linkAllPkgs path_join deps force w).1 = Ok w1 ∧
    (linkResolved path_join R_values pkgsToLink force global base w).2
      = (Fs <$> (linkAllPkgs path_join deps force w).2) ++ tr2 ∧
    SymlinkDir src dest ∈ tr2 ∧
    pkgsToLink !! k = Some d ∧
    src = rt_hardlinkedLocation d ∧
    ((rt_depth d = 0 ∧ dest = path_join [base; rt_name d]) ∨
     ∃ k' parent,
       pkgsToLink !! k' = Some parent ∧
       ((k ∈ rt_children parent ∧
         dest = path_join [rt_modules parent; rt_name d]) ∨
        (k ∈ rt_resolvedPeers parent ∧
         ∃ peerModules,
           rt_peerModules parent = Some peerModules ∧
           dest = path_join [peerModules; rt_name d]))).
Proof.
  intros Hvalues Hin deps.
  assert (∀ d, d ∈ sortByDepth (R_values _ pkgsToLink) →
            ∃ k, pkgsToLink !! k = Some d) as Hflat.
  { intros d Hd. rewrite elem_of_sortByDepth, (Hvalues _ pkgsToLink) in Hd.
    apply list_elem_of_fmap in Hd as ([k d'] & -> & Hd).
    exists k. by apply elem_of_map_to_list. }
  assert (∀ fn d, d ∈ uniqBy fn (sortByDepth (R_values _ pkgsToLink)) →
            ∃ k, pkgsToLink !! k = Some d) as Huniq.
  { intros fn d Hd. apply Hflat.
    eapply elem_of_sublist; [done|apply uniqBy_go_sublist]. }
  unfold linkResolved in *. fold deps in Hin |- *.
  set (flat := sortByDepth (R_values _ pkgsToLink)) in *.
  set (rest := andThen (linkAllIndependentModules _ _ _) _) in *.
  apply elem_of_andThen in Hin as [Hin|(w1 & Hw1 & Hin)].
  { rewrite linkAllPkgsStep_trace in Hin.
    by apply list_elem_of_fmap in Hin as (e' & ? & _). }
  exists w1, (rest w1).2.
  assert (∃ k d,
    pkgsToLink !! k = Some d ∧
    src = rt_hardlinkedLocation d ∧
    ((rt_depth d = 0 ∧ dest = path_join [base; rt_name d]) ∨
     ∃ k' parent,
       pkgsToLink !! k' = Some parent ∧
       ((k ∈ rt_children parent ∧
         dest = path_join [rt_modules parent; rt_name d]) ∨
        (k ∈ rt_resolvedPeers parent ∧
         ∃ peerModules,
           rt_peerModules parent = Some peerModules ∧
           dest = path_join [peerModules; rt_name d]))))
    as (k & d & Hk & Hsrc & Hedge).
  { unfold rest in Hin.
    apply elem_of_andThen in Hin as [Hin|(w2 & _ & Hin)].
    { apply elem_of_allOf in Hin as (pkg & w' & Hpkg & Hin).
      apply linkIndependentModules_events in Hin
        as (c & child & Hc & Hchild & [= -> ->]).
      destruct (Huniq _ _ Hpkg) as [k' Hk'].
      exists c, child. split_and!; [done..|]. right. exists k', pkg.
      split; [done|]. by left. }
    apply elem_of_andThen in Hin as [Hin|(w3 & _ & Hin)].
    { apply elem_of_allOf in Hin as (pkg & w' & Hpkg & Hin).
      apply linkModules_symlinks in Hin
        as (p & peer & pm & Hp & Hpeer & Hpm & -> & ->).
      destruct (Huniq _ _ Hpkg) as [k' Hk'].
      exists p, peer. split_and!; [done..|]. right. exists k', pkg.
      split; [done|]. right. split; [done|]. by exists pm. }
    apply elem_of_andThen in Hin as [Hin|(w4 & _ & Hin)].
    { apply elem_of_forEach in Hin as (pkg & w' & Hpkg & Hin).
      apply list_elem_of_singleton in Hin. injection Hin as -> ->.
      apply list_elem_of_filter in Hpkg as [Hdepth Hpkg].
      destruct (Hflat _ Hpkg) as [k Hk]. exists k, pkg.
      split_and!; [done..|]. by left. }
    by apply list_elem_of_singleton in Hin. }
  exists k, d. rewrite linkAllPkgsStep_result in Hw1.
  split_and!; [done| |done..].
  rewrite <- linkAllPkgsStep_trace. apply andThen_trace.
  by rewrite linkAllPkgsStep_result.
Qed.

(** X18. The linker links nothing but the resolved map. In the trace of
    lines 51 to 67, every [link-dir] request hardlinks the store path of an
    entry of the resolved map into its [hardlinkedLocation]; and every
    symlink points to the [hardlinkedLocation] of an entry and is named
    after it, either in [baseNodeModules] for an entry of depth 0, or in
    the [modules] of an entry that has it as a child, or in the
    [peerModules] of an entry that has it as a resolved peer. *)
Theorem linker_requests_are_justified pkgsToLink force global base w :
  enumerates_values R_values →
  let trace :=
    (linkResolved path_join R_values pkgsToLink force global base w).2 in
  (∀ src dest, Fs (LinkDir src dest) ∈ trace →
     ∃ k d, pkgsToLink !! k = Some d ∧
            src = rt_path d ∧ dest = rt_hardlinkedLocation d) ∧
  (∀ src dest, SymlinkDir src dest ∈ trace →
     ∃ k d,
       pkgsToLink !! k = Some d ∧
       src = rt_hardlinkedLocation d ∧
       ((rt_depth d = 0 ∧ dest = path_join [base; rt_name d]) ∨
        ∃ k' parent,
          pkgsToLink !! k' = Some parent ∧
          ((k ∈ rt_children parent ∧
            dest = path_join [rt_modules parent; rt_name d]) ∨
           (k ∈ rt_resolvedPeers parent ∧
            ∃ peerModules,
              rt_peerModules parent = Some peerModules ∧
              dest = path_join [peerModules; rt_name d])))).
Proof.
  intros Hvalues trace. split.
  - intros src dest Hin. unfold trace, linkResolved in Hin.
    apply elem_of_andThen in Hin as [Hin|(w1 & _ & Hin)].
    + rewrite linkAllPkgsStep_trace in Hin.
      apply list_elem_of_fmap in Hin as (e & [= <-] & Hin).
      apply linkAllPkgs_LinkDir_elem in Hin as (d & Hd & -> & ->).
      assert (d ∈ R_values _ pkgsToLink) as Hval.
      { apply elem_of_sortByDepth.
        eapply elem_of_sublist; [done|apply uniqBy_go_sublist]. }
      rewrite (Hvalues _ pkgsToLink) in Hval.
      apply list_elem_of_fmap in Hval as ([k d'] & -> & Hval).
      exists k, d'. split; [by apply elem_of_map_to_list|done].
    + exfalso.
      apply elem_of_andThen in Hin as [Hin|(w2 & _ & Hin)].
      { apply elem_of_allOf in Hin as (pkg & w' & _ & Hin).
        by apply linkIndependentModules_events in Hin as (? & ? & _ & _ & ?). }
      apply elem_of_andThen in Hin as [Hin|(w3 & _ & Hin)].
      { apply elem_of_allOf in Hin as (pkg & w' & _ & Hin).
        unfold linkModules in Hin.
        apply elem_of_andThen in Hin as [Hin|(w4 & _ & Hin)].
        { apply elem_of_allProps in Hin
            as (p & peer & request & w'' & _ & _ & Hf & Hin).
          unfold symlinkPeer in Hf.
          destruct (rt_peerModules pkg); [|done]. injection Hf as <-.
          by apply list_elem_of_singleton in Hin. }
        apply elem_of_andThen in Hin as [Hin|(w5 & _ & Hin)];
          [by apply list_elem_of_singleton in Hin|].
        apply elem_of_andThen in Hin as [Hin|(w6 & _ & Hin)].
        - destruct (rt_peerModules pkg) as [pm|];
            [destruct (truthy pm)|]; simpl in Hin;
            first [by apply list_elem_of_singleton in Hin
                  |by apply elem_of_nil in Hin].
        - destruct (rt_hasBundledDependencies pkg); simpl in Hin;
            first [by apply list_elem_of_singleton in Hin
                  |by apply elem_of_nil in Hin]. }
      apply elem_of_andThen in Hin as [Hin|(w4 & _ & Hin)].
      { apply elem_of_forEach in Hin as (pkg & w' & _ & Hin).
        by apply list_elem_of_singleton in Hin. }
      by apply list_elem_of_singleton in Hin.
  - intros src dest Hin.
    destruct (linkResolved_symlink_inv _ _ _ _ _ _ _ Hvalues Hin)
      as (_ & _ & k & d & _ & _ & _ & Hk & Hsrc & Hedge).
    by exists k, d.
Qed.

(** X19. Symlinks follow hardlinks. With [force], when the linker requests
    a symlink, the hardlink phase has already linked a store directory
    into the location the symlink points to: the trace splits into a part
    without symlinks that holds this [link-dir] request, and a later part
    that holds the symlink. *)
Theorem symlinks_follow_hardlinks pkgsToLink global base w src dest :
  enumerates_values R_values →
  SymlinkDir src dest
    ∈ (linkResolved path_join R_values pkgsToLink true global base w).2 →
  ∃ tr1 tr2 store,
    (linkResolved path_join R_values pkgsToLink true global base w).2
      = tr1 ++ tr2 ∧
    (∀ e, e ∈ tr1 → is_SymlinkDir e = false) ∧
    Fs (LinkDir store src) ∈ tr1 ∧
    SymlinkDir src dest ∈ tr2.
Proof.
  intros Hvalues Hin.
  destruct (linkResolved_symlink_inv _ _ _ _ _ _ _ Hvalues Hin)
    as (w1 & tr2 & k & d & Hw1 & Htrace & Hin2 & Hk & -> & _).
  set (flat := sortByDepth (R_values _ pkgsToLink)) in *.
  assert (d ∈ flat) as Hd.
  { apply elem_of_sortByDepth. rewrite (Hvalues _ pkgsToLink).
    apply list_elem_of_fmap. exists (k, d). split; [done|].
    by apply elem_of_map_to_list. }
  pose proof (uniqBy_go_complete rt_hardlinkedLocation [] flat d Hd)
    as (d' & Hloc & Hd')%list_elem_of_fmap; [|by intros ?%elem_of_nil].
  destruct (linkAllPkgs_forced_elem _ w w1 d' Hw1 Hd') as [store Hstore].
  eexists _, tr2, store. split_and!; [done| | |done].
  - by intros e (e' & -> & _)%list_elem_of_fmap.
  - apply list_elem_of_fmap. eexists. split; [done|]. by rewrite Hloc.
Qed.

End SymlinkFacts.

Lemma values_by_key_enumerates : enumerates_values values_by_key.
Proof. by intros V m. Qed.

Lemma symlinks_follow_hardlinks_witness :
  ∃ tr1 tr2 store,
    (linkResolved join_segments values_by_key cycleResolved.1 true false
       "node_modules" cycle_store).2 = tr1 ++ tr2 ∧
    (∀ e, e ∈ tr1 → is_SymlinkDir e = false) ∧
    Fs (LinkDir store "node_modules/.A/node_modules/A") ∈ tr1 ∧
    SymlinkDir "node_modules/.A/node_modules/A" "node_modules/A" ∈ tr2.
Proof.
  apply (symlinks_follow_hardlinks join_segments values_by_key
           cycleResolved.1 false "node_modules" cycle_store).
  - apply values_by_key_enumerates.
  - vm_compute. do 6 right. left.
Defined.

Lemma linker_requests_are_justified_witness :
  let trace :=
    (linkResolved join_segments values_by_key cycleResolved.1 true false
       "node_modules" cycle_store).2 in
  (∀ src dest, Fs (LinkDir src dest) ∈ trace →
     ∃ k d, cycleResolved.1 !! k = Some d ∧
            src = rt_path d ∧ dest = rt_hardlinkedLocation d) ∧
  (∀ src dest, SymlinkDir src dest ∈ trace →
     ∃ k d,
       cycleResolved.1 !! k = Some d ∧
       src = rt_hardlinkedLocation d ∧
       ((rt_depth d = 0 ∧ dest = join_segments ["node_modules"; rt_name d]) ∨
        ∃ k' parent,
          cycleResolved.1 !! k' = Some parent ∧
          ((k ∈ rt_children parent ∧
            dest = join_segments [rt_modules parent; rt_name d]) ∨
           (k ∈ rt_resolvedPeers parent ∧
            ∃ peerModules,
              rt_peerModules parent = Some peerModules ∧
              dest = join_segments [peerModules; rt_name d])))).
Proof.
  apply (linker_requests_are_justified join_segments values_by_key
           cycleResolved.1 true false "node_modules" cycle_store).
  apply values_by_key_enumerates.
Defined.

(** ** The linker needs no luck *)

Section SymlinkSafety.
Variable satisfies : option string → string → bool.
Variable path_join : list string → string.
Context {World : Type} `{!LinkTools World}.
Hypothesis Htools : tools_succeed.

Lemma andThen_succeeds (m k : World → outcome World * list link_event) :
  (∀ w, ∃ w', (m w).1 = Ok w') → (∀ w, ∃ w', (k w).1 = Ok w') →
  ∀ w, ∃ w', (andThen m k w).1 = Ok w'.
Proof.
  intros Hm Hk w. destruct (Hm w) as [w1 Hw1]. destruct (Hk w1) as [w2 Hw2].
  exists w2. by eapply andThen_Ok.
Qed.

Lemma symlinkDependencyTo_succeeds dependency dest w :
  ∃ w', (symlinkDependencyTo path_join dependency dest w).1 = Ok w'.
Proof. apply Htools. Qed.

Lemma linkBinsOf_succeeds modules binPath exceptPkgName w :
  ∃ w', (linkBinsOf modules binPath exceptPkgName w).1 = Ok w'.
Proof. apply Htools. Qed.

Section OnResolvedMap.
Variables (fuel : nat) (pkgsMap : gmap string LinkedPackage).
Variables (topPkgIds : list string).
Variables (result : gmap string ResolvedDependencyTree) (log : list log_line).
Hypothesis Hrun :
  resolvePeers_default satisfies path_join fuel pkgsMap topPkgIds
    = Ok (result, log).

Lemma linkIndependentModules_succeeds k pkg w :
  result !! k = Some pkg →
  ∃ w', (linkIndependentModules path_join pkg result w).1 = Ok w'.
Proof.
  intros Hk. apply allProps_Ok. intros c Hc.
  destruct (resolved_entry_refs _ _ _ _ _ _ _ _ _ Hrun Hk) as [Hchildren _].
  destruct (Hchildren c Hc) as [child Hchild].
  exists child. eexists. split_and!; [done..|].
  intros w0. apply symlinkDependencyTo_succeeds.
Qed.

Lemma linkModules_succeeds k dependency w :
  result !! k = Some dependency →
  ∃ w', (linkModules path_join dependency result w).1 = Ok w'.
Proof.
  intros Hk. revert w. unfold linkModules.
  repeat apply andThen_succeeds.
  - apply allProps_Ok. intros p Hp.
    destruct (resolved_entry_refs _ _ _ _ _ _ _ _ _ Hrun Hk) as [_ Hpeers].
    destruct (Hpeers p Hp) as [peer Hpeer].
    exists peer. unfold symlinkPeer.
    destruct (resolved_entry_peers _ _ _ _ _ _ _ _ _ Hrun Hk)
      as (_ & _ & pkgNode & _ & _ & Hlen & Hnone & _).
    destruct (rt_peerModules dependency) as [peerModules|].
    { eexists. split_and!; [done..|].
      intros w. apply symlinkDependencyTo_succeeds. }
    destruct Hnone as [Hnone _]. rewrite Hnone in Hlen by done.
    destruct (rt_resolvedPeers dependency); [by apply elem_of_nil in Hp|].
    simpl in Hlen. lia.
  - intros w. apply linkBinsOf_succeeds.
  - intros w. destruct (rt_peerModules dependency) as [peerModules|];
      [destruct (truthy peerModules)|];
      first [apply linkBinsOf_succeeds|by exists w].
  - intros w. destruct (rt_hasBundledDependencies dependency);
      first [apply linkBinsOf_succeeds|by exists w].
Qed.

Lemma linkAllIndependentModules_succeeds pkgs w :
  (∀ pkg, pkg ∈ pkgs → ∃ k, result !! k = Some pkg) →
  ∃ w', (linkAllIndependentModules path_join pkgs result w).1 = Ok w'.
Proof.
  intros Hpkgs. apply allOf_Ok. intros pkg w0 [k Hk]%Hpkgs.
  by eapply linkIndependentModules_succeeds.
Qed.

Lemma linkAllModules_succeeds pkgs w :
  (∀ pkg, pkg ∈ pkgs → ∃ k, result !! k = Some pkg) →
  ∃ w', (linkAllModules path_join pkgs result w).1 = Ok w'.
Proof.
  intros Hpkgs. apply allOf_Ok. intros pkg w0 [k Hk]%Hpkgs.
  by eapply linkModules_succeeds.
Qed.

End OnResolvedMap.

End SymlinkSafety.

(** X20. The symlink phases cannot fail by themselves. On the map the
    resolver returned, for any nodes of that map, [linkAllIndependentModules]
    and [linkAllModules] succeed whenever [symlink-dir] and [linkBins] do:
    no child and no resolved peer is missing from the map, and no peer is
    symlinked into an undefined [peerModules]. *)
Theorem symlink_phases_succeed satisfies path_join `{LinkTools World}
    fuel pkgsMap topPkgIds result log pkgs (w : World) :
  tools_succeed →
  resolvePeers_default satisfies path_join fuel pkgsMap topPkgIds
    = Ok (result, log) →
  (∀ pkg, pkg ∈ pkgs → ∃ k, result !! k = Some pkg) →
  (∃ w', (linkAllIndependentModules path_join pkgs result w).1 = Ok w') ∧
  (∃ w', (linkAllModules path_join pkgs result w).1 = Ok w').
Proof.
  intros Htools Hrun Hpkgs. split.
  - by eapply linkAllIndependentModules_succeeds.
  - by eapply linkAllModules_succeeds.
Qed.

Lemma inode_tools_succeed : tools_succeed (World := gmap string nat).
Proof. split; intros; by eexists. Qed.

Lemma symlink_phases_succeed_witness :
  (∃ w', (linkAllIndependentModules join_segments [shadowing_lib]
            shadowingResolved.1 cycle_store).1 = Ok w') ∧
  (∃ w', (linkAllModules join_segments [shadowing_lib]
            shadowingResolved.1 cycle_store).1 = Ok w').
Proof.
  apply (symlink_phases_succeed exact_version join_segments 4 shadowingPkgs
           ["app"] shadowingResolved.1 shadowingResolved.2).
  - apply inode_tools_succeed.
  - by vm_compute.
  - intros pkg ->%list_elem_of_singleton. exists "app/lib". by vm_compute.
Defined.

(** ** The default export of the linker returns *)

Lemma treeEntries_fetchingFiles pkgsMap fuel : ∀ pkgIds keypath kp node,
  (kp, node) ∈ treeEntries fuel pkgsMap pkgIds keypath →
  ∃ i pkg, pkgsMap !! i = Some pkg ∧
           dt_fetchingFiles node = lp_fetchingFiles pkg.
Proof.
  induction fuel as [|fuel IH]; intros pkgIds keypath kp node.
  { by intros ?%elem_of_nil. }
  induction pkgIds as [|pkgId rest IHrest].
  { rewrite treeEntries_nil. by intros ?%elem_of_nil. }
  rewrite treeEntries_cons. intros [Hin|Hin]%elem_of_app; [|by apply IHrest].
  destruct (pkgsMap !! pkgId) as [pkg|] eqn:Hpkg;
    [|by apply elem_of_nil in Hin].
  apply elem_of_cons in Hin as [[= -> ->]|Hin]; [|by eapply IH].
  by exists pkgId, pkg.
Qed.

(** The promise of an entry of the resolved map is the promise of a package
    of the package map. *)
Lemma resolved_entry_fetchingFiles satisfies path_join fuel pkgsMap topPkgIds
    result log k r :
  ids_are_keys pkgsMap →
  resolvePeers_default satisfies path_join fuel pkgsMap topPkgIds
    = Ok (result, log) →
  result !! k = Some r →
  ∃ i pkg, pkgsMap !! i = Some pkg ∧
           rt_fetchingFiles r = lp_fetchingFiles pkg.
Proof.
  intros Hkeys Hrun Hk.
  destruct (resolvePeers_default_entry _ _ _ _ _ _ _ _ _ Hrun Hk)
    as (rootNodeIds & treeMap & rootNodes & rootNodeId & m & log' & Htree
        & _ & _ & Hcall & Hm & _).
  destruct (resolvePeersOfNode_entries _ _ _ _ _ _ _ _ Hcall _ _ Hm)
    as (pkgNode & Hnode & _ & ->).
  destruct (createTree_spec pkgsMap Hkeys _ _ _ _ _ _ Htree)
    as (_ & _ & _ & Hlook).
  destruct (Hlook _ _ Hnode) as [Hempty|(kp & Hin & _)];
    [by rewrite lookup_empty in Hempty|].
  by apply treeEntries_fetchingFiles in Hin.
Qed.

Section LinkReturns.
Variable satisfies : option string → string → bool.
Variable path_join : list string → string.
Variable R_values : ∀ V, gmap string V → list V.
Context {World : Type} `{!FileSystem World} `{!LinkTools World}.
Hypothesis Hvalues : enumerates_values R_values.
Hypothesis HlinkDir : linkDir_succeeds.
Hypothesis Htools : tools_succeed.

Lemma elem_of_R_values {V} (m : gmap string V) v :
  v ∈ R_values V m ↔ ∃ k, m !! k = Some v.
Proof.
  rewrite (Hvalues V m), list_elem_of_fmap. split.
  - intros ([k v'] & -> & Hin). exists k. by apply elem_of_map_to_list.
  - intros [k Hk]. exists (k, v). split; [done|]. by apply elem_of_map_to_list.
Qed.

Lemma linkPkg_forced_succeeds dependency w :
  (∃ newlyFetched, rt_fetchingFiles dependency = Resolved newlyFetched) →
  ∃ w', (linkPkg path_join dependency true w).1 = Ok w'.
Proof.
  intros [newlyFetched Hfetch]. unfold linkPkg, needsLinking.
  rewrite Hfetch. destruct newlyFetched; apply HlinkDir.
Qed.

Lemma linkAllPkgs_forced_succeeds alldeps : ∀ w,
  (∀ d, d ∈ alldeps →
     ∃ newlyFetched, rt_fetchingFiles d = Resolved newlyFetched) →
  ∃ w', (linkAllPkgs path_join alldeps true w).1 = Ok w'.
Proof.
  induction alldeps as [|d alldeps IH]; intros w Hall; [by exists w|].
  simpl. destruct (linkPkg_forced_succeeds d w) as [w1 Hw1];
    [apply Hall; by left|].
  rewrite Hw1. simpl. apply IH. intros; apply Hall; by right.
Qed.

(** Once the peers are resolved and every promise has resolved, the rest
    of the default export succeeds. *)
Lemma linkResolved_succeeds fuel pkgsMap topPkgIds result log global base w :
  resolvePeers_default satisfies path_join fuel pkgsMap topPkgIds
    = Ok (result, log) →
  (∀ k r, result !! k = Some r →
     ∃ newlyFetched, rt_fetchingFiles r = Resolved newlyFetched) →
  ∃ w',
    (linkResolved path_join R_values result true global base w).1 = Ok w'.
Proof.
  intros Hrun Hfetch. revert w. unfold linkResolved.
  set (flat := sortByDepth (R_values _ result)).
  assert (∀ d, d ∈ flat → ∃ k, result !! k = Some d) as Hflat.
  { intros d Hd. apply elem_of_R_values. by apply elem_of_sortByDepth. }
  assert (∀ fn d, d ∈ uniqBy fn flat → ∃ k, result !! k = Some d) as Huniq.
  { intros fn d Hd. apply Hflat.
    eapply elem_of_sublist; [done|apply uniqBy_go_sublist]. }
  repeat apply andThen_succeeds.
  - intros w. rewrite linkAllPkgsStep_result.
    apply linkAllPkgs_forced_succeeds. intros d [k Hk]%Huniq. by eapply Hfetch.
  - intros w.
    eapply linkAllIndependentModules_succeeds; [done..|]. apply Huniq.
  - intros w. eapply linkAllModules_succeeds; [done..|]. apply Huniq.
  - apply forEach_Ok. intros pkg w _. by apply symlinkDependencyTo_succeeds.
  - intros w. by apply linkBinsOf_succeeds.
Qed.

End LinkReturns.

(** X21. The linker fails only when the outside world does. When every
    dependency id of an installed package and the id of every installable
    top package is the id of an installed package, every fetching promise
    resolves, and [link-dir], [symlink-dir] and [linkBins] succeed, the
    default export of [index.ts] run with [force] returns the resolved map:
    it throws no [TypeError] of its own and does not recurse for ever. *)
Theorem link_succeeds satisfies path_join R_values
    `{FileSystem World} `{LinkTools World}
    topPkgs installedPkgs global base (w : World) :
  enumerates_values R_values →
  linkDir_succeeds →
  tools_succeed →
  (∀ k installedPkg, installedPkgs !! k = Some installedPkg →
     ∃ newlyFetched, ip_fetchingFiles installedPkg = Resolved newlyFetched) →
  (∀ k installedPkg depId,
     installedPkgs !! k = Some installedPkg →
     depId ∈ ip_dependencies installedPkg →
     ∃ k' dep, installedPkgs !! k' = Some dep ∧ ip_id dep = depId) →
  (∀ top, top ∈ topPkgs → ip_isInstallable top = true →
     ∃ k installedPkg,
       installedPkgs !! k = Some installedPkg ∧
       ip_id installedPkg = ip_id top) →
  ∃ fuel0, ∀ fuel, fuel0 ≤ fuel →
    ∃ pkgsToLink w',
      (link satisfies path_join R_values fuel topPkgs installedPkgs true
         global base w).1 = Ok (pkgsToLink, w').
Proof.
  intros Hvalues HlinkDir Htools Hfetch Hdeps Htops.
  set (installed := R_values _ installedPkgs).
  set (pkgsMap := pkgsToLinkOf path_join base installed).
  pose proof (pkgsToLinkOf_ids_are_keys path_join base installed) as Hkeys.
  destruct (resolvePeers_default_total satisfies path_join pkgsMap
              (topPkgIdsOf topPkgs)) as [fuel0 Hfuel0]; [done| | |].
  - apply pkgsToLinkOf_dependencies_closed.
    intros installedPkg depId [k Hk]%(elem_of_R_values _ Hvalues) Hdep.
    destruct (Hdeps _ _ _ Hk Hdep) as (k' & dep & Hk' & <-).
    apply list_elem_of_fmap. exists dep. split; [done|].
    apply (elem_of_R_values _ Hvalues). by exists k'.
  - apply Forall_forall. intros i Hi. unfold topPkgIdsOf in Hi.
    apply list_elem_of_In in Hi. apply in_map_iff in Hi as (top & <- & Htop).
    apply list_elem_of_In, list_elem_of_filter in Htop as [Hinst Htop].
    destruct (Htops top Htop) as (k & installedPkg & Hk & <-).
    { by apply Is_true_eq_true. }
    apply pkgsToLinkOf_is_Some, (elem_of_R_values _ Hvalues). by exists k.
  - exists fuel0. intros fuel Hfuel.
    destruct (Hfuel0 fuel Hfuel) as (result & log & Hrun).
    destruct (linkResolved_succeeds satisfies path_join R_values Hvalues
                HlinkDir Htools fuel pkgsMap (topPkgIdsOf topPkgs) result log
                global base w Hrun) as [w' Hw'].
    { intros k r Hk.
      destruct (resolved_entry_fetchingFiles _ _ _ _ _ _ _ _ _ Hkeys Hrun Hk)
        as (i & pkg & Hpkg & ->).
      apply pkgsToLinkOf_lookup_Some in Hpkg as (installedPkg & Hin & _ & ->).
      apply (elem_of_R_values _ Hvalues) in Hin as [k' Hk'].
      by apply (Hfetch _ _ Hk'). }
    exists result, w'. unfold link. fold installed. fold pkgsMap.
    rewrite Hrun.
    destruct (linkResolved path_join R_values result true global base w)
      as [r tr].
    simpl in Hw'. by subst r.
Qed.

Lemma link_succeeds_witness :
  ∃ fuel0, ∀ fuel, fuel0 ≤ fuel →
    ∃ pkgsToLink w',
      (link exact_version join_segments values_by_key fuel
         [installedPackage "A" ["B"]] cycleInstalled true false
         "node_modules" 0).1 = Ok (pkgsToLink, w').
Proof.
  apply link_succeeds.
  - apply values_by_key_enumerates.
  - intros src dest w. by eexists.
  - split; intros; by eexists.
  - intros k installedPkg.
    unfold cycleInstalled. rewrite !lookup_insert_Some, lookup_empty.
    intros [[_ <-]|[_ [[_ <-]|[_ ?]]]]; [by eexists..|done].
  - intros k installedPkg depId.
    unfold cycleInstalled. rewrite !lookup_insert_Some, lookup_empty.
    intros [[_ <-]|[_ [[_ <-]|[_ ?]]]]; [| |done]; simpl;
      intros ->%list_elem_of_singleton.
    + exists "B", (installedPackage "B" ["A"]). by vm_compute.
    + exists "A", (installedPackage "A" ["B"]). by vm_compute.
  - intros top ->%list_elem_of_singleton _.
    exists "A", (installedPackage "A" ["B"]). by vm_compute.
Defined.

(** ** Uninstall with a save type *)

Lemma list_filter_iff_in {A} (P Q : A → Prop) `{∀ x, Decision (P x)}
    `{∀ x, Decision (Q x)} (l : list A) :
  (∀ x, x ∈ l → P x ↔ Q x) → filter P l = filter Q l.
Proof.
  induction l as [|x l IH]; intros Hext; [done|].
  rewrite !filter_cons, IH by (intros; apply Hext; by right).
  destruct (decide (P x)) as [HP|HP], (decide (Q x)) as [HQ|HQ]; [done| | |done].
  - destruct HQ. by apply (Hext x); [left|].
  - destruct HP. by apply (Hext x); [left|].
Qed.

Lemma list_filter_all {A} (P : A → Prop) `{∀ x, Decision (P x)} (l : list A) :
  (∀ x, x ∈ l → P x) → filter P l = l.
Proof.
  induction l as [|x l IH]; intros Hall; [done|].
  rewrite filter_cons_True by (apply Hall; by left).
  f_equal. apply IH. intros; apply Hall; by right.
Qed.

Section UninstallLoop.
Context {Opts Shrinkwrap World : Type} `{!Collaborators Opts Shrinkwrap World}.

Lemma pruneLoop_spec pkg keys : ∀ st : uninstall_state Shrinkwrap World,
  shrinkwrap_lens →
  (∀ k, k ∈ keys → ∃ depName, npa_name k = Ok depName) →
  ∃ st',
    pruneLoop pkg keys st = (Ok (), st') ∧
    us_world st' = us_world st ∧
    shr_dependencies (us_shrinkwrap st') =
      filter (λ kv, kv.1 ∉ keys ∨ stillDependent pkg kv.1)
        (shr_dependencies (us_shrinkwrap st)) ∧
    us_trace st' =
      us_trace st ++
      (DeleteShrinkwrapDependency
         <$> filter (λ k, ¬ stillDependent pkg k) keys).
Proof.
  induction keys as [|k keys IH]; intros st Hlens Hnpa.
  { exists st. split_and!; [done..| |by rewrite app_nil_r].
    symmetry. apply list_filter_all. intros kv _. left. by intros ?%elem_of_nil. }
  destruct (Hnpa k) as [depName Hk]; [by left|].
  assert (stillDependent pkg k = isDependentOn pkg depName) as Hstill.
  { unfold stillDependent. by rewrite Hk. }
  cbn [pruneLoop]. unfold ubind at 1, liftOutcome. rewrite Hk.
  unfold ubind at 1.
  destruct (isDependentOn pkg depName) eqn:Hdep.
  - unfold uret at 1.
    destruct (IH st Hlens) as (st' & Hrun & Hw & Hshr & Htr);
      [intros; apply Hnpa; by right|].
    exists st'. split_and!; [done..| |].
    + rewrite Hshr. apply list_filter_iff. intros [k' v]. simpl.
      rewrite not_elem_of_cons.
      destruct (decide (k' = k)) as [->|]; [|naive_solver].
      rewrite Hstill. naive_solver.
    + rewrite Htr, filter_cons_False; [done|]. rewrite Hstill. naive_solver.
  - unfold deleteDependency at 1.
    match goal with |- context [pruneLoop pkg keys ?s] => set (st1 := s) end.
    destruct (IH st1 Hlens) as (st' & Hrun & Hw & Hshr & Htr);
      [intros; apply Hnpa; by right|].
    exists st'. split_and!; [done..| |].
    + rewrite Hshr. unfold st1. simpl. rewrite Hlens, list_filter_filter.
      apply list_filter_iff. intros [k' v]. simpl.
      rewrite not_elem_of_cons.
      destruct (decide (k' = k)) as [->|]; [|naive_solver].
      rewrite Hstill. naive_solver.
    + rewrite Htr. unfold st1. simpl.
      rewrite filter_cons_True; [|rewrite Hstill; naive_solver].
      by rewrite fmap_cons, <- app_assoc.
Qed.

(** X22. The loop over [ctx.shrinkwrap.dependencies] (lines 42 to 47) keeps
    exactly the entries whose package is still a dependency. When [npa]
    reads a name from every key, the loop returns; afterwards the
    shrinkwrap holds, in their order, the entries whose name is a
    dependency of the package, one deletion was made for every other key,
    in the order of the keys, and the outside world is untouched. *)
Theorem pruneLoop_keeps_dependents pkg (st : uninstall_state Shrinkwrap World) :
  shrinkwrap_lens →
  (∀ k, k ∈ (shr_dependencies (us_shrinkwrap st)).*1 →
     ∃ depName, npa_name k = Ok depName) →
  ∃ st',
    pruneLoop pkg (map fst (shr_dependencies (us_shrinkwrap st))) st
      = (Ok (), st') ∧
    us_world st' = us_world st ∧
    shr_dependencies (us_shrinkwrap st') =
      filter (λ kv, stillDependent pkg kv.1)
        (shr_dependencies (us_shrinkwrap st)) ∧
    us_trace st' =
      us_trace st ++
      (DeleteShrinkwrapDependency
         <$> filter (λ k, ¬ stillDependent pkg k)
               (shr_dependencies (us_shrinkwrap st)).*1).
Proof.
  intros Hlens Hnpa.
  destruct (pruneLoop_spec pkg _ st Hlens Hnpa) as (st' & Hrun & Hw & Hshr & Htr).
  exists st'. split_and!; [done..| |done].
  rewrite Hshr. apply list_filter_iff_in. intros [k v] Hin. simpl.
  split; [|by right]. intros [Hnot|?]; [|done]. destruct Hnot.
  apply list_elem_of_fmap. by exists (k, v).
Qed.

(** The loop only adds deletions of its keys to the trace, in their
    order, also when [npa] throws on the way. *)
Lemma pruneLoop_trace pkg keys : ∀ (st : uninstall_state Shrinkwrap World) r st',
  pruneLoop pkg keys st = (r, st') →
  ∃ deleted,
    deleted `sublist_of` keys ∧
    us_trace st' = us_trace st ++ (DeleteShrinkwrapDependency <$> deleted).
Proof.
  induction keys as [|k keys IH]; intros st r st' Hrun.
  { injection Hrun as <- <-. exists []. by rewrite app_nil_r. }
  cbn [pruneLoop] in Hrun. unfold ubind at 1, liftOutcome in Hrun.
  destruct (npa_name k) as [depName| |].
  - unfold ubind at 1 in Hrun. destruct (isDependentOn pkg depName).
    + unfold uret at 1 in Hrun.
      apply IH in Hrun as (deleted & Hsub & Htr).
      exists deleted. split; [by apply sublist_cons|done].
    + unfold deleteDependency at 1 in Hrun.
      apply IH in Hrun as (deleted & Hsub & Htr). simpl in Htr.
      exists (k :: deleted). split; [by apply sublist_skip|].
      by rewrite Htr, fmap_cons, <- app_assoc.
  - injection Hrun as <- <-. exists []. split; [apply sublist_nil_l|].
    by rewrite app_nil_r.
  - injection Hrun as <- <-. exists []. split; [apply sublist_nil_l|].
    by rewrite app_nil_r.
Qed.

End UninstallLoop.

Section UninstallOrder.
Variable path_join : list string → string.
Context {Opts Shrinkwrap World : Type} `{!Collaborators Opts Shrinkwrap World}.

(** X23. With a save type, [uninstallInContext] makes its requests in one
    order: [removeDeps], then deletions of keys of
    [shrinkwrap.dependencies] in the order of the keys, then
    [pruneShrinkwrap], [removeOrphanPkgs] and [saveShrinkwrap]. Whatever
    the outcome, the requests made are a prefix of that sequence, so a
    failing step leaves the later ones undone, and a run that returns has
    made all of them. *)
Theorem uninstall_requests_in_order pkgsToUninstall pkg ctx opts saveType
    (st : uninstall_state Shrinkwrap World) r st' :
  getSaveType opts = Some saveType →
  saveType ≠ "" →
  uninstallInContext path_join pkgsToUninstall pkg ctx opts st = (r, st') →
  ∃ deleted made,
    deleted `sublist_of` (shr_dependencies (us_shrinkwrap st)).*1 ∧
    us_trace st' = us_trace st ++ made ∧
    made `prefix_of`
      RemoveDeps (path_join [ctx_root ctx; "package.json"]) pkgsToUninstall
        saveType
      :: (DeleteShrinkwrapDependency <$> deleted)
         ++ [PruneShrinkwrap;
             RemoveOrphanPkgs (ctx_root ctx) (ctx_storePath ctx);
             SaveShrinkwrap (ctx_root ctx)] ∧
    (r = Ok () →
     made =
       RemoveDeps (path_join [ctx_root ctx; "package.json"]) pkgsToUninstall
         saveType
       :: (DeleteShrinkwrapDependency <$> deleted)
          ++ [PruneShrinkwrap;
              RemoveOrphanPkgs (ctx_root ctx) (ctx_storePath ctx);
              SaveShrinkwrap (ctx_root ctx)]).
Proof.
  intros Hsave Htruthy Hrun. unfold uninstallInContext in Hrun.
  rewrite Hsave in Hrun.
  assert (truthySaveType (Some saveType) = Some saveType) as Ht
    by by destruct saveType.
  rewrite Ht in Hrun. clear Ht.
  unfold ubind at 1, request at 1 in Hrun.
  destruct (removeDeps _ _ _ _) as [[pkg'| |] w1];
    [|injection Hrun as <- <-; exists []; eexists; simpl;
      (split_and!; [apply sublist_nil_l|reflexivity|by eexists|done])..].
  unfold ubind at 1, getShrinkwrap at 1 in Hrun. simpl in Hrun.
  unfold ubind at 1 in Hrun.
  destruct (pruneLoop pkg' _ _) as [r2 st2] eqn:Hloop.
  apply pruneLoop_trace in Hloop as (deleted & Hsub & Htr2). simpl in Htr2.
  exists deleted.
  destruct r2 as [[]| |];
    [|injection Hrun as <- <-; eexists;
      (split_and!; [done|rewrite Htr2, <- app_assoc; reflexivity
                   |simpl; by apply prefix_cons, prefix_app_r|done])..].
  unfold ubind at 1, getShrinkwrap at 1 in Hrun.
  unfold ubind at 1, request at 1 in Hrun.
  destruct (pruneShrinkwrap _ _) as [[newShr| |] w3];
    [|injection Hrun as <- <-; eexists; simpl;
      (split_and!; [done|rewrite Htr2, <- !app_assoc; reflexivity
                   |simpl; by apply prefix_cons, prefix_app, prefix_cons,
                                prefix_nil
                   |done])..].
  unfold ubind at 1, request at 1 in Hrun.
  destruct (removeOrphanPkgs _ _ _ _ _) as [[[]| |] w4];
    [|injection Hrun as <- <-; eexists; simpl;
      (split_and!; [done|rewrite Htr2, <- !app_assoc; reflexivity
                   |simpl; by apply prefix_cons, prefix_app, prefix_cons,
                                prefix_cons, prefix_nil
                   |done])..].
  unfold request at 1 in Hrun.
  destruct (saveShrinkwrap _ _ _) as [r5 w5].
  injection Hrun as <- <-. eexists. simpl.
  split_and!; [done|rewrite Htr2, <- !app_assoc; reflexivity|done|done].
Qed.

End UninstallOrder.

Lemma pruneLoop_keeps_dependents_witness :
  ∃ st',
    pruneLoop react_app (map fst (shr_dependencies (us_shrinkwrap two_pins)))
      two_pins = (Ok (), st') ∧
    us_world st' = us_world two_pins ∧
    shr_dependencies (us_shrinkwrap st') =
      filter (λ kv, stillDependent react_app kv.1)
        (shr_dependencies (us_shrinkwrap two_pins)) ∧
    us_trace st' =
      us_trace two_pins ++
      (DeleteShrinkwrapDependency
         <$> filter (λ k, ¬ stillDependent react_app k)
               (shr_dependencies (us_shrinkwrap two_pins)).*1).
Proof.
  apply (pruneLoop_keeps_dependents react_app two_pins).
  - by intros deps shr.
  - intros k _. by exists k.
Defined.

Lemma uninstall_requests_in_order_witness :
  let run :=
    uninstallInContext join_segments ["react"] (manifest "app" "1.0.0" None)
      sample_ctx (Some "dependencies") (initial_state sample_ctx 0) in
  ∃ deleted made,
    deleted `sublist_of`
      (shr_dependencies (us_shrinkwrap (initial_state sample_ctx 0))).*1 ∧
    us_trace run.2 = us_trace (initial_state sample_ctx 0) ++ made ∧
    made `prefix_of`
      RemoveDeps (join_segments [ctx_root sample_ctx; "package.json"])
        ["react"] "dependencies"
      :: (DeleteShrinkwrapDependency <$> deleted)
         ++ [PruneShrinkwrap;
             RemoveOrphanPkgs (ctx_root sample_ctx) (ctx_storePath sample_ctx);
             SaveShrinkwrap (ctx_root sample_ctx)] ∧
    (run.1 = Ok () →
     made =
       RemoveDeps (join_segments [ctx_root sample_ctx; "package.json"])
         ["react"] "dependencies"
       :: (DeleteShrinkwrapDependency <$> deleted)
          ++ [PruneShrinkwrap;
              RemoveOrphanPkgs (ctx_root sample_ctx) (ctx_storePath sample_ctx);
              SaveShrinkwrap (ctx_root sample_ctx)]).
Proof.
  intros run.
  apply (uninstall_requests_in_order join_segments ["react"]
           (manifest "app" "1.0.0" None) sample_ctx (Some "dependencies")
           "dependencies" (initial_state sample_ctx 0) run.1 run.2).
  - reflexivity.
  - done.
  - apply surjective_pairing.
Defined.

(** A key of the shrinkwrap whose name every object inherits from
    [Object.prototype] passes the test of [isDependentOn] whatever the
    manifest lists: the loop keeps the entry [constructor] and deletes the
    entry [redux]. *)
Example pruneLoop_keeps_inherited_name :
  let pins :=
    {| us_world := 0;
       us_shrinkwrap := [("constructor", "registry/constructor/1.0.0");
                         ("redux", "registry/redux/3.0.0")];
       us_trace := [] |} in
  isDependentOn react_app "constructor" = true ∧
  pruneLoop react_app ["constructor"; "redux"] pins =
    (Ok (),
     {| us_world := 0;
        us_shrinkwrap := [("constructor", "registry/constructor/1.0.0")];
        us_trace := [DeleteShrinkwrapDependency "redux"] |}).
Proof. by vm_compute. Qed.

(** ** Peer resolution for names that are not inherited *)

(** X24. For the peers a package declares (an object: distinct names) and
    a scope whose nodes have non-empty keypath ids, when every declared
    name that is also the name of a member of [Object.prototype] is the
    name of a package in scope: the resolved list holds, in order, the
    keypath id of every peer whose name is in scope and nothing for the
    others; a peer that is absent logs one no-peer warning and no
    version-mismatch warning; a peer that is present is in the list whether
    or not its version satisfies the range, with no no-peer warning and
    exactly one version-mismatch warning when it does not satisfy and none
    when it does. *)
Theorem resolvePeers_outcome_for_own_names satisfies peerDependencies pkgId
    parentPkgs :
  NoDup peerDependencies.*1 →
  scope_ids_nonempty parentPkgs →
  (∀ peer, peer ∈ peerDependencies → peer.1 ∈ objectPrototypeMembers →
     is_Some (parentPkgs !! peer.1)) →
  let resolved := resolvePeers satisfies peerDependencies pkgId parentPkgs in
  resolved.1 =
    omap (λ peer, dt_keypathId <$> parentPkgs !! peer.1) peerDependencies ∧
  ∀ peerName versionRange,
    (peerName, versionRange) ∈ peerDependencies →
    match parentPkgs !! peerName with
    | None =>
        WarnNoPeer pkgId peerName versionRange ∈ resolved.2 ∧
        length (filter (no_peer_about peerName) resolved.2) = 1 ∧
        length (filter (mismatch_about peerName) resolved.2) = 0
    | Some node =>
        dt_keypathId node ∈ resolved.1 ∧
        length (filter (no_peer_about peerName) resolved.2) = 0 ∧
        length (filter (mismatch_about peerName) resolved.2) =
          (if satisfies (Some (dt_version node)) versionRange then 0 else 1) ∧
        (satisfies (Some (dt_version node)) versionRange = false →
         WarnVersionMismatch pkgId peerName versionRange (dt_version node)
           ∈ resolved.2)
    end.
Proof. apply resolvePeers_outcome. Qed.

Lemma resolvePeers_outcome_for_own_names_witness :
  let resolved :=
    resolvePeers exact_version [("react", "16.0.0"); ("redux", "3.0.0")]
      "plugin" scope_react in
  resolved.1 =
    omap (λ peer, dt_keypathId <$> scope_react !! peer.1)
      [("react", "16.0.0"); ("redux", "3.0.0")] ∧
  ∀ peerName versionRange,
    (peerName, versionRange) ∈ [("react", "16.0.0"); ("redux", "3.0.0")] →
    match scope_react !! peerName with
    | None =>
        WarnNoPeer "plugin" peerName versionRange ∈ resolved.2 ∧
        length (filter (no_peer_about peerName) resolved.2) = 1 ∧
        length (filter (mismatch_about peerName) resolved.2) = 0
    | Some node =>
        dt_keypathId node ∈ resolved.1 ∧
        length (filter (no_peer_about peerName) resolved.2) = 0 ∧
        length (filter (mismatch_about peerName) resolved.2) =
          (if exact_version (Some (dt_version node)) versionRange
           then 0 else 1) ∧
        (exact_version (Some (dt_version node)) versionRange = false →
         WarnVersionMismatch "plugin" peerName versionRange (dt_version node)
           ∈ resolved.2)
    end.
Proof.
  apply (resolvePeers_outcome_for_own_names exact_version
           [("react", "16.0.0"); ("redux", "3.0.0")] "plugin" scope_react).
  - apply (bool_decide_unpack _). by vm_compute.
  - exact scope_react_ids_nonempty.
  - intros peer Hin Hmember. exfalso.
    apply elem_of_cons in Hin as [->|Hin];
      [|apply list_elem_of_singleton in Hin as ->];
      apply (bool_decide_pack _) in Hmember; by vm_compute in Hmember.
Defined.
